(** * PathRecorder: reachability propagation and running usage statistics

    A shallow embedding of [src/interfaces/PathRecorder.py].

    - Numbers are exact rationals ([Qc]); line 43 divides as Python 3 does.
    - A tensor is a dense nested list: the active tensor a list of [n]
      matrices of [n] rows of width [b], the sampling tensor a list of [n]
      rows.  The empty list stands for the unsized [torch.Tensor()] of
      lines 50-51; the estimate of a one-node graph, which [squeeze] makes
      zero-dimensional, is a list of length one.
    - A decision is a tensor with its shape, so that [squeeze], the
      promotion of a scalar and the dimension check of lines 55-61 can be
      followed as written.
    - The recorder is a record threaded through a state-and-exception
      monad: an exception leaves behind exactly the mutations performed
      before it was raised.  [incoming], a view of a row of the active
      tensor, is that row of the stored tensor, so in-place operations on
      it are updates of the store.
    - The graph is the predecessor map of the digraph together with the
      sequence [nx.topological_sort] yields. *)

From Stdlib Require Import QArith Qcanon.
From stdpp Require Import base numbers list strings gmap.

Abbreviation node := string (only parsing).
Abbreviation vec := (list Qc) (only parsing).
Abbreviation mat := (list (list Qc)) (only parsing).
Abbreviation cube := (list (list (list Qc))) (only parsing).

(** ** Scalars *)

Definition Qc_of_nat (n : nat) : Qc := Qc_of_Z (Z.of_nat n).

(** [(x != 0).float()] on one entry. *)
Definition ne0 (x : Qc) : Qc := if decide (x = 0%Qc) then 0%Qc else 1%Qc.

Definition Qcmax (x y : Qc) : Qc := if decide (x ≤ y)%Qc then y else x.

Definition Qcsum (v : vec) : Qc := foldr Qcplus 0%Qc v.

(** ** Dense tensors as nested lists *)

Definition zeros1 (b : nat) : vec := replicate b 0%Qc.
Definition zeros2 (n b : nat) : mat := replicate n (zeros1 b).
Definition zeros3 (n m b : nat) : cube := replicate n (zeros2 m b).

Definition numel2 (s : mat) : nat := sum_list (length <$> s).
Definition numel3 (a : cube) : nat := sum_list (numel2 <$> a).

(** [m.size() == torch.Size((n, b))] for a matrix taken out of a cube. *)
Definition has_size2 (n b : nat) (m : mat) : bool :=
  bool_decide (length m = n) && forallb (λ r, bool_decide (length r = b)) m.

Definition vadd (u v : vec) : vec := zip_with Qcplus u v.
Definition vmul (u v : vec) : vec := zip_with Qcmult u v.
Definition madd (m1 m2 : mat) : mat := zip_with vadd m1 m2.

(** [m.view(-1, b).max(0)[0]]: the column-wise maximum over the rows. *)
Definition max0 (m : mat) : vec :=
  match m with
  | [] => []
  | r :: rs => foldl (zip_with Qcmax) r rs
  end.

(** [m.mean(1)]: the mean of every row over the batch dimension.  Over an
    empty batch torch yields NaN, which has no rational counterpart; the
    quotient by zero is [0] here. *)
Definition mean (r : vec) : Qc := (Qcsum r / Qc_of_nat (length r))%Qc.
Definition mean1 (m : mat) : vec := mean <$> m.

(** [m[:, k]] *)
Definition column (k : nat) (m : mat) : vec := omap (λ r : vec, r !! k) m.

(** [m.size(1)] of a matrix with at least one row. *)
Definition size1 (m : mat) : nat :=
  match m with
  | [] => 0
  | r :: _ => length r
  end.

(** ** Decision tensors, with their shape

    A decision arrives as a tensor of any shape; [data] is its row-major
    content. *)

Record Tensor := mkTensor { shape : list nat; data : vec }.

Definition tensor_wf (x : Tensor) : Prop :=
  length (data x) = foldr Nat.mul 1 (shape x).

Definition vector (d : vec) : Tensor := mkTensor [length d] d.
Definition scalar (x : Qc) : Tensor := mkTensor [] [x].

Definition dim (x : Tensor) : nat := length (shape x).

(** [x.squeeze()] drops every dimension of size one. *)
Definition squeeze (x : Tensor) : Tensor :=
  mkTensor (filter (λ n, n ≠ 1) (shape x)) (data x).

(** [x.unsqueeze_(0)] *)
Definition unsqueeze0 (x : Tensor) : Tensor := mkTensor (1 :: shape x) (data x).

(** Lines 58-59: a zero-dimensional decision becomes a vector of length one. *)
Definition promote (x : Tensor) : Tensor :=
  if decide (dim x = 0) then unsqueeze0 x else x.

(** [x.size(0)] *)
Definition size0 (x : Tensor) : nat := hd 0 (shape x).

(** ** Exceptions *)

Inductive exn :=
  | NotInitialized   (* RuntimeError raised at line 57 *)
  | InvalidShape     (* ValueError raised at line 61 *)
  | KeyError         (* dict lookup of an unknown node *)
  | IndexError       (* tensor or list index out of range *)
  | TypeError        (* subscripting None *)
  | AttributeError   (* attribute of None *)
  | NetworkXError    (* graph.predecessors of a node not in the graph *)
  | BroadcastError   (* torch RuntimeError: sizes do not match *)
  | ViewError        (* torch RuntimeError: ambiguous view(-1, 0) *)
  | AssertionError.  (* assert at line 80 or 114 *)

Inductive result (A : Type) :=
  | Ok (a : A)
  | Raise (e : exn).
Arguments Ok {A} a.
Arguments Raise {A} e.

Global Instance exn_eq_dec : EqDecision exn.
Proof. solve_decision. Defined.
Global Instance result_eq_dec `{EqDecision A} : EqDecision (result A).
Proof. solve_decision. Defined.
Global Instance Tensor_eq_dec : EqDecision Tensor.
Proof. solve_decision. Defined.

(** Broadcasting a flat vector against a row of width [b]: equal widths
    pass through, width one is repeated, anything else is refused. *)
Definition expand_as (b : nat) (d : vec) : result vec :=
  if decide (length d = b) then Ok d
  else if decide (length d = 1) then Ok (replicate b (hd 0%Qc d))
  else Raise BroadcastError.

(** ** The graph collaborator

    [nodes] is the sequence [nx.topological_sort] yields; [pred] is the
    predecessor adjacency of the digraph. *)

Record Graph := mkGraph {
  nodes : list node;
  pred : gmap node (list node)
}.

Definition number_of_nodes (g : Graph) : nat := length (nodes g).

Global Instance Graph_eq_dec : EqDecision Graph.
Proof. solve_decision. Defined.

(** ** The recorder *)

Record PathRecorder := mkPathRecorder {
  graph : Graph;
  default_out : option node;
  n_nodes : nat;
  node_index : gmap node nat;
  rev_node_index : list node;
  global_sampling : option vec;
  n_samplings : nat;
  active : option cube;
  sampling : option mat
}.

Global Instance PathRecorder_eq_dec : EqDecision PathRecorder.
Proof. solve_decision. Defined.

Definition set_global_sampling (g : option vec) (t : PathRecorder) : PathRecorder :=
  mkPathRecorder (graph t) (default_out t) (n_nodes t) (node_index t)
    (rev_node_index t) g (n_samplings t) (active t) (sampling t).
Definition set_n_samplings (k : nat) (t : PathRecorder) : PathRecorder :=
  mkPathRecorder (graph t) (default_out t) (n_nodes t) (node_index t)
    (rev_node_index t) (global_sampling t) k (active t) (sampling t).
Definition set_active (a : option cube) (t : PathRecorder) : PathRecorder :=
  mkPathRecorder (graph t) (default_out t) (n_nodes t) (node_index t)
    (rev_node_index t) (global_sampling t) (n_samplings t) a (sampling t).
Definition set_sampling (s : option mat) (t : PathRecorder) : PathRecorder :=
  mkPathRecorder (graph t) (default_out t) (n_nodes t) (node_index t)
    (rev_node_index t) (global_sampling t) (n_samplings t) (active t) s.

(** [__init__]: the index follows the enumeration of the topological order;
    a node met twice keeps its last position, as a dict assignment does. *)
Definition build_node_index (order : list node) : gmap node nat :=
  foldl (λ m p, <[p.2 := p.1]> m) ∅ (imap pair order).

Definition init (g : Graph) (default_out : option node) : PathRecorder :=
  mkPathRecorder g default_out (number_of_nodes g)
    (build_node_index (nodes g)) (nodes g) None 0 None None.

(** ** The state-and-exception monad *)

Definition M (A : Type) : Type := PathRecorder → result A * PathRecorder.

Definition ret {A} (x : A) : M A := λ t, (Ok x, t).
Definition bind {A B} (m : M A) (k : A → M B) : M B := λ t,
  match m t with
  | (Ok x, t') => k x t'
  | (Raise e, t') => (Raise e, t')
  end.

Notation "'do' x <- m ; k" := (bind m (λ x, k))
  (at level 10, x name, m at level 100, k at level 200, only parsing).
Notation "'do' ' p <- m ; k" := (bind m (λ x, match x with p => k end))
  (at level 10, p pattern, m at level 100, k at level 200, only parsing).
Notation "m ;; k" := (bind m (λ _, k))
  (at level 100, k at level 200, right associativity, only parsing).

Definition raise {A} (e : exn) : M A := λ t, (Raise e, t).
Definition gets {A} (f : PathRecorder → A) : M A := λ t, (Ok (f t), t).
Definition modify (f : PathRecorder → PathRecorder) : M unit := λ t, (Ok tt, f t).

(** Lift a partial read, raising [e] when it has no value. *)
Definition orelse {A} (o : option A) (e : exn) : M A :=
  match o with
  | Some x => ret x
  | None => raise e
  end.
Definition lift {A} (r : result A) : M A :=
  match r with
  | Ok x => ret x
  | Raise e => raise e
  end.

(** [for x in l: body x] *)
Fixpoint for_each {A} (l : list A) (body : A → M unit) : M unit :=
  match l with
  | [] => ret tt
  | x :: l' => body x ;; for_each l' body
  end.

(** Elementwise [f u v] under torch broadcasting of flat vectors. *)
Definition broadcast2 (f : Qc → Qc → Qc) (u v : vec) : result vec :=
  if decide (length u = length v) then Ok (zip_with f u v)
  else if decide (length u = 1) then Ok (f (hd 0%Qc u) <$> v)
  else if decide (length v = 1) then Ok ((λ x, f x (hd 0%Qc v)) <$> u)
  else Raise BroadcastError.

(** ** Methods *)

(** [self.active[i]] *)
Definition read_row (i : nat) : M mat :=
  do a <- gets active;
  match a with
  | None => raise TypeError
  | Some a => orelse (a !! i) IndexError
  end.

(** [incoming] is a view of [self.active[i]]: an in-place operation on it
    is an update of that row of the active tensor. *)
Definition write_row (i : nat) (m : mat) : M unit :=
  modify (λ t, set_active ((λ a : cube, <[i := m]> a) <$> active t) t).

Definition update_incoming (i : nat) (f : mat → result mat) : M unit :=
  do inc <- read_row i;
  do inc' <- lift (f inc);
  write_row i inc'.

(** [incoming[i] += d] *)
Definition iadd_self (i : nat) (d : vec) (inc : mat) : result mat :=
  match inc !! i with
  | None => Raise IndexError
  | Some r =>
      match expand_as (length r) d with
      | Ok d' => Ok (<[i := vadd r d']> inc)
      | Raise e => Raise e
      end
  end.

Definition update_global_sampling (used_nodes : mat) : M unit :=
  (* 37 *) modify (λ t, set_n_samplings (S (n_samplings t)) t) ;;
  (* 38 *) let mean_sampling := mean1 used_nodes in
  (* 40 *) do g <- gets global_sampling;
  match g with
  | None => (* 41 *) modify (set_global_sampling (Some mean_sampling))
  | Some g =>
      (* 43 *)
      do n <- gets n_samplings;
      do diff <- lift (broadcast2 Qcminus mean_sampling g);
      let delta := Qcmult (1 / Qc_of_nat n)%Qc <$> diff in
      if decide (length delta = length g)
      then modify (set_global_sampling (Some (vadd g delta)))
      else raise BroadcastError
  end.

Definition get_sampled_architectures : M (option mat) := gets sampling.

Definition get_pruned_architecture (out_node : node) : M mat :=
  do idx <- gets node_index;
  do i <- orelse (idx !! out_node) KeyError;
  read_row i.

Definition get_architectures (out_node : node) : M (option mat * mat) :=
  do sampled <- get_sampled_architectures;
  do pruned <- get_pruned_architecture out_node;
  ret (sampled, pruned).

Definition new_iteration : M unit :=
  (* 46 *)
  do d <- gets default_out;
  do a <- gets active;
  match d, a with
  | Some out, Some _ =>
      (* 47 *) do pruned <- get_pruned_architecture out;
      (* 48 *) update_global_sampling pruned
  | _, _ => ret tt
  end ;;
  (* 50 *) modify (set_active (Some [])) ;;
  (* 51 *) modify (set_sampling (Some [])).

(** Lines 65-67: the first decision of an iteration sizes both tensors. *)
Definition allocate (batch_size : nat) : M unit :=
  do a <- gets active;
  match a with
  | None => raise AttributeError
  | Some a =>
      if decide (numel3 a = 0) then
        do s <- gets sampling;
        match s with
        | None => raise AttributeError
        | Some s =>
            if decide (numel2 s = 0) then
              do n <- gets n_nodes;
              modify (set_active (Some (zeros3 n n batch_size))) ;;
              modify (set_sampling (Some (zeros2 n batch_size)))
            else ret tt
        end
      else ret tt
  end.

(** Line 72: [self.sampling[i] = d] *)
Definition set_sampling_row (i : nat) (d : vec) : M unit :=
  do s <- gets sampling;
  match s with
  | None => raise TypeError
  | Some s =>
      do r <- orelse (s !! i) IndexError;
      do d' <- lift (expand_as (length r) d);
      modify (set_sampling (Some (<[i := d']> s)))
  end.

(** Line 78: [incoming += self.active[self.node_index[prev]]] *)
Definition add_predecessor (i : nat) (prev : node) : M unit :=
  do idx <- gets node_index;
  do p <- orelse (idx !! prev) KeyError;
  do row <- read_row p;
  update_incoming i (λ inc, Ok (madd inc row)).

(** Lines 69-90 of [add_sampling], for a flat decision [d] of width
    [batch_size]. *)
Definition record_row (node_name : node) (batch_size : nat) (d : vec) : M unit :=
  (* 69 *)
  do idx <- gets node_index;
  do node_ind <- orelse (idx !! node_name) KeyError;
  (* 70 *) do _ <- read_row node_ind;
  (* 72 *) set_sampling_row node_ind d ;;
  (* 74 *)
  do g <- gets graph;
  do preds <- orelse (pred g !! node_name) NetworkXError;
  (* 75 *)
  (if decide (length preds = 0)
   then update_incoming node_ind (iadd_self node_ind d)
   else ret tt) ;;
  (* 77-78 *) for_each preds (add_predecessor node_ind) ;;
  (* 80 *)
  do incoming <- read_row node_ind;
  do n <- gets n_nodes;
  if negb (has_size2 n batch_size incoming) then raise AssertionError else
  (* 82 *)
  if decide (batch_size = 0) then raise ViewError else
  let has_inputs := max0 incoming in
  (* 83 *) let has_outputs := zip_with (λ h s, ne0 (h * s)%Qc) has_inputs d in
  (* 85 *) update_incoming node_ind (iadd_self node_ind d) ;;
  (* 87-88 *)
  update_incoming node_ind (λ inc, Ok ((λ r, vmul r has_outputs) <$> inc)) ;;
  (* 90 *)
  do incoming <- read_row node_ind;
  write_row node_ind ((λ r : vec, ne0 <$> r) <$> incoming).

Definition add_sampling (node_name : node) (sampling_ : Tensor) : M unit :=
  (* 54-55 *) let x := squeeze sampling_ in
  (* 56-57 *)
  do a <- gets active;
  match a with
  | None => raise NotInitialized
  | Some _ =>
      (* 58-59 *) let x := promote x in
      (* 60-61 *)
      if decide (dim x ≠ 1) then raise InvalidShape else
      (* 63 *) let batch_size := size0 x in
      (* 65-67 *) allocate batch_size ;;
      (* 69-90 *) record_row node_name batch_size (data x)
  end.

(** [[rev[idx] for idx, used in enumerate(arch) if used == 1]] *)
Definition path_of (rev : list node) (arch : vec) : option (list node) :=
  mapM (λ p : nat * Qc, rev !! p.1)
       (filter (λ p : nat * Qc, p.2 = 1%Qc) (imap pair arch)).

(** [dict((rev[ind], elt) for ind, elt in enumerate(col))] *)
Definition dict_of (rev : list node) (col : vec) : option (gmap node Qc) :=
  foldl (λ (m : gmap node Qc) (kv : node * Qc), <[kv.1 := kv.2]> m) ∅
    <$> mapM (λ p : nat * Qc, (λ nd, (nd, p.2)) <$> rev !! p.1) (imap pair col).

(** [m.t()] and the columns [m[:, i]] for [i in range(m.size(1))] *)
Definition columns (m : mat) : list vec := (λ k, column k m) <$> seq 0 (size1 m).

Definition get_used_nodes (architectures : list vec) : M (list (list node)) :=
  do rev <- gets rev_node_index;
  orelse (mapM (path_of rev) architectures) IndexError.

Definition get_graph_paths (out_node : node)
  : M (list (list node) * list (gmap node Qc)) :=
  (* 105 *) do '(sampled, pruned) <- get_architectures out_node;
  do rev <- gets rev_node_index;
  (* 107-110 *)
  do real_paths <- orelse (mapM (path_of rev) (columns pruned)) IndexError;
  (* 112 *) do res <- get_used_nodes (columns pruned);
  (* 114 *)
  if decide (real_paths ≠ res) then raise AssertionError else
  (* 116-119 *)
  match sampled with
  | None => raise AttributeError
  | Some [] => raise IndexError
  | Some s =>
      do sampling_paths <- orelse (mapM (dict_of rev) (columns s)) IndexError;
      (* 121 *) update_global_sampling pruned ;;
      (* 123 *) ret (real_paths, sampling_paths)
  end.

(** Line 126 enumerates the estimate: [None] is not iterable, and neither
    is the zero-dimensional tensor [squeeze] leaves for a one-node graph,
    which is the estimate of length one here. *)
Definition get_posterior_weights : M (gmap node Qc) :=
  do g <- gets global_sampling;
  match g with
  | None => raise TypeError
  | Some g =>
      if decide (length g = 1) then raise TypeError else
      do rev <- gets rev_node_index;
      orelse (dict_of rev g) IndexError
  end.

(** [self.active[i].sum(0) != 0] *)
Definition get_consistence (nd : node) : M (list bool) :=
  do row <- get_pruned_architecture nd;
  ret ((λ k, bool_decide (Qcsum (column k row) ≠ 0%Qc)) <$> seq 0 (size1 row)).

Inductive event :=
  | sampling_event (nd : node) (value : Tensor)
  | new_iteration_event
  | other_event.

Definition new_event (e : event) : M unit :=
  match e with
  | sampling_event nd value => add_sampling nd value
  | new_iteration_event => new_iteration
  | other_event => ret tt
  end.

(** ** Shapes, masks and the closed form of one propagation step *)

Definition shaped2 (n b : nat) (m : mat) : Prop :=
  length m = n ∧ Forall (λ r : vec, length r = b) m.
Definition shaped3 (n b : nat) (a : cube) : Prop :=
  length a = n ∧ Forall (shaped2 n b) a.

Definition is01 (x : Qc) : Prop := x = 0%Qc ∨ x = 1%Qc.
Definition mask2 (m : mat) : Prop := Forall (Forall is01) m.
Definition mask3 (a : cube) : Prop := Forall mask2 a.

(** [a[i][j][k]] *)
Definition entry (a : cube) (i j k : nat) : option Qc :=
  match a !! i with
  | Some m => match m !! j with Some r => r !! k | None => None end
  | None => None
  end.

(** Line 75 on the whole tensor: [active[i][i] += d]. *)
Definition seed (i : nat) (d : vec) (a : cube) : cube :=
  <[i := <[i := vadd ((a !!! i) !!! i) d]> (a !!! i)]> a.

(** Line 78 on the whole tensor: [active[i] += active[p]]. *)
Definition add_row (i : nat) (a : cube) (p : nat) : cube :=
  <[i := madd (a !!! i) (a !!! p)]> a.

(** Lines 74-78: the row of node [i] once its predecessors are summed. *)
Definition gather (i : nat) (ps : list nat) (d : vec) (a : cube) : cube :=
  foldl (add_row i) (if decide (length ps = 0) then seed i d a else a) ps.

(** Lines 82-90 on the gathered row. *)
Definition prune (i : nat) (d : vec) (inc : mat) : mat :=
  let has_outputs := zip_with (λ h s, ne0 (h * s)%Qc) (max0 inc) d in
  (λ r : vec, ne0 <$> vmul r has_outputs) <$> <[i := vadd (inc !!! i) d]> inc.

Definition propagate (i : nat) (ps : list nat) (d : vec) (a : cube) : cube :=
  let a' := gather i ps d a in
  <[i := prune i d (a' !!! i)]> a'.

(** Column [k] of the matrix [m] is zero in every row. *)
Definition zero_at (k : nat) (m : mat) : Prop :=
  ∀ j r, m !! j = Some r → r !! k = Some 0%Qc.

(** Row [q] of the tensor, when it exists, is zero at batch element [k]. *)
Definition row_zero_at (k : nat) (a : cube) (q : nat) : Prop :=
  ∀ m, a !! q = Some m → zero_at k m.

(** The tensors a decision of width [b] works on: the zero-filled ones
    allocated by lines 65-67 when the recorder holds none yet, the current
    ones otherwise, which must then have width [b]. *)
Definition ready (t : PathRecorder) (b : nat) (a : cube) (s : mat) : Prop :=
  ∃ a0 s0, active t = Some a0 ∧ sampling t = Some s0 ∧
    ((numel3 a0 = 0 ∧ numel2 s0 = 0 ∧
      a = zeros3 (n_nodes t) (n_nodes t) b ∧ s = zeros2 (n_nodes t) b)
     ∨ (a = a0 ∧ s = s0 ∧
        shaped3 (n_nodes t) b a ∧ shaped2 (n_nodes t) b s)).

(** [g] is the component-wise arithmetic mean of the vectors [ms], each of
    length [n]. *)
Definition is_mean_of (ms : list vec) (n : nat) (g : vec) : Prop :=
  length g = n ∧
  ∀ j, j < n →
    g !! j = Some (Qcsum (column j ms) / Qc_of_nat (length ms))%Qc.

(** The estimate line 43 computes from the estimate [g], the new counter
    [k] and the batch means [m]. *)
Definition fold_mean (g : vec) (k : nat) (m : vec) : vec :=
  vadd g (Qcmult (1 / Qc_of_nat k)%Qc <$> zip_with Qcminus m g).

(** ** Frames: what a call leaves alone *)

Definition same_static (t t' : PathRecorder) : Prop :=
  graph t' = graph t ∧ default_out t' = default_out t ∧
  n_nodes t' = n_nodes t ∧ node_index t' = node_index t ∧
  rev_node_index t' = rev_node_index t.

Definition same_stats (t t' : PathRecorder) : Prop :=
  global_sampling t' = global_sampling t ∧ n_samplings t' = n_samplings t.

Definition same_tensors (t t' : PathRecorder) : Prop :=
  active t' = active t ∧ sampling t' = sampling t.

(** Two optional lists that agree in presence, in length and at every
    index but [i]. *)
Definition agree_off {A} (i : nat) (o o' : option (list A)) : Prop :=
  match o, o' with
  | None, None => True
  | Some l, Some l' => length l' = length l ∧ ∀ j, j ≠ i → l' !! j = l !! j
  | _, _ => False
  end.

(** Only row [i] of the two tensors may differ between [t] and [t']. *)
Definition only_row (i : nat) (t t' : PathRecorder) : Prop :=
  same_static t t' ∧ same_stats t t' ∧
  agree_off i (active t) (active t') ∧ agree_off i (sampling t) (sampling t').

(** The exceptions lines 65-90 can end with: those of the two guards at
    lines 57 and 61 are not among them. *)
Definition late_exn (e : exn) : Prop :=
  e ≠ NotInitialized ∧ e ≠ InvalidShape.

(** The active tensor, when there is one, holds nothing but [0] and [1]. *)
Definition mask_inv (t : PathRecorder) : Prop :=
  ∀ a, active t = Some a → mask3 a.

(** ** Well-formed recorders *)

(** What the graph collaborator guarantees: the topological order lists
    every node once, [pred] is defined on exactly these nodes, and
    predecessors are nodes. *)
Definition wf_graph (g : Graph) : Prop :=
  NoDup (nodes g)
  ∧ (∀ nd, is_Some (pred g !! nd) ↔ nd ∈ nodes g)
  ∧ (∀ nd ps p, pred g !! nd = Some ps → p ∈ ps → p ∈ nodes g).

(** The index part of a recorder, which no method changes. *)
Definition static_ok (t : PathRecorder) : Prop :=
  length (rev_node_index t) = n_nodes t
  ∧ (∀ nd i, node_index t !! nd = Some i → rev_node_index t !! i = Some nd)
  ∧ (∀ nd ps p, pred (graph t) !! nd = Some ps → p ∈ ps →
       is_Some (node_index t !! p)).

(** The two tensors are unset together, unsized together, or sized
    [n×n×b] and [n×b] for one batch width [b]. *)
Definition tensors_ok (t : PathRecorder) : Prop :=
  match active t, sampling t with
  | None, None => True
  | Some a, Some s =>
      (a = [] ∧ s = [])
      ∨ ∃ b, 0 < b ∧ 0 < n_nodes t
             ∧ shaped3 (n_nodes t) b a ∧ shaped2 (n_nodes t) b s
  | _, _ => False
  end.

(** The estimate, once set, has one entry per node. *)
Definition stats_ok (t : PathRecorder) : Prop :=
  ∀ g, global_sampling t = Some g → length g = n_nodes t.

Definition inv (t : PathRecorder) : Prop :=
  static_ok t ∧ tensors_ok t ∧ stats_ok t ∧ mask_inv t.

(** Sized tensors stay sized. *)
Definition shape_kept (n b : nat) (t t' : PathRecorder) : Prop :=
  (∀ a, active t = Some a → shaped3 n b a →
        ∃ a', active t' = Some a' ∧ shaped3 n b a')
  ∧ (∀ s, sampling t = Some s → shaped2 n b s →
          ∃ s', sampling t' = Some s' ∧ shaped2 n b s').

(** The batch width of the iteration in progress, once a decision fixed it. *)
Definition batch_width (t : PathRecorder) : option nat :=
  match sampling t with
  | Some (r :: _) => Some (length r)
  | _ => None
  end.

(** ** Histories of calls *)

Inductive call :=
  | call_new_iteration
  | call_add_sampling (nd : node) (x : Tensor)
  | call_get_graph_paths (nd : node).

Definition run_call (c : call) : M unit :=
  match c with
  | call_new_iteration => new_iteration
  | call_add_sampling nd x => add_sampling nd x
  | call_get_graph_paths nd => get_graph_paths nd ;; ret tt
  end.

(** The state after a history, whether or not some of its calls raised:
    an exception leaves the mutations made before it. *)
Definition run (cs : list call) (t : PathRecorder) : PathRecorder :=
  foldl (λ t c, (run_call c t).2) t cs.

(** The state after a history all of whose calls returned normally. *)
Fixpoint run_ok (cs : list call) (t : PathRecorder) : option PathRecorder :=
  match cs with
  | [] => Some t
  | c :: cs' =>
      match run_call c t with
      | (Ok _, t') => run_ok cs' t'
      | (Raise _, _) => None
      end
  end.

(** The decisions of a history are well-formed tensors. *)
Definition wf_call (c : call) : Prop :=
  match c with
  | call_add_sampling _ x => tensor_wf x
  | _ => True
  end.

(** ** Example graphs *)

(** [A -> B -> C] *)
Definition chain : Graph :=
  mkGraph ["A"; "B"; "C"]
    (<["A" := []]> (<["B" := ["A"]]> (<["C" := ["B"]]> ∅))).

(** [A -> B] *)
Definition edge : Graph :=
  mkGraph ["A"; "B"] (<["A" := []]> (<["B" := ["A"]]> ∅)).

(** [A -> B -> D] and [A -> C -> D] *)
Definition diamond : Graph :=
  mkGraph ["A"; "B"; "C"; "D"]
    (<["A" := []]> (<["B" := ["A"]]> (<["C" := ["A"]]>
       (<["D" := ["B"; "C"]]> ∅)))).

(** ** Rounding

    The tensors of the recorder are [torch.Tensor()], single precision,
    and the product of line 83 is rounded: it is zero for two positive
    factors that are small enough.  [least_decision] is 2^-63, the least
    number whose square, 2^-126, is a normal single-precision number. *)
Definition least_decision : Qc := (/ Qc_of_Z (2 ^ 63))%Qc.

(** ** Snapshots

    [get_state] returns a dictionary of four attributes; [load_state]
    assigns every entry of a dictionary to the attribute of that name,
    after asserting that the attribute exists.  An entry is modelled with
    the attribute it names and a value of that attribute's type; a key that
    names no attribute is [item_unknown]. *)

Inductive item :=
  | item_graph (v : Graph)
  | item_default_out (v : option node)
  | item_n_nodes (v : nat)
  | item_node_index (v : gmap node nat)
  | item_rev_node_index (v : list node)
  | item_global_sampling (v : option vec)
  | item_n_samplings (v : nat)
  | item_active (v : option cube)
  | item_sampling (v : option mat)
  | item_unknown (key : string).

Definition set_graph (g : Graph) (t : PathRecorder) : PathRecorder :=
  mkPathRecorder g (default_out t) (n_nodes t) (node_index t)
    (rev_node_index t) (global_sampling t) (n_samplings t) (active t)
    (sampling t).
Definition set_default_out (d : option node) (t : PathRecorder) : PathRecorder :=
  mkPathRecorder (graph t) d (n_nodes t) (node_index t)
    (rev_node_index t) (global_sampling t) (n_samplings t) (active t)
    (sampling t).
Definition set_n_nodes (n : nat) (t : PathRecorder) : PathRecorder :=
  mkPathRecorder (graph t) (default_out t) n (node_index t)
    (rev_node_index t) (global_sampling t) (n_samplings t) (active t)
    (sampling t).
Definition set_node_index (idx : gmap node nat) (t : PathRecorder) : PathRecorder :=
  mkPathRecorder (graph t) (default_out t) (n_nodes t) idx
    (rev_node_index t) (global_sampling t) (n_samplings t) (active t)
    (sampling t).
Definition set_rev_node_index (rev : list node) (t : PathRecorder) : PathRecorder :=
  mkPathRecorder (graph t) (default_out t) (n_nodes t) (node_index t)
    rev (global_sampling t) (n_samplings t) (active t) (sampling t).

(** Lines 154-158, in the order the dictionary is built. *)
Definition get_state : M (list item) :=
  do idx <- gets node_index;
  do rev <- gets rev_node_index;
  do g <- gets global_sampling;
  do n <- gets n_samplings;
  ret [item_node_index idx; item_rev_node_index rev;
       item_global_sampling g; item_n_samplings n].

(** Lines 162-163 for one entry. *)
Definition load_item (it : item) : M unit :=
  match it with
  | item_graph v => modify (set_graph v)
  | item_default_out v => modify (set_default_out v)
  | item_n_nodes v => modify (set_n_nodes v)
  | item_node_index v => modify (set_node_index v)
  | item_rev_node_index v => modify (set_rev_node_index v)
  | item_global_sampling v => modify (set_global_sampling v)
  | item_n_samplings v => modify (set_n_samplings v)
  | item_active v => modify (set_active v)
  | item_sampling v => modify (set_sampling v)
  | item_unknown _ => raise AssertionError
  end.

Definition load_state (state : list item) : M unit := for_each state load_item.

(** ** Bounds on the estimate *)

Definition unit01 (x : Qc) : Prop := (0 ≤ x)%Qc ∧ (x ≤ 1)%Qc.

(** Every entry of the estimate, once set, lies between zero and one. *)
Definition stats_unit (t : PathRecorder) : Prop :=
  ∀ g, global_sampling t = Some g → Forall unit01 g.

(** Every entry of the tensor is at least zero. *)
Definition nonneg3 (a : cube) : Prop :=
  ∀ i j k x, entry a i j k = Some x → (0 ≤ x)%Qc.

(** ** Counting the calls of a history *)

Global Instance call_eq_dec : EqDecision call.
Proof. solve_decision. Defined.

Definition is_new_iteration (c : call) : bool :=
  match c with call_new_iteration => true | _ => false end.

Definition is_get_graph_paths (c : call) : bool :=
  match c with call_get_graph_paths _ => true | _ => false end.

Definition count (p : call → bool) (cs : list call) : nat :=
  sum_list ((λ c, if p c then 1 else 0) <$> cs).

(** An entry of a snapshot that names an attribute of the recorder. *)
Definition known_item (it : item) : Prop :=
  match it with item_unknown _ => False | _ => True end.

(** * Part II: properties *)

(** ** Running a computation one step at a time *)

Lemma bind_ok {A B} (m : M A) (k : A → M B) t x t' :
  m t = (Ok x, t') → bind m k t = k x t'.
Proof. unfold bind. by intros ->. Qed.

Lemma for_each_cons {A} (x : A) l body :
  for_each (x :: l) body = (body x ;; for_each l body).
Proof. reflexivity. Qed.

(** ** Shapes *)

Lemma shaped2_lookup n b m j r :
  shaped2 n b m → m !! j = Some r → length r = b.
Proof. intros [_ H] Hj. by eapply (proj1 (Forall_lookup _ _) H). Qed.

Lemma shaped3_lookup n b a i m :
  shaped3 n b a → a !! i = Some m → shaped2 n b m.
Proof. intros [_ H] Hi. by eapply (proj1 (Forall_lookup _ _) H). Qed.

Lemma shaped3_row n b a i :
  shaped3 n b a → i < n → ∃ m, a !! i = Some m ∧ shaped2 n b m.
Proof.
  intros Ha Hi. destruct (lookup_lt_is_Some_2 a i) as [m Hm].
  { destruct Ha as [-> _]. done. }
  exists m. split; [done|]. by eapply shaped3_lookup.
Qed.

Lemma shaped2_row n b m j :
  shaped2 n b m → j < n → ∃ r, m !! j = Some r ∧ length r = b.
Proof.
  intros Hm Hj. destruct (lookup_lt_is_Some_2 m j) as [r Hr].
  { destruct Hm as [-> _]. done. }
  exists r. split; [done|]. by eapply shaped2_lookup.
Qed.

Lemma shaped2_insert n b m j r :
  shaped2 n b m → length r = b → shaped2 n b (<[j := r]> m).
Proof.
  intros [Hl Hf] Hr. split; [by rewrite length_insert|].
  by apply Forall_insert.
Qed.

Lemma shaped3_insert n b a i m :
  shaped3 n b a → shaped2 n b m → shaped3 n b (<[i := m]> a).
Proof.
  intros [Hl Hf] Hm. split; [by rewrite length_insert|].
  by apply Forall_insert.
Qed.

Lemma shaped2_zeros n b : shaped2 n b (zeros2 n b).
Proof.
  split; [apply length_replicate|].
  apply Forall_replicate, length_replicate.
Qed.

Lemma shaped3_zeros n b : shaped3 n b (zeros3 n n b).
Proof.
  split; [apply length_replicate|].
  apply Forall_replicate, shaped2_zeros.
Qed.

Lemma length_vadd u v : length u = length v → length (vadd u v) = length u.
Proof. intros H. unfold vadd. by rewrite length_zip_with_l_eq. Qed.

Lemma shaped2_madd n b m1 m2 :
  shaped2 n b m1 → shaped2 n b m2 → shaped2 n b (madd m1 m2).
Proof.
  intros [Hl1 Hf1] [Hl2 Hf2]. split.
  - unfold madd. rewrite length_zip_with_l_eq; congruence.
  - apply Forall_lookup. intros j r Hr.
    apply lookup_zip_with_Some in Hr as (r1 & r2 & -> & H1 & H2).
    rewrite length_vadd.
    + by eapply (proj1 (Forall_lookup _ _) Hf1).
    + rewrite (proj1 (Forall_lookup _ _) Hf1 _ _ H1).
      by rewrite (proj1 (Forall_lookup _ _) Hf2 _ _ H2).
Qed.

Lemma has_size2_shaped n b m : has_size2 n b m = true ↔ shaped2 n b m.
Proof.
  unfold has_size2, shaped2.
  rewrite andb_true_iff, bool_decide_eq_true, forallb_forall, Forall_forall.
  split; intros [? H]; (split; [done|]); intros r Hr.
  - apply list_elem_of_In, H in Hr. by apply bool_decide_eq_true in Hr.
  - apply bool_decide_eq_true, H. by apply list_elem_of_In.
Qed.

Lemma numel2_shaped n b m :
  shaped2 n b m → 0 < n → 0 < b → numel2 m ≠ 0.
Proof.
  intros [Hl Hf] Hn Hb. destruct m as [|r m]; simpl in *; [lia|].
  apply Forall_cons in Hf as [Hr _]. unfold numel2. simpl. lia.
Qed.

Lemma numel3_shaped n b a :
  shaped3 n b a → 0 < n → 0 < b → numel3 a ≠ 0.
Proof.
  intros [Hl Hf] Hn Hb. destruct a as [|m a]; simpl in *; [lia|].
  apply Forall_cons in Hf as [Hm _]. unfold numel3. simpl.
  pose proof (numel2_shaped _ _ _ Hm Hn Hb). lia.
Qed.

Lemma shaped3_seed n b a i d :
  shaped3 n b a → length d = b → i < n → shaped3 n b (seed i d a).
Proof.
  intros Ha Hd Hi. unfold seed.
  destruct (shaped3_row _ _ _ _ Ha Hi) as (m & Hm & Hsm).
  destruct (shaped2_row _ _ _ _ Hsm Hi) as (r & Hr & Hlr).
  rewrite (list_lookup_total_correct _ _ _ Hm).
  rewrite (list_lookup_total_correct _ _ _ Hr).
  apply shaped3_insert; [done|]. apply shaped2_insert; [done|].
  rewrite length_vadd; congruence.
Qed.

Lemma shaped3_add_row n b a i p :
  shaped3 n b a → i < n → p < n → shaped3 n b (add_row i a p).
Proof.
  intros Ha Hi Hp. unfold add_row.
  destruct (shaped3_row _ _ _ _ Ha Hi) as (m & Hm & Hsm).
  destruct (shaped3_row _ _ _ _ Ha Hp) as (m' & Hm' & Hsm').
  rewrite (list_lookup_total_correct _ _ _ Hm).
  rewrite (list_lookup_total_correct _ _ _ Hm').
  apply shaped3_insert; [done|]. by apply shaped2_madd.
Qed.

Lemma shaped3_foldl_add_row n b i ps a :
  shaped3 n b a → i < n → Forall (λ p, p < n) ps →
  shaped3 n b (foldl (add_row i) a ps).
Proof.
  intros Ha Hi Hps. revert a Ha.
  induction Hps as [|p ps Hp _ IH]; intros a Ha; simpl; [done|].
  apply IH. by apply shaped3_add_row.
Qed.

Lemma shaped3_gather n b i ps d a :
  shaped3 n b a → length d = b → i < n → Forall (λ p, p < n) ps →
  shaped3 n b (gather i ps d a).
Proof.
  intros Ha Hd Hi Hps. unfold gather.
  apply shaped3_foldl_add_row; [|done..].
  case_decide; [by apply shaped3_seed|done].
Qed.

(** ** The primitives on a state whose tensors are known *)

Lemma read_row_ok t a i m :
  active t = Some a → a !! i = Some m → read_row i t = (Ok m, t).
Proof. intros Ha Hm. unfold read_row, bind, gets. by rewrite Ha, Hm. Qed.

Lemma write_row_ok t a i m :
  active t = Some a →
  write_row i m t = (Ok tt, set_active (Some (<[i := m]> a)) t).
Proof. intros Ha. unfold write_row, modify. by rewrite Ha. Qed.

Lemma update_incoming_ok t a i f inc inc' :
  active t = Some a → a !! i = Some inc → f inc = Ok inc' →
  update_incoming i f t = (Ok tt, set_active (Some (<[i := inc']> a)) t).
Proof.
  intros Ha Hinc Hf. unfold update_incoming.
  rewrite (bind_ok _ _ _ _ _ (read_row_ok _ _ _ _ Ha Hinc)).
  rewrite Hf. simpl. unfold bind, ret. by apply write_row_ok.
Qed.

Lemma expand_as_same b d : length d = b → expand_as b d = Ok d.
Proof. intros H. unfold expand_as. by rewrite decide_True. Qed.

Lemma iadd_self_ok n b inc i d :
  shaped2 n b inc → i < n → length d = b →
  iadd_self i d inc = Ok (<[i := vadd (inc !!! i) d]> inc).
Proof.
  intros Hinc Hi Hd. unfold iadd_self.
  destruct (shaped2_row _ _ _ _ Hinc Hi) as (r & Hr & Hlr).
  rewrite Hr, (list_lookup_total_correct _ _ _ Hr).
  rewrite expand_as_same; [done|congruence].
Qed.

Lemma add_predecessor_ok t a n b i p ip :
  active t = Some a → shaped3 n b a → i < n →
  node_index t !! p = Some ip → ip < n →
  add_predecessor i p t = (Ok tt, set_active (Some (add_row i a ip)) t).
Proof.
  intros Ha Hsa Hi Hp Hip. unfold add_predecessor.
  destruct (shaped3_row _ _ _ _ Hsa Hi) as (m & Hm & Hsm).
  destruct (shaped3_row _ _ _ _ Hsa Hip) as (m' & Hm' & Hsm').
  unfold bind at 1, gets. unfold bind at 1. rewrite Hp. simpl. unfold ret.
  rewrite (bind_ok _ _ _ _ _ (read_row_ok _ _ _ _ Ha Hm')).
  erewrite update_incoming_ok; [|done..].
  unfold add_row.
  rewrite (list_lookup_total_correct _ _ _ Hm).
  by rewrite (list_lookup_total_correct _ _ _ Hm').
Qed.

Lemma for_each_add_predecessor_ok n b i idx ps pis :
  i < n →
  Forall2 (λ p ip, idx !! p = Some ip ∧ ip < n) ps pis →
  ∀ t a, node_index t = idx → active t = Some a → shaped3 n b a →
  for_each ps (add_predecessor i) t
  = (Ok tt, set_active (Some (foldl (add_row i) a pis)) t).
Proof.
  intros Hi Hps.
  induction Hps as [|p ip ps pis [Hp Hip] _ IH]; intros t a Hidx Ha Hsa.
  - simpl. unfold ret. destruct t; simpl in *; by subst.
  - rewrite for_each_cons. subst idx.
    rewrite (bind_ok _ _ _ _ _
               (add_predecessor_ok _ _ _ _ _ _ _ Ha Hsa Hi Hp Hip)).
    rewrite (IH _ (add_row i a ip)); [done..|].
    by apply shaped3_add_row.
Qed.

Lemma promote_squeeze_vector d : promote (squeeze (vector d)) = vector d.
Proof.
  unfold promote, squeeze, vector, dim. simpl.
  destruct (decide (length d = 1)) as [H|H].
  - rewrite filter_cons_False by (intros ?; done). simpl.
    unfold unsqueeze0. simpl. by rewrite H.
  - rewrite filter_cons_True by done. done.
Qed.

Lemma allocate_noop t a b :
  active t = Some a → numel3 a ≠ 0 → allocate b t = (Ok tt, t).
Proof.
  intros Ha Hn. unfold allocate, bind, gets. rewrite Ha.
  by rewrite decide_False.
Qed.

Lemma set_sampling_row_ok t s n b i d :
  sampling t = Some s → shaped2 n b s → i < n → length d = b →
  set_sampling_row i d t = (Ok tt, set_sampling (Some (<[i := d]> s)) t).
Proof.
  intros Hs Hss Hi Hd. unfold set_sampling_row, bind, gets. rewrite Hs.
  destruct (shaped2_row _ _ _ _ Hss Hi) as (r & Hr & Hlr).
  rewrite Hr. simpl. unfold ret. rewrite expand_as_same by congruence.
  done.
Qed.

Lemma set_active_same t a : active t = Some a → set_active (Some a) t = t.
Proof. destruct t; simpl; by intros ->. Qed.

Lemma add_sampling_run t a s n b nd i ps pis x d :
  promote (squeeze x) = vector d →
  active t = Some a → sampling t = Some s → n_nodes t = n →
  shaped3 n b a → shaped2 n b s → b ≠ 0 → length d = b →
  node_index t !! nd = Some i → i < n →
  pred (graph t) !! nd = Some ps →
  Forall2 (λ p ip, node_index t !! p = Some ip ∧ ip < n) ps pis →
  add_sampling nd x t
  = (Ok tt, set_active (Some (propagate i pis d a))
              (set_sampling (Some (<[i := d]> s)) t)).
Proof.
  intros Hx Ha Hs Hn Hsa Hss Hb Hd Hi Hlt Hp Hps.
  unfold add_sampling. unfold bind at 1, gets. rewrite Ha.
  rewrite Hx. simpl.
  rewrite (bind_ok _ _ _ _ _ (allocate_noop _ _ _ Ha
             (numel3_shaped _ _ _ Hsa ltac:(lia) ltac:(lia)))).
  unfold record_row.
  unfold bind at 1. unfold bind at 1. simpl. rewrite Hi. simpl. 
  destruct (shaped3_row _ _ _ _ Hsa Hlt) as (inc & Hinc & Hsinc).
  rewrite (bind_ok _ _ _ _ _ (read_row_ok _ _ _ _ Ha Hinc)).
  rewrite (bind_ok _ _ _ _ _ (set_sampling_row_ok _ _ _ _ _ _ Hs Hss Hlt Hd)).
  unfold bind at 1. unfold bind at 1. simpl. rewrite Hp. simpl.
  set (u := set_sampling (Some (<[i := d]> s)) t).
  assert (Hau : active u = Some a) by done.
  set (a1 := if decide (length ps = 0) then seed i d a else a).
  assert (Hsa1 : shaped3 n b a1).
  { unfold a1. case_decide; [by apply shaped3_seed|done]. }
  assert (Hseed : (if decide (length ps = 0)
                   then update_incoming i (iadd_self i d) else ret ()) u
                  = (Ok tt, set_active (Some a1) u)).
  { unfold a1. case_decide.
    - erewrite update_incoming_ok; [|done|done|by eapply iadd_self_ok].
      unfold seed. by rewrite (list_lookup_total_correct _ _ _ Hinc).
    - unfold ret. by rewrite set_active_same. }
  rewrite (bind_ok _ _ _ _ _ Hseed).
  rewrite (bind_ok _ _ _ _ _
    (for_each_add_predecessor_ok n b i _ ps pis Hlt Hps
       (set_active (Some a1) u) a1 eq_refl eq_refl Hsa1)).
  set (a2 := foldl (add_row i) a1 pis).
  assert (Hpis : Forall (λ p, p < n) pis).
  { clear -Hps. induction Hps as [|???? [_ ?]]; by constructor. }
  assert (Hsa2 : shaped3 n b a2) by by apply shaped3_foldl_add_row.
  assert (Ha2 : a2 = gather i pis d a).
  { unfold a2, a1, gather. by rewrite (Forall2_length _ _ _ Hps). }
  change (set_active (Some a2) (set_active (Some a1) u))
    with (set_active (Some a2) u).
  destruct (shaped3_row _ _ _ _ Hsa2 Hlt) as (inc2 & Hinc2 & Hsinc2).
  rewrite (bind_ok _ _ _ _ _ (read_row_ok (set_active (Some a2) u) _ _ _
                                eq_refl Hinc2)).
  unfold bind at 1. simpl.
  change (size0 (vector d)) with (length d). rewrite Hn, Hd.
  rewrite (proj2 (has_size2_shaped n b inc2) Hsinc2). simpl.
  rewrite decide_False by done.
  erewrite (bind_ok _ _ (set_active (Some a2) u));
    [|eapply update_incoming_ok; [done|done|by eapply iadd_self_ok]].
  erewrite bind_ok;
    [|eapply update_incoming_ok;
      [done|by apply list_lookup_insert_eq; destruct Hsa2 as [-> _]|done]].
  erewrite bind_ok;
    [|eapply read_row_ok;
      [done|by apply list_lookup_insert_eq;
            rewrite length_insert; destruct Hsa2 as [-> _]]].
  erewrite write_row_ok; [|done].
  rewrite !list_insert_insert_eq. unfold propagate. rewrite <-Ha2.
  rewrite (list_lookup_total_correct _ _ _ Hinc2). unfold prune.
  by rewrite <-list_fmap_compose.
Qed.

(** The state after lines 65-67 when both tensors are still unsized. *)
Lemma allocate_fresh t a s b :
  active t = Some a → sampling t = Some s → numel3 a = 0 → numel2 s = 0 →
  allocate b t
  = (Ok tt, set_sampling (Some (zeros2 (n_nodes t) b))
              (set_active (Some (zeros3 (n_nodes t) (n_nodes t) b)) t)).
Proof.
  intros Ha Hs Hna Hns. unfold allocate, bind, gets, modify.
  rewrite Ha, decide_True by done. rewrite Hs. by rewrite decide_True.
Qed.

Lemma allocate_again t b :
  let t' := set_sampling (Some (zeros2 (n_nodes t) b))
              (set_active (Some (zeros3 (n_nodes t) (n_nodes t) b)) t) in
  allocate b t' = (Ok tt, t').
Proof.
  intros t'. unfold allocate, bind, gets, modify. simpl.
  case_decide; [|done]. subst t'. simpl. by case_decide.
Qed.

Lemma add_sampling_first t a s nd x d :
  promote (squeeze x) = vector d →
  active t = Some a → sampling t = Some s → numel3 a = 0 → numel2 s = 0 →
  add_sampling nd x t
  = add_sampling nd x
      (set_sampling (Some (zeros2 (n_nodes t) (length d)))
         (set_active (Some (zeros3 (n_nodes t) (n_nodes t) (length d))) t)).
Proof.
  intros Hx Ha Hs Hna Hns. unfold add_sampling.
  unfold bind at 1, gets. rewrite Ha, Hx. simpl.
  unfold bind at 2. simpl.
  change (size0 (vector d)) with (length d).
  rewrite (bind_ok _ _ _ _ _ (allocate_fresh _ _ _ (length d) Ha Hs Hna Hns)).
  by rewrite (bind_ok _ _ _ _ _ (allocate_again t (length d))).
Qed.

(** ** The closed form: frame, shape and mask *)

Lemma seed_lookup_ne i j d (a : cube) : i ≠ j → seed i d a !! j = a !! j.
Proof. intros H. unfold seed. by rewrite list_lookup_insert_ne. Qed.

Lemma foldl_add_row_lookup_ne i j ps : ∀ a : cube,
  i ≠ j → foldl (add_row i) a ps !! j = a !! j.
Proof.
  induction ps as [|p ps IH]; intros a H; simpl; [done|].
  rewrite IH by done. unfold add_row. by rewrite list_lookup_insert_ne.
Qed.

Lemma gather_lookup_ne i j ps d (a : cube) :
  i ≠ j → gather i ps d a !! j = a !! j.
Proof.
  intros H. unfold gather. rewrite foldl_add_row_lookup_ne by done.
  case_decide; [by apply seed_lookup_ne|done].
Qed.

Lemma propagate_lookup_ne i j ps d (a : cube) :
  i ≠ j → propagate i ps d a !! j = a !! j.
Proof.
  intros H. unfold propagate. rewrite list_lookup_insert_ne by done.
  by apply gather_lookup_ne.
Qed.

Lemma length_gather i ps d (a : cube) : length (gather i ps d a) = length a.
Proof.
  unfold gather. 
  assert (∀ a0 : cube, length (foldl (add_row i) a0 ps) = length a0) as ->.
  { induction ps as [|p ps IH]; intros a0; simpl; [done|].
    rewrite IH. unfold add_row. by rewrite length_insert. }
  case_decide; [|done]. unfold seed. by rewrite length_insert.
Qed.

Lemma propagate_lookup_eq i ps d (a : cube) :
  i < length a →
  propagate i ps d a !! i = Some (prune i d (gather i ps d a !!! i)).
Proof.
  intros H. unfold propagate. rewrite list_lookup_insert_eq; [done|].
  by rewrite length_gather.
Qed.

Lemma is01_ne0 x : is01 (ne0 x).
Proof. unfold is01, ne0. case_decide; auto. Qed.

Lemma mask2_prune i d inc : mask2 (prune i d inc).
Proof.
  unfold mask2, prune. apply Forall_fmap, Forall_forall. intros r _. simpl.
  apply Forall_fmap, Forall_forall. intros x _. apply is01_ne0.
Qed.

Lemma mask2_zeros n b : mask2 (zeros2 n b).
Proof. do 2 apply Forall_replicate. by left. Qed.

Lemma mask3_zeros n m b : mask3 (zeros3 n m b).
Proof. apply Forall_replicate, mask2_zeros. Qed.

Lemma mask3_propagate i ps d a : mask3 a → mask3 (propagate i ps d a).
Proof.
  intros Ha. apply Forall_lookup. intros j m Hm.
  destruct (decide (i = j)) as [<-|Hne].
  - unfold propagate in Hm.
    apply list_lookup_insert_Some in Hm as [(_ & <- & _)|[? _]]; [|done].
    apply mask2_prune.
  - rewrite propagate_lookup_ne in Hm by done.
    by eapply (proj1 (Forall_lookup _ _) Ha).
Qed.

(** ** Column-wise maximum *)

Lemma length_foldl_max b rs : ∀ r : vec,
  length r = b → Forall (λ r' : vec, length r' = b) rs →
  length (foldl (zip_with Qcmax) r rs) = b.
Proof.
  induction rs as [|r' rs IH]; intros r Hr Hrs; simpl; [done|].
  apply Forall_cons in Hrs as [Hr' Hrs].
  apply IH; [|done]. rewrite length_zip_with_l_eq; congruence.
Qed.

Lemma length_max0 n b m : shaped2 n b m → 0 < n → length (max0 m) = b.
Proof.
  intros [Hl Hf] Hn. destruct m as [|r rs]; simpl in *; [lia|].
  apply Forall_cons in Hf as [Hr Hrs]. by apply length_foldl_max.
Qed.

Lemma Qcmax_ub_l x y : (x ≤ Qcmax x y)%Qc.
Proof.
  unfold Qcmax. case_decide; [done|]. apply Qcle_refl.
Qed.

Lemma Qcmax_ub_r x y : (y ≤ Qcmax x y)%Qc.
Proof.
  unfold Qcmax. case_decide; [apply Qcle_refl|].
  apply Qclt_le_weak. by apply Qclt_nge.
Qed.

Lemma Qcmax_cases x y : Qcmax x y = x ∨ Qcmax x y = y.
Proof. unfold Qcmax. case_decide; auto. Qed.

Lemma foldl_max_lookup k rs : ∀ (r : vec) x,
  r !! k = Some x → Forall (λ r' : vec, is_Some (r' !! k)) rs →
  ∃ h, foldl (zip_with Qcmax) r rs !! k = Some h
       ∧ (x ≤ h)%Qc
       ∧ (∀ j r' y, rs !! j = Some r' → r' !! k = Some y → (y ≤ h)%Qc)
       ∧ (h = x ∨ ∃ j r', rs !! j = Some r' ∧ r' !! k = Some h).
Proof.
  induction rs as [|r1 rs IH]; intros r x Hx Hrs; simpl.
  - exists x. repeat split; [done|apply Qcle_refl| |by left].
    intros j r' y Hj. by rewrite lookup_nil in Hj.
  - apply Forall_cons in Hrs as [[y1 Hy1] Hrs].
    destruct (IH (zip_with Qcmax r r1) (Qcmax x y1)) as (h & Hh & Hle & Hub & Hat);
      [|done|].
    { rewrite lookup_zip_with, Hx. simpl. by rewrite Hy1. }
    exists h. split; [done|]. split; [|split].
    + eapply Qcle_trans; [apply Qcmax_ub_l|done].
    + intros [|j] r' y Hj Hy; simpl in Hj.
      * injection Hj as <-. rewrite Hy1 in Hy. injection Hy as <-.
        eapply Qcle_trans; [apply Qcmax_ub_r|done].
      * by eapply Hub.
    + destruct Hat as [->|(j & r' & Hj & Hr')].
      * destruct (Qcmax_cases x y1) as [->| ->]; [by left|].
        right. by exists 0, r1.
      * right. by exists (S j), r'.
Qed.

(** [max0 m !! k] bounds every entry of column [k] and is one of them. *)
Lemma max0_lookup n b m k :
  shaped2 n b m → 0 < n → k < b →
  ∃ h, max0 m !! k = Some h
       ∧ (∀ j r y, m !! j = Some r → r !! k = Some y → (y ≤ h)%Qc)
       ∧ (∃ j r, m !! j = Some r ∧ r !! k = Some h).
Proof.
  intros [Hl Hf] Hn Hk. destruct m as [|r rs]; simpl in *; [lia|].
  apply Forall_cons in Hf as [Hr Hrs].
  destruct (lookup_lt_is_Some_2 r k) as [x Hx]; [lia|].
  destruct (foldl_max_lookup k rs r x Hx) as (h & Hh & Hle & Hub & Hat).
  { eapply Forall_impl; [exact Hrs|]. simpl. intros r' Hr'.
    apply lookup_lt_is_Some_2. lia. }
  exists h. split; [done|]. split.
  - intros [|j] r' y Hj Hy; simpl in Hj.
    + injection Hj as <-. rewrite Hx in Hy. by injection Hy as <-.
    + by eapply Hub.
  - destruct Hat as [->|(j & r' & Hj & Hr')].
    + by exists 0, r.
    + by exists (S j), r'.
Qed.

Lemma shaped2_prune n b i d inc :
  shaped2 n b inc → i < n → length d = b → shaped2 n b (prune i d inc).
Proof.
  intros Hinc Hi Hd. unfold prune.
  assert (Hho : length (zip_with (λ h s, ne0 (h * s)%Qc) (max0 inc) d) = b).
  { rewrite length_zip_with_l_eq; rewrite (length_max0 n b) by (done || lia);
      congruence. }
  destruct (shaped2_row _ _ _ _ Hinc Hi) as (r & Hr & Hlr).
  assert (H1 : shaped2 n b (<[i := vadd (inc !!! i) d]> inc)).
  { apply shaped2_insert; [done|].
    rewrite (list_lookup_total_correct _ _ _ Hr).
    rewrite length_vadd; congruence. }
  destruct H1 as [Hl Hf]. split; [by rewrite length_fmap|].
  apply Forall_fmap. eapply Forall_impl; [exact Hf|]. simpl.
  intros r' Hr'. rewrite length_fmap. unfold vmul.
  rewrite length_zip_with_l_eq; congruence.
Qed.

Lemma shaped3_propagate n b i ps d a :
  shaped3 n b a → length d = b → i < n → Forall (λ p, p < n) ps →
  shaped3 n b (propagate i ps d a).
Proof.
  intros Ha Hd Hi Hps. unfold propagate.
  pose proof (shaped3_gather n b i ps d a Ha Hd Hi Hps) as Hg.
  apply shaped3_insert; [done|].
  destruct (shaped3_row _ _ _ _ Hg Hi) as (m & Hm & Hsm).
  rewrite (list_lookup_total_correct _ _ _ Hm). by apply shaped2_prune.
Qed.

(** One entry of the pruned row, in terms of the gathered row [inc]:
    [v] is the entry after line 85, [h] the column maximum before it. *)
Lemma prune_entry i d inc j k r v h y :
  <[i := vadd (inc !!! i) d]> inc !! j = Some r → r !! k = Some v →
  max0 inc !! k = Some h → d !! k = Some y →
  ∃ r', prune i d inc !! j = Some r'
        ∧ r' !! k = Some (ne0 (v * ne0 (h * y))%Qc).
Proof.
  intros Hr Hv Hh Hy. unfold prune. rewrite list_lookup_fmap, Hr. simpl.
  eexists. split; [done|].
  rewrite list_lookup_fmap. unfold vmul.
  rewrite !lookup_zip_with, Hv, Hh. simpl. by rewrite Hy.
Qed.

(** ** Scalars *)

Lemma ne0_0 : ne0 0%Qc = 0%Qc.
Proof. unfold ne0. by rewrite decide_True. Qed.

Lemma ne0_nonzero x : x ≠ 0%Qc → ne0 x = 1%Qc.
Proof. intros H. unfold ne0. by rewrite decide_False. Qed.

Lemma ne0_pos x : (0 < x)%Qc → ne0 x = 1%Qc.
Proof.
  intros H. apply ne0_nonzero. intros ->. by apply (Qclt_not_eq _ _ H).
Qed.

Lemma Qcle_0_cases y : (0 ≤ y)%Qc → y = 0%Qc ∨ (0 < y)%Qc.
Proof.
  intros H. destruct (decide (y = 0%Qc)) as [->|Hne]; [by left|right].
  apply Qcle_lt_or_eq in H as [H|H]; [done|]. by subst.
Qed.

(** The entry a source node writes on its own diagonal: [x] is the entry
    found there, [y] the decision, [h] the column maximum after seeding. *)
Lemma source_entry x y h :
  (0 ≤ x)%Qc → (0 ≤ y)%Qc → (x + y ≤ h)%Qc →
  ne0 ((x + y + y) * ne0 (h * y))%Qc = ne0 y.
Proof.
  intros Hx Hy Hh. destruct (Qcle_0_cases y Hy) as [->|Hpos].
  - by rewrite Qcmult_0_r, ne0_0, Qcmult_0_r.
  - assert (0 < x + y)%Qc by by apply Qcplus_nonneg_pos.
    assert (0 < h)%Qc by by eapply Qclt_le_trans.
    rewrite (ne0_pos (h * y)) by by apply Qcmult_pos_pos.
    rewrite Qcmult_1_r, (ne0_pos y) by done.
    apply ne0_pos. by apply Qcplus_pos_pos.
Qed.

(** ** A source node: lines 75-90 without predecessors *)

Lemma propagate_source n b a i d k x y :
  shaped3 n b a → i < n → length d = b →
  entry a i i k = Some x → d !! k = Some y →
  (0 ≤ x)%Qc → (0 ≤ y)%Qc →
  entry (propagate i [] d a) i i k = Some (ne0 y).
Proof.
  intros Ha Hi Hd Hx Hy Hx0 Hy0. unfold entry in Hx.
  destruct (a !! i) as [inc|] eqn:Hinc; [|done].
  destruct (inc !! i) as [r|] eqn:Hr; [|done].
  pose proof (shaped3_lookup _ _ _ _ _ Ha Hinc) as Hsinc.
  pose proof (shaped2_lookup _ _ _ _ _ Hsinc Hr) as Hlr.
  assert (Hia : i < length a) by (destruct Ha as [-> _]; done).
  assert (Hii : i < length inc) by (destruct Hsinc as [-> _]; done).
  unfold entry. rewrite propagate_lookup_eq by done.
  assert (Hg : gather i [] d a !!! i = <[i := vadd r d]> inc).
  { unfold gather, seed. simpl.
    rewrite (list_lookup_total_correct _ _ _ Hinc).
    rewrite (list_lookup_total_correct _ _ _ Hr).
    apply list_lookup_total_correct. by apply list_lookup_insert_eq. }
  rewrite Hg. set (inc1 := <[i := vadd r d]> inc).
  assert (Hinc1 : inc1 !! i = Some (vadd r d)) by by apply list_lookup_insert_eq.
  assert (Hs1 : shaped2 n b inc1).
  { apply shaped2_insert; [done|]. rewrite length_vadd; congruence. }
  assert (Hk : k < b).
  { rewrite <-Hd. by eapply lookup_lt_Some. }
  destruct (max0_lookup n b inc1 k Hs1 ltac:(lia) Hk) as (h & Hh & Hub & _).
  assert (Hxy : vadd r d !! k = Some (x + y)%Qc).
  { unfold vadd. rewrite lookup_zip_with, Hx. simpl. by rewrite Hy. }
  destruct (prune_entry i d inc1 i k (vadd (vadd r d) d) (x + y + y)%Qc h y)
    as (r' & Hr' & Hv'); [| |done|done|].
  { rewrite (list_lookup_total_correct _ _ _ Hinc1).
    apply list_lookup_insert_eq. unfold inc1. by rewrite length_insert. }
  { unfold vadd at 1. rewrite lookup_zip_with, Hxy. simpl. by rewrite Hy. }
  rewrite Hr', Hv'. f_equal. apply source_entry; [done..|].
  by eapply Hub.
Qed.

(** ** A node without live input: lines 77-90 on zero columns *)

Lemma zero_at_madd k m1 m2 : zero_at k m1 → zero_at k m2 → zero_at k (madd m1 m2).
Proof.
  intros H1 H2 j r Hr. unfold madd in Hr.
  apply lookup_zip_with_Some in Hr as (r1 & r2 & -> & Hr1 & Hr2).
  unfold vadd. rewrite lookup_zip_with, (H1 _ _ Hr1). simpl.
  rewrite (H2 _ _ Hr2). simpl. by rewrite Qcplus_0_l.
Qed.

Lemma row_zero_at_add_row k i p q (a : cube) :
  row_zero_at k a i → row_zero_at k a p → row_zero_at k a q →
  row_zero_at k (add_row i a p) q.
Proof.
  intros Hi Hp Hq m Hm. unfold add_row in Hm.
  apply list_lookup_insert_Some in Hm as [(<- & <- & Hlt)|[_ Hm]];
    [|by apply Hq].
  destruct (lookup_lt_is_Some_2 a i Hlt) as [mi Hmi].
  rewrite (list_lookup_total_correct _ _ _ Hmi).
  apply zero_at_madd; [by apply Hi|].
  destruct (a !! p) as [mp|] eqn:Hmp.
  - rewrite (list_lookup_total_correct _ _ _ Hmp). by apply Hp.
  - rewrite list_lookup_total_alt, Hmp. simpl. intros j r Hj.
    by rewrite lookup_nil in Hj.
Qed.

Lemma row_zero_at_foldl k i ps : ∀ a : cube,
  row_zero_at k a i → Forall (row_zero_at k a) ps →
  row_zero_at k (foldl (add_row i) a ps) i.
Proof.
  induction ps as [|p ps IH]; intros a Hi Hps; simpl; [done|].
  apply Forall_cons in Hps as [Hp Hps]. apply IH.
  - by apply row_zero_at_add_row.
  - eapply Forall_impl; [exact Hps|]. simpl. intros q Hq.
    by apply row_zero_at_add_row.
Qed.

Lemma zero_at_prune n b i d inc k :
  shaped2 n b inc → i < n → length d = b → k < b →
  zero_at k inc → zero_at k (prune i d inc).
Proof.
  intros Hinc Hi Hd Hk Hz j r' Hr'.
  destruct (max0_lookup n b inc k Hinc ltac:(lia) Hk)
    as (h & Hh & _ & (j0 & r0 & Hj0 & Hr0)).
  rewrite (Hz _ _ Hj0) in Hr0. injection Hr0 as <-.
  destruct (lookup_lt_is_Some_2 d k) as [y Hy]; [lia|].
  assert (Hj : j < n).
  { apply lookup_lt_Some in Hr'.
    destruct (shaped2_prune n b i d inc Hinc Hi Hd) as [<- _]. done. }
  destruct (shaped2_row _ _ _ _ Hinc Hi) as (ri & Hri & Hlri).
  assert (H1 : shaped2 n b (<[i := vadd (inc !!! i) d]> inc)).
  { apply shaped2_insert; [done|].
    rewrite (list_lookup_total_correct _ _ _ Hri).
    rewrite length_vadd; congruence. }
  destruct (shaped2_row _ _ _ _ H1 Hj) as (r & Hr & Hlr).
  destruct (lookup_lt_is_Some_2 r k) as [v Hv]; [lia|].
  destruct (prune_entry i d inc j k r v 0%Qc y Hr Hv Hh Hy) as (r'' & Hr'' & Hv'').
  rewrite Hr' in Hr''. injection Hr'' as <-. rewrite Hv''.
  by rewrite Qcmult_0_l, ne0_0, Qcmult_0_r, ne0_0.
Qed.

Lemma propagate_dead n b a i ps d k :
  shaped3 n b a → i < n → length d = b → k < b →
  ps ≠ [] → Forall (λ p, p < n) ps →
  row_zero_at k a i → Forall (row_zero_at k a) ps →
  row_zero_at k (propagate i ps d a) i.
Proof.
  intros Ha Hi Hd Hk Hne Hps Hzi Hzp m Hm.
  assert (Hia : i < length a) by (destruct Ha as [-> _]; done).
  rewrite propagate_lookup_eq in Hm by done. injection Hm as <-.
  pose proof (shaped3_gather n b i ps d a Ha Hd Hi Hps) as Hg.
  destruct (shaped3_row _ _ _ _ Hg Hi) as (inc & Hinc & Hsinc).
  rewrite (list_lookup_total_correct _ _ _ Hinc).
  eapply zero_at_prune; [done..|].
  assert (Hz : row_zero_at k (gather i ps d a) i).
  { unfold gather. rewrite decide_False by by destruct ps.
    by apply row_zero_at_foldl. }
  by apply Hz.
Qed.

(** ** A decision recorded on ready tensors *)

Lemma ready_shaped t b a s :
  ready t b a s → shaped3 (n_nodes t) b a ∧ shaped2 (n_nodes t) b s.
Proof.
  intros (a0 & s0 & _ & _ & [(_ & _ & -> & ->)|(_ & _ & ? & ?)]); [|done].
  split; [apply shaped3_zeros|apply shaped2_zeros].
Qed.

Lemma add_sampling_ready t b a s nd i ps pis x d :
  promote (squeeze x) = vector d →
  ready t b a s → b ≠ 0 → length d = b →
  node_index t !! nd = Some i → i < n_nodes t →
  pred (graph t) !! nd = Some ps →
  Forall2 (λ p ip, node_index t !! p = Some ip ∧ ip < n_nodes t) ps pis →
  add_sampling nd x t
  = (Ok tt, set_active (Some (propagate i pis d a))
              (set_sampling (Some (<[i := d]> s)) t)).
Proof.
  intros Hx (a0 & s0 & Ha & Hs & Hcase) Hb Hd Hi Hlt Hp Hps.
  destruct Hcase as [(Hna & Hns & -> & ->)|(-> & -> & Hsa & Hss)].
  - rewrite (add_sampling_first _ _ _ _ _ _ Hx Ha Hs Hna Hns), Hd.
    by rewrite (add_sampling_run
                  (set_sampling (Some (zeros2 (n_nodes t) b))
                     (set_active (Some (zeros3 (n_nodes t) (n_nodes t) b)) t))
                  _ _ (n_nodes t) b nd i ps pis x d Hx
                  eq_refl eq_refl eq_refl (shaped3_zeros _ _)
                  (shaped2_zeros _ _) Hb Hd Hi Hlt Hp Hps).
  - by rewrite (add_sampling_run _ _ _ (n_nodes t) b nd i ps pis x d Hx
                  Ha Hs eq_refl Hsa Hss Hb Hd Hi Hlt Hp Hps).
Qed.

Lemma get_pruned_architecture_ok t a nd i m :
  active t = Some a → node_index t !! nd = Some i → a !! i = Some m →
  get_pruned_architecture nd t = (Ok m, t).
Proof.
  intros Ha Hi Hm. unfold get_pruned_architecture, bind at 1, gets.
  unfold bind at 1. rewrite Hi. simpl. by eapply read_row_ok.
Qed.

Lemma is01_nonneg x : is01 x → (0 ≤ x)%Qc.
Proof. intros [->| ->]; done. Qed.

(** ** C2: a source node activates itself *)

(** C2 (amended): for a node without predecessors, on tensors that hold a
    0/1 mask, [add_sampling] returns normally and leaves on the node's own
    diagonal of [get_pruned_architecture] the boolean cast of the decision,
    at every batch element whose decision is zero or at least
    [least_decision].  A negative decision is excluded because the column
    maximum of line 82 is then zero; a positive decision below the bound
    because the single-precision product of line 83 may then round to
    zero.  From the bound on, the maximum of line 82 is at least the
    decision, so that the product is at least 2^-126 and stays a normal
    number, and the sums of lines 75 and 85 are at least the decision. *)
Theorem source_self_activation t b a s nd i d k y :
  ready t b a s → mask3 a → length d = b →
  node_index t !! nd = Some i → i < n_nodes t →
  pred (graph t) !! nd = Some [] →
  d !! k = Some y → y = 0%Qc ∨ (least_decision ≤ y)%Qc →
  ∃ t' row r,
    add_sampling nd (vector d) t = (Ok tt, t')
    ∧ get_pruned_architecture nd t' = (Ok row, t')
    ∧ row !! i = Some r
    ∧ r !! k = Some (ne0 y).
Proof.
  intros Hr Hm Hd Hi Hlt Hp Hy Hbound.
  assert (Hy0 : (0 ≤ y)%Qc).
  { destruct Hbound as [->|Hle]; [done|].
    eapply Qcle_trans; [|exact Hle]. by vm_compute. }
  destruct (ready_shaped _ _ _ _ Hr) as [Hsa Hss].
  assert (Hk : k < b) by (rewrite <-Hd; by eapply lookup_lt_Some).
  destruct (shaped3_row _ _ _ _ Hsa Hlt) as (inc & Hinc & Hsinc).
  destruct (shaped2_row _ _ _ _ Hsinc Hlt) as (r0 & Hr0 & Hlr0).
  destruct (lookup_lt_is_Some_2 r0 k) as [x Hx]; [lia|].
  assert (Hx0 : (0 ≤ x)%Qc).
  { apply is01_nonneg.
    pose proof (proj1 (Forall_lookup _ _) Hm _ _ Hinc) as Hminc.
    pose proof (proj1 (Forall_lookup _ _) Hminc _ _ Hr0) as Hmr0.
    by apply (proj1 (Forall_lookup _ _) Hmr0 _ _ Hx). }
  assert (He : entry a i i k = Some x).
  { unfold entry. by rewrite Hinc, Hr0. }
  pose proof (propagate_source _ _ _ _ _ _ _ _ Hsa Hlt Hd He Hy Hx0 Hy0) as Hfin.
  unfold entry in Hfin.
  destruct (propagate i [] d a !! i) as [row|] eqn:Hrow; [|done].
  destruct (row !! i) as [r|] eqn:Hri; [|done].
  eexists _, row, r. split; [|split; [|done]].
  - apply (add_sampling_ready t b a s nd i [] [] (vector d) d);
      [apply promote_squeeze_vector|done|lia|done|done|done|done|constructor].
  - by eapply get_pruned_architecture_ok.
Qed.

Lemma source_self_activation_witness :
  ∃ t' row r,
    add_sampling "A" (vector [1%Qc]) (run [call_new_iteration] (init edge None))
    = (Ok tt, t')
    ∧ get_pruned_architecture "A" t' = (Ok row, t')
    ∧ row !! 0 = Some r
    ∧ r !! 0 = Some (ne0 1%Qc).
Proof.
  apply (source_self_activation _ 1 (zeros3 2 2 1) (zeros2 2 1) "A" 0 [1%Qc] 0).
  - exists [], []. repeat split. left. repeat split.
  - apply mask3_zeros.
  - reflexivity.
  - vm_compute. reflexivity.
  - vm_compute. lia.
  - vm_compute. reflexivity.
  - reflexivity.
  - right. vm_compute. discriminate.
Defined.

(** The claim as stated fails on a negative decision: the column maximum
    of line 82 is then [0], and the whole row is pruned. *)
Lemma source_negative_decision :
  ∃ t' row,
    add_sampling "A" (vector [(-1)%Qc]) (run [call_new_iteration] (init edge None))
    = (Ok tt, t')
    ∧ get_pruned_architecture "A" t' = (Ok row, t')
    ∧ row !! 0 = Some [0%Qc]
    ∧ ne0 <$> [(-1)%Qc] = [1%Qc].
Proof.
  eexists _, _. split; [vm_compute; reflexivity|].
  split; [vm_compute; reflexivity|]. split; reflexivity.
Qed.

(** ** C3: no activation without live input *)

(** C3 (amended): when every predecessor's active row and the node's own
    active row are zero at batch element [k] at the time of the call, the
    node's whole active row is zero at [k] after it, whatever the decision.
    In the chain [A -> B -> C] with decisions [0], [1], [1] recorded in
    that order, the rows of [B] and [C] are zero. *)
Theorem dead_inputs_prune :
  (∀ t b a s nd i ps pis d k,
     ready t b a s → length d = b → k < b →
     node_index t !! nd = Some i → i < n_nodes t →
     pred (graph t) !! nd = Some ps → ps ≠ [] →
     Forall2 (λ p ip, node_index t !! p = Some ip ∧ ip < n_nodes t) ps pis →
     Forall (row_zero_at k a) pis →
     row_zero_at k a i →
     ∃ t' row,
       add_sampling nd (vector d) t = (Ok tt, t')
       ∧ get_pruned_architecture nd t' = (Ok row, t')
       ∧ shaped2 (n_nodes t) b row
       ∧ zero_at k row)
  ∧ (∃ t,
       run_ok [call_new_iteration;
               call_add_sampling "A" (vector [0%Qc]);
               call_add_sampling "B" (vector [1%Qc]);
               call_add_sampling "C" (vector [1%Qc])] (init chain None)
       = Some t
       ∧ get_pruned_architecture "B" t = (Ok (zeros2 3 1), t)
       ∧ get_pruned_architecture "C" t = (Ok (zeros2 3 1), t)).
Proof.
  split.
  - intros t b a s nd i ps pis d k Hr Hd Hk Hi Hlt Hp Hne Hps Hzp Hzi.
    destruct (ready_shaped _ _ _ _ Hr) as [Hsa Hss].
    assert (Hpis : Forall (λ p, p < n_nodes t) pis).
    { clear -Hps. induction Hps as [|???? [_ ?]]; by constructor. }
    assert (Hne' : pis ≠ []).
    { intros ->. apply Forall2_length in Hps. by destruct ps. }
    pose proof (shaped3_propagate _ _ i pis d a Hsa Hd Hlt Hpis) as Hsp.
    destruct (shaped3_row _ _ _ _ Hsp Hlt) as (row & Hrow & Hsrow).
    eexists _, row. split; [|split; [|split; [done|]]].
    + apply (add_sampling_ready t b a s nd i ps pis (vector d) d);
        [apply promote_squeeze_vector|done|lia|done..].
    + by eapply get_pruned_architecture_ok.
    + by eapply (propagate_dead _ _ a i pis d k).
  - eexists. split; [vm_compute; reflexivity|].
    split; vm_compute; reflexivity.
Qed.

Lemma dead_inputs_prune_witness :
  ∃ t' row,
    add_sampling "B" (vector [1%Qc])
      (run [call_new_iteration; call_add_sampling "A" (vector [0%Qc])]
         (init edge None))
    = (Ok tt, t')
    ∧ get_pruned_architecture "B" t' = (Ok row, t')
    ∧ shaped2 2 1 row
    ∧ zero_at 0 row.
Proof.
  apply (proj1 dead_inputs_prune
           (run [call_new_iteration; call_add_sampling "A" (vector [0%Qc])]
              (init edge None))
           1 (zeros3 2 2 1) (<[0 := [0%Qc]]> (zeros2 2 1))
           "B" 1 ["A"] [0] [1%Qc] 0).
  - eexists _, _. split; [vm_compute; reflexivity|].
    split; [vm_compute; reflexivity|]. right.
    split; [reflexivity|]. split; [reflexivity|].
    split; [apply shaped3_zeros|].
    apply shaped2_insert; [apply shaped2_zeros|reflexivity].
  - reflexivity.
  - lia.
  - vm_compute. reflexivity.
  - vm_compute. lia.
  - vm_compute. reflexivity.
  - discriminate.
  - repeat constructor.
  - repeat constructor. intros m Hm j r Hr.
    apply (lookup_replicate_1 _ _ _ _) in Hm as [-> _].
    by apply (lookup_replicate_1 _ _ _ _) in Hr as [-> _].
  - intros m Hm j r Hr.
    apply (lookup_replicate_1 _ _ _ _) in Hm as [-> _].
    by apply (lookup_replicate_1 _ _ _ _) in Hr as [-> _].
Defined.

(** The claim as stated fails when the node was recorded before in the
    same iteration: its row still carries the earlier support. *)
Lemma rerecorded_node_keeps_support :
  let t := run [call_new_iteration;
                call_add_sampling "A" (vector [1%Qc]);
                call_add_sampling "B" (vector [1%Qc]);
                call_add_sampling "A" (vector [0%Qc])] (init edge None) in
  get_pruned_architecture "A" t = (Ok (zeros2 2 1), t)
  ∧ ∃ t', add_sampling "B" (vector [1%Qc]) t = (Ok tt, t')
          ∧ get_pruned_architecture "B" t' = (Ok [[1%Qc]; [1%Qc]], t').
Proof.
  split; [vm_compute; reflexivity|].
  eexists. split; vm_compute; reflexivity.
Qed.

(** ** C1: the running mean *)

Lemma Qc_of_nat_S k : Qc_of_nat (S k) = (Qc_of_nat k + 1)%Qc.
Proof.
  unfold Qc_of_nat. by rewrite Nat2Z.inj_succ, <-Z.add_1_r, Z2Qc_inj_add, Z2Qc_inj_1.
Qed.

Lemma Qc_of_nat_nonzero k : k ≠ 0 → Qc_of_nat k ≠ 0%Qc.
Proof.
  intros Hk H. unfold Qc_of_nat in H. rewrite <-Z2Qc_inj_0 in H.
  apply Z2Qc_inj in H. lia.
Qed.

Lemma incremental_mean (S m : Qc) k :
  k ≠ 0 →
  (S / Qc_of_nat k + 1 / Qc_of_nat (Datatypes.S k) * (m - S / Qc_of_nat k))%Qc
  = ((S + m) / Qc_of_nat (Datatypes.S k))%Qc.
Proof.
  intros Hk. pose proof (Qc_of_nat_nonzero k Hk) as H1.
  pose proof (Qc_of_nat_nonzero (Datatypes.S k) ltac:(lia)) as H2.
  rewrite Qc_of_nat_S in *. field. split; done.
Qed.

Lemma update_global_sampling_first t u :
  global_sampling t = None →
  update_global_sampling u t
  = (Ok tt, set_global_sampling (Some (mean1 u))
              (set_n_samplings (S (n_samplings t)) t)).
Proof.
  intros Hg. unfold update_global_sampling, bind, modify, gets. simpl.
  by rewrite Hg.
Qed.

Lemma update_global_sampling_next t g u :
  global_sampling t = Some g → length u = length g →
  update_global_sampling u t
  = (Ok tt, set_global_sampling (Some (fold_mean g (S (n_samplings t)) (mean1 u)))
              (set_n_samplings (S (n_samplings t)) t)).
Proof.
  intros Hg Hl. unfold update_global_sampling, bind, modify, gets. simpl.
  rewrite Hg. unfold broadcast2, mean1.
  rewrite decide_True by by rewrite length_fmap.
  simpl. rewrite decide_True; [done|].
  rewrite length_fmap, length_zip_with_l_eq; rewrite length_fmap; done.
Qed.

Lemma Qcsum_snoc l x : Qcsum (l ++ [x]) = (Qcsum l + x)%Qc.
Proof.
  unfold Qcsum. induction l as [|y l IH]; simpl.
  - by rewrite Qcplus_0_l, Qcplus_0_r.
  - by rewrite IH, Qcplus_assoc.
Qed.

Lemma column_snoc j (ms : list (list Qc)) (m : list Qc) x :
  m !! j = Some x → column j (ms ++ [m]) = column j ms ++ [x].
Proof.
  intros Hx. unfold column. rewrite omap_app. simpl. by rewrite Hx.
Qed.

Lemma is_mean_of_single n (m : list Qc) : length m = n → is_mean_of [m] n m.
Proof.
  intros Hl. split; [done|]. intros j Hj.
  destruct (lookup_lt_is_Some_2 m j) as [x Hx]; [lia|].
  rewrite Hx. f_equal. unfold column. simpl. rewrite Hx. simpl.
  unfold Qcsum. simpl. rewrite Qcplus_0_r.
  change (Qc_of_nat 1) with (Qc_of_Z 1). rewrite Z2Qc_inj_1.
  by rewrite Qcdiv_right_id.
Qed.

Lemma is_mean_of_snoc n ms g (m : list Qc) :
  ms ≠ [] → is_mean_of ms n g → length m = n →
  is_mean_of (ms ++ [m]) n (fold_mean g (S (length ms)) m).
Proof.
  intros Hne [Hlg Hg] Hlm. split.
  - unfold fold_mean. rewrite length_vadd; [done|].
    rewrite length_fmap, length_zip_with_l_eq; congruence.
  - intros j Hj. destruct (lookup_lt_is_Some_2 m j) as [x Hx]; [lia|].
    unfold fold_mean, vadd.
    rewrite lookup_zip_with, (Hg j Hj). simpl.
    rewrite list_lookup_fmap, lookup_zip_with, Hx. simpl.
    rewrite (Hg j Hj). simpl. f_equal.
    rewrite (column_snoc _ _ _ _ Hx), Qcsum_snoc, length_app. simpl.
    rewrite Nat.add_1_r. apply incremental_mean. by destruct ms.
Qed.

Lemma running_mean_from n us : ∀ t ms g,
  ms ≠ [] → n_samplings t = length ms →
  global_sampling t = Some g → is_mean_of ms n g →
  Forall (λ u : list (list Qc), length u = n) us →
  ∃ t' g',
    for_each us update_global_sampling t = (Ok tt, t')
    ∧ n_samplings t' = length (ms ++ (mean1 <$> us))
    ∧ global_sampling t' = Some g'
    ∧ is_mean_of (ms ++ (mean1 <$> us)) n g'.
Proof.
  induction us as [|u us IH]; intros t ms g Hne Hk Hg Hm Hus.
  - exists t, g. simpl. by rewrite app_nil_r.
  - apply Forall_cons in Hus as [Hu Hus].
    rewrite for_each_cons.
    rewrite (bind_ok _ _ _ _ _ (update_global_sampling_next t g u Hg
               ltac:(destruct Hm; congruence))).
    destruct (IH (set_global_sampling
                    (Some (fold_mean g (S (n_samplings t)) (mean1 u)))
                    (set_n_samplings (S (n_samplings t)) t))
                 (ms ++ [mean1 u])
                 (fold_mean g (S (n_samplings t)) (mean1 u)))
      as (t' & g' & Hrun & Hk' & Hg' & Hm'); [| | |..].
    + by destruct ms.
    + simpl. rewrite length_app. simpl. lia.
    + done.
    + rewrite Hk. apply is_mean_of_snoc; [done..|].
      unfold mean1. by rewrite length_fmap.
    + done.
    + exists t', g'. rewrite <-app_assoc in Hk', Hm'. done.
Qed.

(** C1: starting with no estimate and a zero counter, after [t >= 1]
    updates with usage tensors [us] the counter is [t] and the estimate is,
    for every node, the arithmetic mean of the per-update batch means. *)
Theorem running_mean t0 us n :
  global_sampling t0 = None → n_samplings t0 = 0 → us ≠ [] →
  Forall (λ u : list (list Qc), length u = n) us →
  ∃ t' g,
    for_each us update_global_sampling t0 = (Ok tt, t')
    ∧ n_samplings t' = length us
    ∧ global_sampling t' = Some g
    ∧ length g = n
    ∧ ∀ j, j < n →
        g !! j = Some (Qcsum (column j (mean1 <$> us)) / Qc_of_nat (length us))%Qc.
Proof.
  intros Hg Hk Hne Hus. destruct us as [|u us]; [done|].
  apply Forall_cons in Hus as [Hu Hus].
  rewrite for_each_cons.
  rewrite (bind_ok _ _ _ _ _ (update_global_sampling_first t0 u Hg)).
  destruct (running_mean_from n us
              (set_global_sampling (Some (mean1 u))
                 (set_n_samplings (S (n_samplings t0)) t0))
              [mean1 u] (mean1 u))
    as (t' & g & Hrun & Hk' & Hg' & Hl & Hm); [done|simpl; lia|done| |done|].
  { apply is_mean_of_single. unfold mean1. by rewrite length_fmap. }
  exists t', g. split; [done|]. split.
  { rewrite Hk'. simpl. by rewrite length_fmap. }
  split; [done|]. split; [done|]. intros j Hj.
  rewrite (Hm j Hj). simpl. by rewrite length_fmap.
Qed.

Lemma running_mean_witness :
  ∃ t' g,
    for_each [[[1%Qc; 0%Qc]]; [[1%Qc; 1%Qc]]] update_global_sampling
      (init edge None) = (Ok tt, t')
    ∧ n_samplings t' = 2
    ∧ global_sampling t' = Some g
    ∧ length g = 1
    ∧ ∀ j, j < 1 →
        g !! j = Some (Qcsum (column j (mean1 <$> [[[1%Qc; 0%Qc]]; [[1%Qc; 1%Qc]]]))
                       / Qc_of_nat 2)%Qc.
Proof.
  apply (running_mean (init edge None) [[[1%Qc; 0%Qc]]; [[1%Qc; 1%Qc]]] 1).
  - reflexivity.
  - reflexivity.
  - discriminate.
  - repeat constructor.
Defined.

(** ** Inverting a run *)

Lemma bind_inv {A B} (m : M A) (k : A → M B) t r t' :
  bind m k t = (r, t') →
  (∃ x t1, m t = (Ok x, t1) ∧ k x t1 = (r, t'))
  ∨ (∃ e, m t = (Raise e, t') ∧ r = Raise e).
Proof.
  unfold bind. destruct (m t) as [[x|e] t1]; intros H.
  - left. by exists x, t1.
  - right. exists e. by simplify_eq.
Qed.

(** [minv H] splits a run [H : m t = (r, t')] along the binds of [m], down
    to the reads, writes and raises it is made of; computations it does not
    know are left as hypotheses. *)
Ltac minv H :=
  cbv beta zeta in H;
  lazymatch type of H with
  | bind _ _ _ = _ =>
      let H1 := fresh "Hs" in
      apply bind_inv in H as [(? & ? & H1 & H)|(? & H1 & ?)];
      [minv H1; minv H | simplify_eq; minv H1]
  | gets _ _ = _ => unfold gets in H; simplify_eq
  | ret _ _ = _ => unfold ret in H; simplify_eq
  | raise _ _ = _ => unfold raise in H; simplify_eq
  | modify _ _ = _ => unfold modify in H; simplify_eq
  | orelse ?o _ _ = _ =>
      let E := fresh "Ho" in destruct o eqn:E; simpl in H; minv H
  | lift ?r _ = _ =>
      let E := fresh "Hl" in destruct r eqn:E; simpl in H; minv H
  | (match ?x with _ => _ end) _ = _ =>
      let E := fresh "Hm" in destruct x eqn:E; minv H
  | _ => idtac
  end.

Lemma agree_off_refl {A} i (o : option (list A)) : agree_off i o o.
Proof. by destruct o. Qed.

Lemma agree_off_trans {A} i (o1 o2 o3 : option (list A)) :
  agree_off i o1 o2 → agree_off i o2 o3 → agree_off i o1 o3.
Proof.
  destruct o1, o2, o3; simpl; try done.
  intros [Hl1 H1] [Hl2 H2]. split; [congruence|].
  intros j Hj. by rewrite H2, H1.
Qed.

Lemma agree_off_insert {A} i (l : list A) x :
  agree_off i (Some l) (Some (<[i := x]> l)).
Proof.
  split; [by rewrite length_insert|].
  intros j Hj. by rewrite list_lookup_insert_ne.
Qed.

Lemma agree_off_None {A} i (o o' : option (list A)) :
  agree_off i o o' → (o = None ↔ o' = None).
Proof. by destruct o, o'. Qed.

Global Instance same_static_preorder : PreOrder same_static.
Proof.
  split; [by intros t|].
  intros t1 t2 t3 (?&?&?&?&?) (?&?&?&?&?). repeat split; congruence.
Qed.

Global Instance same_stats_preorder : PreOrder same_stats.
Proof.
  split; [by intros t|].
  intros t1 t2 t3 (?&?) (?&?). repeat split; congruence.
Qed.

Global Instance same_tensors_preorder : PreOrder same_tensors.
Proof.
  split; [by intros t|].
  intros t1 t2 t3 (?&?) (?&?). repeat split; congruence.
Qed.

Global Instance only_row_refl i : Reflexive (only_row i).
Proof. intros t. repeat split; apply agree_off_refl. Qed.

Global Instance only_row_trans i : Transitive (only_row i).
Proof.
  intros t1 t2 t3 ((?&?&?&?&?)&(?&?)&Ha&Hs) ((?&?&?&?&?)&(?&?)&Ha'&Hs').
  repeat split; try congruence; by eapply agree_off_trans.
Qed.

Lemma only_row_active i t a x :
  active t = Some a → only_row i t (set_active (Some (<[i := x]> a)) t).
Proof.
  intros Ha. repeat split; simpl; try apply agree_off_refl.
  rewrite Ha. apply agree_off_insert.
Qed.

Lemma only_row_sampling i t s x :
  sampling t = Some s → only_row i t (set_sampling (Some (<[i := x]> s)) t).
Proof.
  intros Hs. repeat split; simpl; try apply agree_off_refl.
  rewrite Hs. apply agree_off_insert.
Qed.

Lemma update_incoming_only_row i f t r t' :
  update_incoming i f t = (r, t') → only_row i t t'.
Proof.
  intros H. unfold update_incoming, read_row, write_row in H. minv H;
    try reflexivity.
  rewrite Hm. simpl. by apply only_row_active.
Qed.

Lemma add_predecessor_only_row i p t r t' :
  add_predecessor i p t = (r, t') → only_row i t t'.
Proof.
  intros H. unfold add_predecessor, read_row in H. minv H; try reflexivity.
  all: by eapply update_incoming_only_row.
Qed.

Lemma for_each_rel {A} (R : relation PathRecorder) `{!PreOrder R}
    (body : A → M unit) l : ∀ t r t',
  (∀ x t r t', body x t = (r, t') → R t t') →
  for_each l body t = (r, t') → R t t'.
Proof.
  induction l as [|x l IH]; intros t r t' Hbody H; simpl in H.
  - minv H. reflexivity.
  - apply bind_inv in H as [(? & t1 & H1 & H)|(? & H1 & ?)].
    + trans t1; [by eapply Hbody|by eapply IH].
    + by eapply Hbody.
Qed.

Global Instance only_row_preorder i : PreOrder (only_row i).
Proof. split; apply _. Qed.

Lemma set_sampling_row_only_row i d t r t' :
  set_sampling_row i d t = (r, t') → only_row i t t'.
Proof.
  intros H. unfold set_sampling_row in H. minv H; try reflexivity.
  by apply only_row_sampling.
Qed.

Lemma for_each_add_predecessor_only_row i ps t r t' :
  for_each ps (add_predecessor i) t = (r, t') → only_row i t t'.
Proof.
  apply (for_each_rel (only_row i)). intros ????.
  apply add_predecessor_only_row.
Qed.

(** Chain the frames of the steps of a run into a frame of the run. *)
Ltac frame_chain :=
  repeat match goal with
    | H : set_sampling_row _ _ _ = _ |- _ =>
        apply set_sampling_row_only_row in H
    | H : update_incoming _ _ _ = _ |- _ =>
        apply update_incoming_only_row in H
    | H : for_each _ (add_predecessor _) _ = _ |- _ =>
        apply for_each_add_predecessor_only_row in H
    end;
  repeat match goal with
    | H : only_row ?i ?t ?t1 |- only_row ?i ?t _ =>
        trans t1; [exact H|clear H]
    end;
  try reflexivity;
  try match goal with
    | H : active ?t = Some _
      |- only_row _ ?t (set_active (_ <$> active ?t) ?t) =>
        rewrite H; by apply only_row_active
    end.

(** Lines 69-90 touch nothing but the row of the recorded node in the two
    tensors, however they end. *)
Lemma record_row_only_row nd b d t r t' :
  record_row nd b d t = (r, t') →
  t' = t ∨ ∃ i, node_index t !! nd = Some i ∧ only_row i t t'.
Proof.
  intros H. unfold record_row, read_row, write_row in H. minv H.
  all: try (by left).
  all: right; eexists; (split; [first [eassumption|reflexivity]|]).
  all: frame_chain.
Qed.

Lemma allocate_frame b t r t' :
  allocate b t = (r, t') →
  same_static t t' ∧ same_stats t t' ∧
  (active t = None ↔ active t' = None) ∧
  (sampling t = None ↔ sampling t' = None).
Proof.
  intros H. unfold allocate in H. minv H.
  all: repeat split; simpl; try done; try congruence.
Qed.

(** [add_sampling] never touches the index or the statistics, and never
    sets or unsets the tensors, however it ends. *)
Lemma add_sampling_frame nd x t r t' :
  add_sampling nd x t = (r, t') →
  same_static t t' ∧ same_stats t t' ∧
  (active t = None ↔ active t' = None).
Proof.
  intros H. unfold add_sampling in H. minv H.
  all: try (repeat split; simpl; try done; congruence).
  all: rewrite <-Hm.
  all: apply allocate_frame in Hs as (Hst & Hss & Hact & _).
  2: done.
  apply record_row_only_row in H as [->|(i & _ & Hst' & Hss' & Ha' & _)];
    [done|].
  apply agree_off_None in Ha'.
  split; [by trans x2|]. split; [by trans x2|]. by rewrite Hact.
Qed.

(** ** Which exceptions the later lines raise *)

Lemma expand_as_raises b d e : expand_as b d = Raise e → late_exn e.
Proof.
  unfold expand_as. repeat case_decide; intros ?; simplify_eq.
  by split.
Qed.

Lemma iadd_self_raises i d inc e : iadd_self i d inc = Raise e → late_exn e.
Proof.
  unfold iadd_self. destruct (inc !! i); [|intros; simplify_eq; by split].
  destruct (expand_as _ d) eqn:He; intros; simplify_eq.
  by eapply expand_as_raises.
Qed.

Lemma update_incoming_raises i f t e t' :
  (∀ inc e, f inc = Raise e → late_exn e) →
  update_incoming i f t = (Raise e, t') → late_exn e.
Proof.
  intros Hf H. unfold update_incoming, read_row, write_row in H. minv H.
  all: try by split.
  by eapply Hf.
Qed.

Lemma add_predecessor_raises i p t e t' :
  add_predecessor i p t = (Raise e, t') → late_exn e.
Proof.
  intros H. unfold add_predecessor, read_row in H. minv H.
  all: try by split.
  eapply update_incoming_raises; [|done]. intros; simplify_eq.
Qed.

Lemma for_each_raises {A} (body : A → M unit) l : ∀ t e t',
  (∀ x t e t', body x t = (Raise e, t') → late_exn e) →
  for_each l body t = (Raise e, t') → late_exn e.
Proof.
  induction l as [|x l IH]; intros t e t' Hbody H; simpl in H.
  - minv H.
  - apply bind_inv in H as [(? & t1 & H1 & H)|(? & H1 & ?)].
    + by eapply IH.
    + simplify_eq. by eapply Hbody.
Qed.

Lemma set_sampling_row_raises i d t e t' :
  set_sampling_row i d t = (Raise e, t') → late_exn e.
Proof.
  intros H. unfold set_sampling_row in H. minv H.
  all: try by split.
  by eapply expand_as_raises.
Qed.

Lemma allocate_raises b t e t' : allocate b t = (Raise e, t') → late_exn e.
Proof. intros H. unfold allocate in H. minv H. all: by split. Qed.

Lemma record_row_raises nd b d t e t' :
  record_row nd b d t = (Raise e, t') → late_exn e.
Proof.
  intros H. unfold record_row, read_row, write_row in H. minv H.
  all: try by split.
  all: try by eapply set_sampling_row_raises.
  all: try (eapply update_incoming_raises; [|done];
            first [apply iadd_self_raises|intros; simplify_eq]).
  all: try (eapply for_each_raises; [|done]; apply add_predecessor_raises).
Qed.

(** ** Frames of the other calls *)

Lemma update_global_sampling_frame u t r t' :
  update_global_sampling u t = (r, t') → same_static t t' ∧ same_tensors t t'.
Proof.
  intros H. unfold update_global_sampling in H. minv H.
  all: by repeat split.
Qed.

Lemma get_pruned_architecture_pure nd t r t' :
  get_pruned_architecture nd t = (r, t') → t' = t.
Proof.
  intros H. unfold get_pruned_architecture, read_row in H. by minv H.
Qed.

Lemma get_graph_paths_frame nd t r t' :
  get_graph_paths nd t = (r, t') → same_static t t' ∧ same_tensors t t'.
Proof.
  intros H.
  unfold get_graph_paths, get_architectures, get_sampled_architectures,
    get_used_nodes in H.
  minv H.
  all: try match goal with
    | H : get_pruned_architecture _ _ = _ |- _ =>
        apply get_pruned_architecture_pure in H; subst
    end.
  all: try match goal with
    | H : update_global_sampling _ _ = _ |- _ =>
        apply update_global_sampling_frame in H
    end.
  all: try done.
Qed.

(** After [new_iteration] the active tensor is set, however the call ends. *)
Lemma new_iteration_active t r t' :
  new_iteration t = (r, t') → active t' ≠ None.
Proof.
  intros H. unfold new_iteration in H. minv H.
  all: try match goal with
    | H : get_pruned_architecture _ _ = _ |- _ =>
        apply get_pruned_architecture_pure in H; subst
    end.
  all: try match goal with
    | H : update_global_sampling _ _ = _ |- _ =>
        apply update_global_sampling_frame in H as (_ & Hact & _)
    end.
  all: simpl; congruence.
Qed.

Lemma run_call_active c t :
  active (run_call c t).2 = None ↔ active t = None ∧ c ≠ call_new_iteration.
Proof.
  destruct (run_call c t) as [r t'] eqn:H. simpl.
  destruct c as [|nd x|nd]; simpl in H.
  - apply new_iteration_active in H. intuition congruence.
  - apply add_sampling_frame in H as (_ & _ & Hact). intuition congruence.
  - apply bind_inv in H as [(? & t1 & H1 & H)|(? & H1 & ?)];
      [minv H|]; apply get_graph_paths_frame in H1 as (_ & Hact & _);
      rewrite Hact; intuition congruence.
Qed.

Lemma run_active cs : ∀ t,
  active (run cs t) = None ↔ active t = None ∧ call_new_iteration ∉ cs.
Proof.
  induction cs as [|c cs IH]; intros t.
  - simpl. split; [|tauto]. intros H. split; [done|].
    by intros ?%elem_of_nil.
  - change (run (c :: cs) t) with (run cs (run_call c t).2).
    rewrite IH, run_call_active, not_elem_of_cons. intuition congruence.
Qed.

(** ** C5: a decision before any iteration *)

(** C5: [add_sampling] raises the error of line 57 exactly when the active
    tensor is unset, it then leaves the recorder as it found it, and after
    any history of calls on a new recorder the active tensor is unset
    exactly when [new_iteration] was never called. *)
Theorem not_initialized_iff nd x :
  (∀ t, (add_sampling nd x t).1 = Raise NotInitialized ↔ active t = None)
  ∧ (∀ t, active t = None → add_sampling nd x t = (Raise NotInitialized, t))
  ∧ (∀ g dout cs,
       active (run cs (init g dout)) = None ↔ call_new_iteration ∉ cs).
Proof.
  assert (Hnone : ∀ t, active t = None →
                       add_sampling nd x t = (Raise NotInitialized, t)).
  { intros t Ha. unfold add_sampling, bind, gets. by rewrite Ha. }
  split; [|split; [done|]].
  - intros t. split; [|intros Ha; by rewrite Hnone].
    destruct (add_sampling nd x t) as [r t'] eqn:H. simpl. intros ->.
    unfold add_sampling in H. minv H; [| |done].
    + apply record_row_raises in H as [? _]. done.
    + apply allocate_raises in Hs as [? _]. done.
  - intros g dout cs. rewrite run_active. simpl. tauto.
Qed.

Lemma not_initialized_iff_witness :
  add_sampling "A" (vector [1%Qc]) (init chain None)
  = (Raise NotInitialized, init chain None).
Proof.
  apply (proj1 (proj2 (not_initialized_iff "A" (vector [1%Qc])))).
  reflexivity.
Defined.

(** ** C6: the shape of a decision *)

Lemma promote_squeeze_scalar v : promote (squeeze (scalar v)) = vector [v].
Proof. reflexivity. Qed.

Lemma dim_promote y : dim (promote y) ≠ 1 ↔ 2 ≤ dim y.
Proof.
  unfold promote, dim. case_decide as H; simpl; [|lia].
  rewrite H. simpl. lia.
Qed.

Lemma product_squeeze l :
  foldr Nat.mul 1 (filter (λ n, n ≠ 1) l) = foldr Nat.mul 1 l.
Proof.
  induction l as [|n l IH]; [done|].
  destruct (decide (n = 1)) as [->|Hn].
  - rewrite filter_cons_False by (intros ?; done). simpl. lia.
  - rewrite filter_cons_True by done. simpl. by rewrite IH.
Qed.

(** A well-formed decision with at most one dimension of size other than
    one is, after lines 55-59, the flat vector of its entries. *)
Lemma flat_decision x :
  tensor_wf x → dim (squeeze x) ≤ 1 → promote (squeeze x) = vector (data x).
Proof.
  unfold tensor_wf. intros Hwf Hdim. rewrite <-product_squeeze in Hwf.
  unfold promote, squeeze, dim, vector, unsqueeze0 in *. simpl in *.
  destruct (filter _ (shape x)) as [|m [|m' l]]; simpl in *.
  - by rewrite Hwf.
  - rewrite Hwf. f_equal. f_equal. lia.
  - lia.
Qed.

(** C6 (amended): once an iteration has been started, [add_sampling] raises
    the error of line 61 exactly when the decision has two or more
    dimensions of size other than one; a flat vector never raises it and a
    scalar is recorded as the vector of length one; and when both tensors
    are still unsized, a well-formed flat decision of [b] entries is
    recorded on zero-filled tensors of sizes [n×n×b] and [n×b]. *)
Theorem decision_shape :
  (∀ nd x t a, active t = Some a →
     ((add_sampling nd x t).1 = Raise InvalidShape
      ↔ 2 ≤ length (filter (λ n, n ≠ 1) (shape x))))
  ∧ (∀ nd d t, (add_sampling nd (vector d) t).1 ≠ Raise InvalidShape)
  ∧ (∀ nd v t, add_sampling nd (scalar v) t = add_sampling nd (vector [v]) t)
  ∧ (∀ nd x t a s,
       active t = Some a → sampling t = Some s →
       numel3 a = 0 → numel2 s = 0 →
       tensor_wf x → length (filter (λ n, n ≠ 1) (shape x)) ≤ 1 →
       add_sampling nd x t
       = record_row nd (length (data x)) (data x)
           (set_sampling (Some (zeros2 (n_nodes t) (length (data x))))
              (set_active
                 (Some (zeros3 (n_nodes t) (n_nodes t) (length (data x)))) t))).
Proof.
  assert (Hiff : ∀ nd x t a, active t = Some a →
     ((add_sampling nd x t).1 = Raise InvalidShape
      ↔ 2 ≤ length (filter (λ n, n ≠ 1) (shape x)))).
  { intros nd x t a Ha. change (length _) with (dim (squeeze x)).
    rewrite <-dim_promote. split.
    - destruct (add_sampling nd x t) as [r t'] eqn:H. simpl. intros ->.
      unfold add_sampling in H. minv H; try done.
      + apply record_row_raises in H as [_ ?]. done.
      + apply allocate_raises in Hs as [_ ?]. done.
    - intros Hdim. unfold add_sampling, bind, gets. rewrite Ha.
      by rewrite decide_True. }
  split; [done|]. split; [|split].
  - intros nd d t Hr. destruct (active t) as [a|] eqn:Ha.
    + apply (Hiff _ _ _ _ Ha) in Hr. simpl in Hr.
      destruct (decide (length d = 1)).
      * rewrite filter_cons_False in Hr by (intros ?; done). simpl in Hr. lia.
      * rewrite filter_cons_True in Hr by done. simpl in Hr. lia.
    + unfold add_sampling, bind, gets in Hr. by rewrite Ha in Hr.
  - intros nd v t. unfold add_sampling.
    by rewrite promote_squeeze_scalar, promote_squeeze_vector.
  - intros nd x t a s Ha Hs Hna Hns Hwf Hdim.
    pose proof (flat_decision x Hwf Hdim) as Hx.
    unfold add_sampling. unfold bind at 1, gets. rewrite Ha, Hx. simpl.
    change (size0 (vector (data x))) with (length (data x)).
    by rewrite (bind_ok _ _ _ _ _ (allocate_fresh _ _ _ _ Ha Hs Hna Hns)).
Qed.

Lemma decision_shape_witness :
  (add_sampling "A" (mkTensor [2; 2] [1%Qc; 1%Qc; 1%Qc; 1%Qc])
     (run [call_new_iteration] (init chain None))).1 = Raise InvalidShape
  ↔ 2 ≤ length (filter (λ n, n ≠ 1) [2; 2]).
Proof.
  apply (proj1 decision_shape "A" (mkTensor [2; 2] [1%Qc; 1%Qc; 1%Qc; 1%Qc])
           (run [call_new_iteration] (init chain None)) []).
  reflexivity.
Defined.

(** The claim as stated fails before the first iteration: the guard of
    line 57 comes first, whatever the shape of the decision. *)
Lemma invalid_shape_before_first_iteration :
  2 ≤ length (filter (λ n, n ≠ 1) (shape (mkTensor [2; 2] [1%Qc; 1%Qc; 1%Qc; 1%Qc])))
  ∧ add_sampling "A" (mkTensor [2; 2] [1%Qc; 1%Qc; 1%Qc; 1%Qc]) (init chain None)
    = (Raise NotInitialized, init chain None).
Proof. split; [vm_compute; lia|reflexivity]. Qed.

(** ** C9: the two accessors are reads *)

(** C9: [get_pruned_architecture] and [get_sampled_architectures] leave
    the recorder unchanged, and asked again they give the same answer. *)
Theorem requery_idempotent t out :
  (get_pruned_architecture out t).2 = t
  ∧ get_pruned_architecture out (get_pruned_architecture out t).2
    = get_pruned_architecture out t
  ∧ (get_sampled_architectures t).2 = t
  ∧ get_sampled_architectures (get_sampled_architectures t).2
    = get_sampled_architectures t.
Proof.
  assert (H : (get_pruned_architecture out t).2 = t).
  { destruct (get_pruned_architecture out t) as [r t'] eqn:H.
    by apply get_pruned_architecture_pure in H. }
  split; [done|]. split; [by rewrite H|]. done.
Qed.

(** ** C8: the chain with every node on *)

(** C8: in the chain [A -> B -> C] with batch width one, after
    [new_iteration] and the decisions [1], [1], [1] in topological order,
    the pruned architecture of [C] is one for every node, and
    [get_graph_paths "C"] returns the path [A, B, C] and the raw decisions
    [{A: 1, B: 1, C: 1}]. *)
Theorem chain_all_on :
  ∃ t,
    run_ok [call_new_iteration;
            call_add_sampling "A" (vector [1%Qc]);
            call_add_sampling "B" (vector [1%Qc]);
            call_add_sampling "C" (vector [1%Qc])] (init chain None) = Some t
    ∧ get_pruned_architecture "C" t = (Ok [[1%Qc]; [1%Qc]; [1%Qc]], t)
    ∧ (get_graph_paths "C" t).1
      = Ok ([["A"; "B"; "C"]],
            [<["A" := 1%Qc]> (<["B" := 1%Qc]> (<["C" := 1%Qc]> ∅))]).
Proof.
  eexists. split; [vm_compute; reflexivity|].
  split; vm_compute; reflexivity.
Qed.

(** ** C7: [get_graph_paths] updates the statistics once *)

Lemma length_column k (m : list (list Qc)) : length (column k m) ≤ length m.
Proof.
  unfold column. induction m as [|r m IH]; csimpl; [done|].
  destruct (r !! k); csimpl; lia.
Qed.

Lemma path_of_is_Some rev (arch : list Qc) :
  length arch ≤ length rev → is_Some (path_of rev arch).
Proof.
  intros Hl. unfold path_of. apply mapM_is_Some_2, Forall_forall.
  intros [j x] [_ Hin]%list_elem_of_filter.
  apply elem_of_lookup_imap in Hin as (j' & x' & Heq & Hj). simplify_eq.
  simpl. apply lookup_lt_is_Some_2. apply lookup_lt_Some in Hj. lia.
Qed.

Lemma dict_of_is_Some rev (col : list Qc) :
  length col ≤ length rev → is_Some (dict_of rev col).
Proof.
  intros Hl. unfold dict_of. apply fmap_is_Some.
  apply mapM_is_Some_2, Forall_forall.
  intros [j x] Hin.
  apply elem_of_lookup_imap in Hin as (j' & x' & Heq & Hj). simplify_eq.
  simpl. apply fmap_is_Some, lookup_lt_is_Some_2.
  apply lookup_lt_Some in Hj. lia.
Qed.

Lemma paths_of_columns rev (m : list (list Qc)) :
  length m ≤ length rev → is_Some (mapM (path_of rev) (columns m)).
Proof.
  intros Hl. apply mapM_is_Some_2, Forall_forall.
  intros c (k & -> & _)%list_elem_of_fmap. simpl.
  apply path_of_is_Some. pose proof (length_column k m). lia.
Qed.

Lemma dicts_of_columns rev (m : list (list Qc)) :
  length m ≤ length rev → is_Some (mapM (dict_of rev) (columns m)).
Proof.
  intros Hl. apply mapM_is_Some_2, Forall_forall.
  intros c (k & -> & _)%list_elem_of_fmap. simpl.
  apply dict_of_is_Some. pose proof (length_column k m). lia.
Qed.

(** On sized tensors and for a known output node [get_graph_paths]
    returns, and leaves the state one [update_global_sampling] of the
    current pruned tensor leaves. *)
Lemma get_graph_paths_returns t a s b out i :
  active t = Some a → sampling t = Some s →
  shaped3 (n_nodes t) b a → shaped2 (n_nodes t) b s →
  length (rev_node_index t) = n_nodes t →
  node_index t !! out = Some i → i < n_nodes t →
  (∀ g, global_sampling t = Some g → length g = n_nodes t) →
  ∃ pruned paths dicts t',
    get_pruned_architecture out t = (Ok pruned, t)
    ∧ get_graph_paths out t = (Ok (paths, dicts), t')
    ∧ update_global_sampling pruned t = (Ok tt, t')
    ∧ n_samplings t' = S (n_samplings t)
    ∧ global_sampling t'
      = Some (match global_sampling t with
              | None => mean1 pruned
              | Some g => fold_mean g (S (n_samplings t)) (mean1 pruned)
              end)
    ∧ same_static t t' ∧ same_tensors t t'.
Proof.
  intros Ha Hs Hsa Hss Hrev Hi Hlt Hg.
  destruct (shaped3_row _ _ _ _ Hsa Hlt) as (pruned & Hpr & Hspr).
  pose proof (get_pruned_architecture_ok _ _ _ _ _ Ha Hi Hpr) as Hget.
  assert (Hlp : length pruned ≤ length (rev_node_index t)).
  { destruct Hspr as [-> _]. lia. }
  assert (Hls : length s ≤ length (rev_node_index t)).
  { destruct Hss as [-> _]. lia. }
  destruct (paths_of_columns _ _ Hlp) as [paths Hpaths].
  destruct (dicts_of_columns _ _ Hls) as [dicts Hdicts].
  assert (Hupd : ∃ t', update_global_sampling pruned t = (Ok tt, t')
    ∧ n_samplings t' = S (n_samplings t)
    ∧ global_sampling t'
      = Some (match global_sampling t with
              | None => mean1 pruned
              | Some g => fold_mean g (S (n_samplings t)) (mean1 pruned)
              end)).
  { destruct (global_sampling t) as [g|] eqn:Hgs.
    - eexists. split; [apply update_global_sampling_next; [done|]|done].
      rewrite (Hg g eq_refl). by destruct Hspr.
    - eexists. split; [by apply update_global_sampling_first|done]. }
  destruct Hupd as (t' & Hupd & Hn & Hgs).
  exists pruned, paths, dicts, t'.
  split; [done|]. split; [|split; [done|split; [done|split; [done|]]]].
  - unfold get_graph_paths, get_architectures, get_sampled_architectures.
    unfold bind at 1. unfold bind at 1. unfold gets at 1.
    rewrite (bind_ok _ _ _ _ _ Hget). simpl.
    unfold bind at 1. unfold gets at 1.
    unfold bind at 1. rewrite Hpaths. simpl.
    unfold get_used_nodes. unfold bind at 1. unfold bind at 1.
    unfold gets at 1. rewrite Hpaths. simpl.
    rewrite decide_False by (intros ?; done).
    rewrite Hs. destruct s as [|r0 s'].
    { destruct Hss as [Hl _]. simpl in Hl. lia. }
    unfold bind at 1. rewrite Hdicts. simpl.
    by rewrite (bind_ok _ _ _ _ _ Hupd).
  - by apply update_global_sampling_frame in Hupd.
Qed.

Lemma update_global_sampling_counter u t r t' :
  update_global_sampling u t = (r, t') → n_samplings t' = S (n_samplings t).
Proof. intros H. unfold update_global_sampling in H. by minv H. Qed.

(** C7: whenever [get_graph_paths] returns, the state it leaves is the one
    a single [update_global_sampling] of the current pruned tensor of the
    output node leaves: the counter is one higher, and the index and both
    tensors are untouched; and on sized tensors, for a known output node,
    it does return, with the batch mean of that pruned tensor folded into
    the estimate. *)
Theorem graph_paths_updates_once :
  (∀ t out res t',
     get_graph_paths out t = (Ok res, t') →
     ∃ pruned,
       get_pruned_architecture out t = (Ok pruned, t)
       ∧ update_global_sampling pruned t = (Ok tt, t')
       ∧ n_samplings t' = S (n_samplings t)
       ∧ same_static t t' ∧ same_tensors t t')
  ∧ (∀ t a s b out i,
       active t = Some a → sampling t = Some s →
       shaped3 (n_nodes t) b a → shaped2 (n_nodes t) b s →
       length (rev_node_index t) = n_nodes t →
       node_index t !! out = Some i → i < n_nodes t →
       (∀ g, global_sampling t = Some g → length g = n_nodes t) →
       ∃ pruned paths dicts t',
         get_pruned_architecture out t = (Ok pruned, t)
         ∧ get_graph_paths out t = (Ok (paths, dicts), t')
         ∧ update_global_sampling pruned t = (Ok tt, t')
         ∧ n_samplings t' = S (n_samplings t)
         ∧ global_sampling t'
           = Some (match global_sampling t with
                   | None => mean1 pruned
                   | Some g => fold_mean g (S (n_samplings t)) (mean1 pruned)
                   end)
         ∧ same_static t t' ∧ same_tensors t t').
Proof.
  split; [|apply get_graph_paths_returns].
  intros t out res t' H.
  pose proof (get_graph_paths_frame _ _ _ _ H) as [Hst Hten].
  unfold get_graph_paths, get_architectures, get_sampled_architectures,
    get_used_nodes in H.
  minv H.
  match goal with
  | Hp : get_pruned_architecture _ _ = (Ok ?pruned, _),
    Hu : update_global_sampling ?pruned _ = (Ok ?u, _) |- _ =>
      pose proof (get_pruned_architecture_pure _ _ _ _ Hp) as ->;
      destruct u; exists pruned;
      pose proof (update_global_sampling_counter _ _ _ _ Hu)
  end.
  done.
Qed.

Lemma graph_paths_updates_once_witness :
  ∃ pruned paths dicts t',
    let t := run [call_new_iteration;
                  call_add_sampling "A" (vector [1%Qc]);
                  call_add_sampling "B" (vector [1%Qc]);
                  call_add_sampling "C" (vector [1%Qc])]
               (init chain None) in
    get_pruned_architecture "C" t = (Ok pruned, t)
    ∧ get_graph_paths "C" t = (Ok (paths, dicts), t')
    ∧ update_global_sampling pruned t = (Ok tt, t')
    ∧ n_samplings t' = S (n_samplings t)
    ∧ global_sampling t'
      = Some (match global_sampling t with
              | None => mean1 pruned
              | Some g => fold_mean g (S (n_samplings t)) (mean1 pruned)
              end)
    ∧ same_static t t' ∧ same_tensors t t'.
Proof.
  eapply (proj2 graph_paths_updates_once _ _ _ 1 "C" 2).
  - vm_compute. reflexivity.
  - vm_compute. reflexivity.
  - repeat split; repeat constructor.
  - repeat split; repeat constructor.
  - reflexivity.
  - vm_compute. reflexivity.
  - vm_compute. lia.
  - intros g Hg. vm_compute in Hg. discriminate.
Defined.

(** ** C4: starting an iteration *)

Lemma new_iteration_skip t :
  default_out t = None ∨ active t = None →
  new_iteration t = (Ok tt, set_sampling (Some []) (set_active (Some []) t)).
Proof.
  intros H. unfold new_iteration, bind, gets, modify. simpl.
  destruct (default_out t), (active t); try done. by destruct H.
Qed.

Lemma new_iteration_flush t out a i pruned t1 :
  default_out t = Some out → active t = Some a →
  node_index t !! out = Some i → a !! i = Some pruned →
  update_global_sampling pruned t = (Ok tt, t1) →
  new_iteration t = (Ok tt, set_sampling (Some []) (set_active (Some []) t1)).
Proof.
  intros Hd Ha Hi Hpr Hupd. unfold new_iteration.
  unfold bind at 1. unfold bind at 1, gets. rewrite Hd.
  unfold bind at 1. rewrite Ha.
  rewrite (bind_ok _ _ _ _ _ (get_pruned_architecture_ok _ _ _ _ _ Ha Hi Hpr)).
  rewrite Hupd. reflexivity.
Qed.

(** With a default output configured, an iteration in which nothing was
    recorded makes the next [new_iteration] fail at line 47. *)
Lemma new_iteration_empty t out i :
  default_out t = Some out → active t = Some [] →
  node_index t !! out = Some i →
  new_iteration t = (Raise IndexError, t).
Proof.
  intros Hd Ha Hi. unfold new_iteration.
  unfold bind at 1. unfold bind at 1, gets. rewrite Hd.
  unfold bind at 1. rewrite Ha.
  unfold get_pruned_architecture, read_row, bind, gets. rewrite Hi.
  simpl. rewrite ?Ha. reflexivity.
Qed.

(** C4 (the code departs from the claim): on the chain with default output
    [C], a second [new_iteration] right after the first finds the empty
    tensor of line 50, and indexing it at line 47/152 raises; the call
    neither returns nor reaches lines 50-51. *)
Theorem new_iteration_after_empty_iteration :
  let t := run [call_new_iteration] (init chain (Some "C")) in
  active t = Some [] ∧ sampling t = Some []
  ∧ new_iteration t = (Raise IndexError, t).
Proof. repeat split. Qed.

(** ** C10: the active tensor is a 0/1 mask *)

Lemma mask2_cast (inc : list (list Qc)) :
  mask2 ((λ r : list Qc, ne0 <$> r) <$> inc).
Proof.
  unfold mask2. apply Forall_fmap, Forall_forall. intros r _. simpl.
  apply Forall_fmap, Forall_forall. intros x _. apply is01_ne0.
Qed.

Lemma mask_inv_write i t tl l m :
  mask_inv t → only_row i t tl → active tl = Some l → mask2 m →
  mask_inv (set_active (Some (<[i := m]> l)) tl).
Proof.
  intros Hinv (_ & _ & Hagree & _) Hl Hm a' Ha'. simpl in Ha'.
  injection Ha' as <-. rewrite Hl in Hagree.
  destruct (active t) as [a|] eqn:Ha; [|done]. destruct Hagree as [_ Hrows].
  apply Forall_lookup. intros j mj Hj.
  apply list_lookup_insert_Some in Hj as [(_ & <- & _)|[Hne Hj]]; [done|].
  rewrite Hrows in Hj by done.
  by eapply (proj1 (Forall_lookup _ _) (Hinv a Ha)).
Qed.

Lemma allocate_mask b t x t' :
  allocate b t = (Ok x, t') → mask_inv t → mask_inv t'.
Proof.
  intros H Hinv. unfold allocate in H. minv H; try done.
  intros a' Ha'. simpl in Ha'. injection Ha' as <-. apply mask3_zeros.
Qed.

Lemma record_row_mask nd b d t x t' :
  record_row nd b d t = (Ok x, t') → mask_inv t → mask_inv t'.
Proof.
  intros H Hinv. unfold record_row, read_row, write_row in H. minv H.
  all: match goal with
       | Hl : active ?tl = Some ?l
         |- mask_inv (set_active (_ <$> active ?tl) ?tl) =>
           rewrite Hl; simpl;
           match type of Hinv with
           | mask_inv ?t0 =>
               eapply (mask_inv_write _ t0 tl l);
                 [exact Hinv| |exact Hl|apply mask2_cast]
           end
       end.
  all: frame_chain.
Qed.

Lemma add_sampling_mask nd x t y t' :
  add_sampling nd x t = (Ok y, t') → mask_inv t → mask_inv t'.
Proof.
  intros H Hinv. unfold add_sampling in H. minv H.
  eapply record_row_mask; [done|]. eapply allocate_mask; [done|].
  intros a' Ha'. apply Hinv. congruence.
Qed.

Lemma new_iteration_mask t y t' :
  new_iteration t = (Ok y, t') → mask_inv t'.
Proof.
  intros H. unfold new_iteration in H. minv H.
  all: intros a' Ha'; simpl in Ha'; injection Ha' as <-; constructor.
Qed.

Lemma get_graph_paths_mask nd t y t' :
  get_graph_paths nd t = (Ok y, t') → mask_inv t → mask_inv t'.
Proof.
  intros H Hinv. apply get_graph_paths_frame in H as (_ & Ha & _).
  intros a' Ha'. apply Hinv. congruence.
Qed.

Lemma run_call_mask c t y t' :
  run_call c t = (Ok y, t') → mask_inv t → mask_inv t'.
Proof.
  destruct c as [|nd x|nd]; simpl; intros H Hinv.
  - by eapply new_iteration_mask.
  - by eapply add_sampling_mask.
  - minv H. by eapply get_graph_paths_mask.
Qed.

Lemma run_ok_mask cs : ∀ t t',
  run_ok cs t = Some t' → mask_inv t → mask_inv t'.
Proof.
  induction cs as [|c cs IH]; intros t t' H Hinv; simpl in H.
  - by simplify_eq.
  - destruct (run_call c t) as [[y|e] t1] eqn:Hc; [|done].
    eapply IH; [done|]. by eapply run_call_mask.
Qed.

(** C10 (amended): after any history of calls on a new recorder that all
    returned normally, every entry of the active tensor is [0] or [1]. *)
Theorem active_is_mask g dout cs t a :
  run_ok cs (init g dout) = Some t → active t = Some a → mask3 a.
Proof.
  intros Hrun Ha. eapply (run_ok_mask cs (init g dout) t Hrun); [|done].
  intros a' Ha'. discriminate.
Qed.

Lemma active_is_mask_witness :
  mask3 [[[1%Qc]; [0%Qc]; [0%Qc]];
         [[1%Qc]; [1%Qc]; [0%Qc]];
         [[0%Qc]; [0%Qc]; [0%Qc]]].
Proof.
  apply (active_is_mask chain None
           [call_new_iteration;
            call_add_sampling "A" (vector [1%Qc]);
            call_add_sampling "B" (vector [(1 / 2)%Qc]);
            call_add_sampling "C" (vector [0%Qc])]
           (mkPathRecorder chain None 3 (build_node_index (nodes chain))
              (nodes chain) None 0
              (Some [[[1%Qc]; [0%Qc]; [0%Qc]];
                     [[1%Qc]; [1%Qc]; [0%Qc]];
                     [[0%Qc]; [0%Qc]; [0%Qc]]])
              (Some [[1%Qc]; [(1 / 2)%Qc]; [0%Qc]]))).
  - vm_compute. reflexivity.
  - reflexivity.
Defined.

(** The claim as stated fails after a call that raised: a decision of
    width one in an iteration of width two passes line 72 by broadcasting,
    lines 77-78 add the rows of the predecessors into the row of the node
    in place, and the assertion of line 80 stops the call before the cast
    of line 90.  The row keeps the sums: here node [A] reaches [D] along
    two paths and counts twice.  [get_pruned_architecture] returns that
    row, and the next [new_iteration] folds it into the estimate. *)
Lemma failed_decision_leaves_sums :
  let t := run [call_new_iteration;
                call_add_sampling "A" (vector [1%Qc; 1%Qc]);
                call_add_sampling "B" (vector [1%Qc; 1%Qc]);
                call_add_sampling "C" (vector [1%Qc; 1%Qc])]
             (init diamond (Some "D")) in
  ∃ t' a,
    add_sampling "D" (vector [1%Qc]) t = (Raise AssertionError, t')
    ∧ active t' = Some a
    ∧ ¬ mask3 a
    ∧ get_pruned_architecture "D" t'
      = (Ok [[2%Qc; 2%Qc]; [1%Qc; 1%Qc]; [1%Qc; 1%Qc]; [0%Qc; 0%Qc]], t')
    ∧ global_sampling (new_iteration t').2
      = Some (mean1 [[2%Qc; 2%Qc]; [1%Qc; 1%Qc]; [1%Qc; 1%Qc]; [0%Qc; 0%Qc]])
    ∧ mean [2%Qc; 2%Qc] = 2%Qc.
Proof.
  eexists _, _. split; [vm_compute; reflexivity|].
  split; [vm_compute; reflexivity|]. split; [|split; [|split]].
  - intros Hm.
    pose proof (proj1 (Forall_lookup _ _) Hm 3 _ eq_refl) as Hrow.
    pose proof (proj1 (Forall_lookup _ _) Hrow 0 _ eq_refl) as Hr.
    pose proof (proj1 (Forall_lookup _ _) Hr 0 _ eq_refl) as [H|H];
      apply (f_equal this) in H; vm_compute in H; discriminate H.
  - vm_compute. reflexivity.
  - vm_compute. reflexivity.
  - apply Qc_is_canon. reflexivity.
Qed.

(** ** The index a new recorder is built with *)

Lemma build_node_index_snoc l nd :
  build_node_index (l ++ [nd]) = <[nd := length l]> (build_node_index l).
Proof.
  unfold build_node_index. rewrite imap_app, foldl_app. simpl.
  by rewrite Nat.add_0_r.
Qed.

Lemma build_node_index_lookup l nd i :
  build_node_index l !! nd = Some i → l !! i = Some nd.
Proof.
  revert i. induction l as [|x l IH] using rev_ind; intros i.
  - unfold build_node_index. simpl. by rewrite lookup_empty.
  - rewrite build_node_index_snoc. intros H.
    apply lookup_insert_Some in H as [[-> <-]|[Hne H]].
    + by rewrite list_lookup_middle.
    + apply lookup_app_l_Some. by apply IH.
Qed.

Lemma build_node_index_elem l nd :
  nd ∈ l → is_Some (build_node_index l !! nd).
Proof.
  induction l as [|x l IH] using rev_ind; [by intros ?%elem_of_nil|].
  rewrite build_node_index_snoc, elem_of_app, list_elem_of_singleton.
  intros [Hin| ->].
  - destruct (decide (x = nd)) as [->|Hne].
    + rewrite lookup_insert_eq. by eexists.
    + rewrite lookup_insert_ne by done. by apply IH.
  - rewrite lookup_insert_eq. by eexists.
Qed.

Lemma init_static_ok g dout : wf_graph g → static_ok (init g dout).
Proof.
  intros (_ & _ & Hpred). repeat split; simpl.
  - intros nd i. apply build_node_index_lookup.
  - intros nd ps p Hps Hp. apply build_node_index_elem. by eapply Hpred.
Qed.

Lemma static_ok_index t nd i :
  static_ok t → node_index t !! nd = Some i → i < n_nodes t.
Proof.
  intros (Hl & Hrev & _) Hi. rewrite <-Hl. eapply lookup_lt_Some. by apply Hrev.
Qed.

Lemma static_ok_same t t' : same_static t t' → static_ok t → static_ok t'.
Proof.
  intros (Hg & _ & Hn & Hi & Hr) (H1 & H2 & H3).
  unfold static_ok. rewrite Hg, Hn, Hi, Hr. done.
Qed.

(** The predecessors of a node of a well-formed recorder have indices. *)
Lemma static_ok_preds t nd ps :
  static_ok t → pred (graph t) !! nd = Some ps →
  ∃ pis, Forall2 (λ p ip, node_index t !! p = Some ip ∧ ip < n_nodes t) ps pis.
Proof.
  intros Hst Hps.
  assert (Hall : Forall (λ p, is_Some (node_index t !! p)) ps).
  { apply Forall_forall. intros p Hp. destruct Hst as (_ & _ & H). by eapply H. }
  clear Hps. induction Hall as [|p ps [ip Hip] _ [pis IH]].
  - by exists [].
  - exists (ip :: pis). constructor; [|done]. split; [done|].
    by eapply static_ok_index.
Qed.

(** ** Sized tensors stay sized *)

Global Instance shape_kept_preorder n b : PreOrder (shape_kept n b).
Proof.
  split.
  - intros t. split; eauto.
  - intros t1 t2 t3 [Ha Hs] [Ha' Hs']. split.
    + intros a H1 H2. destruct (Ha a H1 H2) as (a' & ? & ?). eauto.
    + intros s H1 H2. destruct (Hs s H1 H2) as (s' & ? & ?). eauto.
Qed.

Lemma expand_as_length b d d' : expand_as b d = Ok d' → length d' = b.
Proof.
  unfold expand_as. repeat case_decide; intros ?; simplify_eq; [done|].
  apply length_replicate.
Qed.

Lemma iadd_self_shape n b i d inc inc' :
  shaped2 n b inc → iadd_self i d inc = Ok inc' → shaped2 n b inc'.
Proof.
  intros Hinc. unfold iadd_self. destruct (inc !! i) as [r|] eqn:Hr; [|done].
  destruct (expand_as (length r) d) as [d'|] eqn:Hd; [|done].
  intros ?; simplify_eq. apply shaped2_insert; [done|].
  apply expand_as_length in Hd.
  rewrite length_vadd by done. by eapply shaped2_lookup.
Qed.

Lemma set_sampling_row_shape n b i d t r t' :
  set_sampling_row i d t = (r, t') → shape_kept n b t t'.
Proof.
  intros H. unfold set_sampling_row in H. minv H; try reflexivity.
  split; [eauto|]. simpl. intros s Hs Hss. simplify_eq.
  eexists. split; [done|]. apply shaped2_insert; [done|].
  apply expand_as_length in Hl. rewrite Hl. by eapply shaped2_lookup.
Qed.

Lemma update_incoming_shape n b i f t r t' :
  (∀ a inc inc', active t = Some a → shaped3 n b a →
     shaped2 n b inc → f inc = Ok inc' → shaped2 n b inc') →
  update_incoming i f t = (r, t') → shape_kept n b t t'.
Proof.
  intros Hf H. unfold update_incoming, read_row, write_row in H.
  minv H; try reflexivity.
  split; [|eauto]. simpl. intros a Ha Hsa. rewrite Hm in *. simplify_eq.
  eexists. split; [done|]. apply shaped3_insert; [done|].
  eapply Hf; [done|done| |done]. by eapply shaped3_lookup.
Qed.

Lemma add_predecessor_shape n b i p t r t' :
  add_predecessor i p t = (r, t') → shape_kept n b t t'.
Proof.
  intros H. unfold add_predecessor, read_row in H. minv H; try reflexivity.
  all: eapply update_incoming_shape; [|done].
  all: intros a inc inc' Ha Hsa Hinc Hf; simpl in Hf; simplify_eq.
  apply shaped2_madd; [done|]. by eapply shaped3_lookup.
Qed.

Lemma for_each_add_predecessor_shape n b i ps t r t' :
  for_each ps (add_predecessor i) t = (r, t') → shape_kept n b t t'.
Proof.
  apply (for_each_rel (shape_kept n b)). intros ????.
  apply add_predecessor_shape.
Qed.

Lemma shaped2_fmap n b (f : list Qc → list Qc) (m : list (list Qc)) :
  (∀ r, length r = b → length (f r) = b) →
  shaped2 n b m → shaped2 n b (f <$> m).
Proof.
  intros Hf [Hl Hrows]. split; [by rewrite length_fmap|].
  apply Forall_fmap. eapply Forall_impl; [exact Hrows|]. exact Hf.
Qed.

Lemma shaped2_width n b b' (m : list (list Qc)) :
  shaped2 n b m → shaped2 n b' m → 0 < n → b = b'.
Proof.
  intros [Hl H] [_ H'] Hn. destruct m as [|r m]; simpl in *; [lia|].
  apply Forall_cons in H as [<- _]. by apply Forall_cons in H' as [<- _].
Qed.

(** Turn the steps of a run into frame and shape facts. *)
Ltac step_facts n b :=
  repeat match goal with
    | H : set_sampling_row _ _ _ = _ |- _ =>
        pose proof (set_sampling_row_only_row _ _ _ _ _ H);
        apply (set_sampling_row_shape n b) in H
    | H : update_incoming _ (iadd_self _ _) _ = _ |- _ =>
        pose proof (update_incoming_only_row _ _ _ _ _ H);
        apply (update_incoming_shape n b) in H;
          [|intros; by eapply iadd_self_shape]
    | H : for_each _ (add_predecessor _) _ = _ |- _ =>
        pose proof (for_each_add_predecessor_only_row _ _ _ _ _ H);
        apply (for_each_add_predecessor_shape n b) in H
    end.

Ltac chain :=
  repeat first
    [ assumption
    | reflexivity
    | match goal with
      | H : ?R ?t ?t1 |- ?R ?t _ => trans t1; [exact H|]
      end ].

Lemma record_row_shape n b nd bs d t x t' a s :
  record_row nd bs d t = (Ok x, t') →
  length d = bs → n_nodes t = n → static_ok t →
  active t = Some a → sampling t = Some s →
  shaped3 n b a → shaped2 n b s →
  0 < n ∧ bs ≠ 0 ∧ b = bs
  ∧ ∃ a' s', active t' = Some a' ∧ sampling t' = Some s'
             ∧ shaped3 n b a' ∧ shaped2 n b s'.
Proof.
  intros H Hd Hn Hst Ha Hs Hsa Hss.
  unfold record_row, read_row, write_row in H. minv H.
  all: match goal with
    | Hst : static_ok ?t0 |- _ => step_facts (n_nodes t0) b
    end.
  all: lazymatch goal with
    | Hst : static_ok ?t0, Hact0 : active ?t0 = Some ?a0,
      Hsam0 : sampling ?t0 = Some ?s0,
      Hi : node_index ?t0 !! _ = Some ?i,
      Hassert : negb (has_size2 (n_nodes ?t3) _ ?inc) = false,
      Hmul : update_incoming ?i _ ?t4 = (Ok _, ?t5),
      Hact3 : active ?t3 = Some ?l3, Hrow3 : ?l3 !! ?i = Some ?inc,
      Hact5 : active ?t5 = Some ?l5, Hrow5 : ?l5 !! ?i = Some ?inc5 |- _ =>
        pose proof (static_ok_index _ _ _ Hst Hi) as Hlt;
        assert (Hk03 : shape_kept (n_nodes t0) b t0 t3) by chain;
        assert (Hf03 : only_row i t0 t3) by chain;
        destruct (proj1 Hk03 _ Hact0 Hsa) as (l3' & Hl3' & Hsl3);
        rewrite Hact3 in Hl3'; injection Hl3' as <-;
        pose proof (shaped3_lookup _ _ _ _ _ Hsl3 Hrow3) as Hsinc;
        apply negb_false_iff, has_size2_shaped in Hassert;
        destruct Hf03 as ((_ & _ & Hn03 & _) & _);
        rewrite Hn03 in Hassert;
        pose proof (shaped2_width _ _ _ _ Hsinc Hassert ltac:(lia)) as Hb;
        apply (update_incoming_shape (n_nodes t0) b) in Hmul;
          [|intros ? ? ? _ _ Hinc' Hf'; simpl in Hf'; simplify_eq;
            apply shaped2_fmap; [|done]; intros r Hr; unfold vmul;
            rewrite length_zip_with_l_eq; [done|];
            rewrite length_zip_with_l_eq;
              rewrite (length_max0 _ _ _ Hsinc) by lia; congruence];
        assert (Hk05 : shape_kept (n_nodes t0) b t0 t5) by chain;
        destruct (proj1 Hk05 _ Hact0 Hsa) as (l5' & Hl5' & Hsl5);
        rewrite Hact5 in Hl5'; injection Hl5' as <-;
        destruct (proj2 Hk05 _ Hsam0 Hss) as (s5 & Hs5 & Hss5);
        split; [lia|]; split; [done|]; split; [done|];
        rewrite Hact5; simpl; eexists _, s5;
        split; [done|]; split; [done|]; split; [|done];
        apply shaped3_insert; [done|];
        apply shaped2_fmap; [intros; by rewrite length_fmap|];
        by eapply shaped3_lookup
    end.
Qed.

(** ** The invariant of a well-formed recorder *)

Lemma allocate_shape bs t x t' :
  allocate bs t = (Ok x, t') → tensors_ok t →
  ∃ a s b, active t' = Some a ∧ sampling t' = Some s
           ∧ shaped3 (n_nodes t) b a ∧ shaped2 (n_nodes t) b s.
Proof.
  intros H Hok. unfold tensors_ok in Hok. unfold allocate in H. minv H.
  all: try rewrite Hm in Hok; try rewrite Hm1 in Hok.
  - simpl. eexists _, _, bs. split; [done|]. split; [done|].
    split; [apply shaped3_zeros|apply shaped2_zeros].
  - destruct Hok as [[-> ->]|(b & Hb & Hn & Ha & Hs)]; [done|].
    by pose proof (numel3_shaped _ _ _ Ha Hn Hb).
  - destruct (sampling t') as [s|] eqn:Hs; [|done].
    destruct Hok as [[-> ->]|(b & Hb & Hn & Ha & Hss)]; [done|].
    by exists l, s, b.
Qed.

Lemma dim_promote_1 y : dim (promote y) = 1 ↔ dim y ≤ 1.
Proof. pose proof (dim_promote y). lia. Qed.

Lemma add_sampling_inv nd x t y t' :
  add_sampling nd x t = (Ok y, t') → tensor_wf x → inv t → inv t'.
Proof.
  intros H Hwf (Hst & Hten & Hstats & Hmask).
  pose proof (add_sampling_frame _ _ _ _ _ H) as (Hsame & Hss & _).
  pose proof (add_sampling_mask _ _ _ _ _ H Hmask) as Hmask'.
  split; [by eapply static_ok_same|]. split; [|split; [|done]].
  - unfold add_sampling in H. minv H.
    assert (Hflat : promote (squeeze x) = vector (data x)).
    { apply flat_decision; [done|]. apply dim_promote_1.
      destruct (decide (dim (promote (squeeze x)) = 1)); done. }
    rewrite Hflat in *.
    pose proof (allocate_frame _ _ _ _ Hs) as (Hsame1 & _).
    destruct (allocate_shape _ _ _ _ Hs Hten) as (a & s & b & Ha & Hsam & Hsa & Hsb).
    destruct (record_row_shape (n_nodes x1) b _ _ _ _ _ _ a s H)
      as (Hn & Hbs & Hb & a' & s' & Ha' & Hs' & Hsa' & Hss');
      [done|by destruct Hsame1 as (_ & _ & ? & _)
      |by eapply static_ok_same|done..|].
    unfold tensors_ok. rewrite Ha', Hs'. right.
    destruct Hsame as (_ & _ & -> & _).
    exists b. split; [|done]. simpl in Hbs. 
    change (size0 (vector (data x))) with (length (data x)) in *. lia.
  - intros g Hg. destruct Hsame as (_ & _ & -> & _).
    destruct Hss as (Hgs & _). rewrite Hgs in Hg. by apply Hstats.
Qed.

Lemma update_global_sampling_stats u t x t' :
  update_global_sampling u t = (Ok x, t') →
  length u = n_nodes t → stats_ok t → stats_ok t'.
Proof.
  intros H Hu Hstats. unfold update_global_sampling in H. minv H.
  - intros g Hg. simpl in *. simplify_eq.
    rewrite length_vadd by done. by apply Hstats.
  - intros g Hg. simpl in *. simplify_eq. unfold mean1.
    by rewrite length_fmap.
Qed.

Lemma get_pruned_architecture_row nd t m t' :
  get_pruned_architecture nd t = (Ok m, t') →
  ∃ a i, active t = Some a ∧ node_index t !! nd = Some i ∧ a !! i = Some m.
Proof.
  intros H. unfold get_pruned_architecture, read_row in H. minv H. eauto.
Qed.

Lemma tensors_ok_row t a i m :
  tensors_ok t → active t = Some a → a !! i = Some m →
  length m = n_nodes t.
Proof.
  unfold tensors_ok. intros Hok Ha Hm. rewrite Ha in Hok.
  destruct (sampling t); [|done].
  destruct Hok as [[-> _]|(b & _ & _ & Hsa & _)]; [done|].
  by destruct (shaped3_lookup _ _ _ _ _ Hsa Hm).
Qed.

Lemma new_iteration_inv t y t' :
  new_iteration t = (Ok y, t') → inv t → inv t'.
Proof.
  intros H (Hst & Hten & Hstats & Hmask).
  pose proof (new_iteration_mask _ _ _ H) as Hmask'.
  unfold new_iteration in H. minv H.
  2-3: by (split; [done|]; split; [by left|]).
  pose proof (get_pruned_architecture_pure _ _ _ _ Hs0) as ->.
  destruct (get_pruned_architecture_row _ _ _ _ Hs0) as (a & i & Ha & _ & Hrow).
  pose proof (tensors_ok_row _ _ _ _ Hten Ha Hrow) as Hlen.
  pose proof (update_global_sampling_stats _ _ _ _ Hs Hlen Hstats) as Hstats'.
  apply update_global_sampling_frame in Hs as (Hsame & _).
  split; [by eapply (static_ok_same x1)|]. split; [by left|]. split; [|done].
  intros g Hg. simpl in *. by apply Hstats'.
Qed.

Lemma get_graph_paths_inv nd t y t' :
  get_graph_paths nd t = (Ok y, t') → inv t → inv t'.
Proof.
  intros H (Hst & Hten & Hstats & Hmask).
  pose proof (get_graph_paths_mask _ _ _ _ H Hmask) as Hmask'.
  pose proof (get_graph_paths_frame _ _ _ _ H) as (Hsame & Ha & Hs).
  split; [by eapply static_ok_same|]. split; [|split; [|done]].
  - unfold tensors_ok. rewrite Ha, Hs. by destruct Hsame as (_ & _ & -> & _).
  - unfold get_graph_paths, get_architectures, get_sampled_architectures,
      get_used_nodes in H. minv H.
    pose proof (get_pruned_architecture_pure _ _ _ _ Hs1) as ->.
    destruct (get_pruned_architecture_row _ _ _ _ Hs1) as (a & i & Hact & _ & Hrow).
    pose proof (tensors_ok_row _ _ _ _ Hten Hact Hrow) as Hlen.
    by eapply update_global_sampling_stats.
Qed.

Lemma run_call_inv c t y t' :
  run_call c t = (Ok y, t') → wf_call c → inv t → inv t'.
Proof.
  destruct c as [|nd x|nd]; simpl; intros H Hwf Hinv.
  - by eapply new_iteration_inv.
  - by eapply add_sampling_inv.
  - minv H. by eapply get_graph_paths_inv.
Qed.

Lemma init_inv g dout : wf_graph g → inv (init g dout).
Proof.
  intros Hg. split; [by apply init_static_ok|]. by repeat split.
Qed.

(** Every state reached from a new recorder over a well-formed graph, by
    calls with well-formed decisions that all returned normally, has a
    consistent index, tensors that are unsized or sized for one batch
    width, an estimate of one entry per node, and a 0/1 active tensor. *)
Lemma run_ok_inv cs : ∀ t t',
  run_ok cs t = Some t' → Forall wf_call cs → inv t → inv t'.
Proof.
  induction cs as [|c cs IH]; intros t t' H Hwf Hinv; simpl in H.
  - by simplify_eq.
  - apply Forall_cons in Hwf as [Hc Hcs].
    destruct (run_call c t) as [[y|e] t1] eqn:Hrun; [|done].
    eapply IH; [done..|]. by eapply run_call_inv.
Qed.

(** ** From reachable states to the hypotheses of the theorems above *)

Lemma new_iteration_static t r t' : new_iteration t = (r, t') → same_static t t'.
Proof.
  intros H. unfold new_iteration in H. minv H.
  all: try match goal with
    | H : get_pruned_architecture _ _ = _ |- _ =>
        apply get_pruned_architecture_pure in H; subst
    end.
  all: try match goal with
    | H : update_global_sampling _ _ = _ |- _ =>
        apply update_global_sampling_frame in H as (Hsame & _)
    end.
  all: try done.
Qed.

Lemma run_call_static c t : same_static t (run_call c t).2.
Proof.
  destruct (run_call c t) as [r t'] eqn:H. simpl.
  destruct c as [|nd x|nd]; simpl in H.
  - by eapply new_iteration_static.
  - by apply add_sampling_frame in H as (? & _).
  - apply bind_inv in H as [(? & t1 & H1 & H)|(? & H1 & ?)]; [minv H|];
      by apply get_graph_paths_frame in H1 as (? & _).
Qed.

Lemma run_ok_run cs : ∀ t t', run_ok cs t = Some t' → run cs t = t'.
Proof.
  induction cs as [|c cs IH]; intros t t' H; simpl in H; [by simplify_eq|].
  change (run (c :: cs) t) with (run cs (run_call c t).2).
  destruct (run_call c t) as [[y|e] t1]; [|done]. by apply IH.
Qed.

Lemma run_static cs : ∀ t, same_static t (run cs t).
Proof.
  induction cs as [|c cs IH]; intros t; [done|].
  change (run (c :: cs) t) with (run cs (run_call c t).2).
  trans (run_call c t).2; [apply run_call_static|apply IH].
Qed.

(** An iteration in progress whose batch width, if fixed, is that of the
    decision [d] offers ready tensors that hold a 0/1 mask. *)
Lemma inv_ready t (d : list Qc) :
  inv t → is_Some (active t) →
  batch_width t = None ∨ batch_width t = Some (length d) →
  ∃ a s, ready t (length d) a s ∧ mask3 a.
Proof.
  intros (_ & Hten & _ & Hmask) [a Ha] Hw.
  unfold tensors_ok in Hten. unfold batch_width in Hw. rewrite Ha in Hten.
  destruct (sampling t) as [s|] eqn:Hs; [|done].
  destruct Hten as [[-> ->]|(b & Hb & Hn & Hsa & Hss)].
  - eexists _, _. split; [|apply mask3_zeros].
    exists [], []. split; [done|]. split; [done|]. by left.
  - assert (b = length d) as ->.
    { destruct s as [|r s']; [destruct Hss as [Hl _]; simpl in Hl; lia|].
      destruct Hw as [?|Hw]; [done|]. injection Hw as <-.
      symmetry. eapply (shaped2_lookup _ _ _ 0); [done|done]. }
    exists a, s. split; [|by apply Hmask].
    exists a, s. split; [done|]. split; [done|]. by right.
Qed.

(** Every state reached from a new recorder over a well-formed graph by
    well-formed calls that returned normally satisfies the invariant, and
    carries the graph and the index it was built with. *)
Lemma reachable_inv g dout cs t :
  wf_graph g → Forall wf_call cs → run_ok cs (init g dout) = Some t →
  inv t ∧ graph t = g ∧ node_index t = build_node_index (nodes g).
Proof.
  intros Hg Hwf Hrun. split.
  - by eapply run_ok_inv, init_inv.
  - pose proof (run_static cs (init g dout)) as Hsame.
    rewrite (run_ok_run _ _ _ Hrun) in Hsame.
    by destruct Hsame as (? & _ & _ & ? & _).
Qed.

(** * Part III: further properties of the recorder *)

(** ** The index of a new recorder *)

(** X1: in a new recorder over a topological order without repetition,
    [node_index] and [rev_node_index] are inverse to each other, every
    index is below [n_nodes], and exactly the nodes of the order are
    indexed. *)
Theorem init_index_inverse g dout :
  NoDup (nodes g) →
  (∀ nd i, node_index (init g dout) !! nd = Some i
           ↔ rev_node_index (init g dout) !! i = Some nd)
  ∧ (∀ nd i, node_index (init g dout) !! nd = Some i
             → i < n_nodes (init g dout))
  ∧ (∀ nd, node_index (init g dout) !! nd = None ↔ nd ∉ nodes g).
Proof.
  intros Hnd. simpl.
  assert (Hinv : ∀ nd i, build_node_index (nodes g) !! nd = Some i
                         ↔ nodes g !! i = Some nd).
  { intros nd i. split; [apply build_node_index_lookup|].
    intros Hi.
    destruct (build_node_index_elem (nodes g) nd) as [j Hj].
    { apply list_elem_of_lookup. by exists i. }
    pose proof (build_node_index_lookup _ _ _ Hj) as Hj'.
    by rewrite (NoDup_lookup _ _ _ _ Hnd Hi Hj'). }
  split; [done|]. split.
  - intros nd i Hi. apply Hinv in Hi. unfold number_of_nodes.
    by eapply lookup_lt_Some.
  - intros nd. split.
    + intros Hnone Hin. apply build_node_index_elem in Hin as [i Hi].
      congruence.
    + intros Hnin. destruct (build_node_index (nodes g) !! nd) as [i|] eqn:Hi;
        [|done].
      apply Hinv in Hi. destruct Hnin. apply list_elem_of_lookup. by exists i.
Qed.

Lemma init_index_inverse_witness :
  node_index (init chain None) !! "B" = Some 1
  ↔ rev_node_index (init chain None) !! 1 = Some "B".
Proof.
  refine (proj1 (init_index_inverse chain None _) "B" 1).
  apply (bool_decide_unpack _). vm_compute. exact I.
Defined.

(** ** The example graphs are well formed *)

Lemma wf_graph_edge : wf_graph edge.
Proof.
  split; [apply (bool_decide_unpack _); by vm_compute|]. split.
  - intros nd. unfold edge. simpl.
    rewrite <-elem_of_dom, !dom_insert_L, dom_empty_L.
    rewrite !elem_of_cons, elem_of_nil. set_solver.
  - intros nd ps p Hps Hp. unfold edge in Hps. simpl in Hps.
    apply lookup_insert_Some in Hps as [[_ <-]|[_ Hps]];
      [by apply elem_of_nil in Hp|].
    apply lookup_insert_Some in Hps as [[_ <-]|[_ Hps]]; [|done].
    apply list_elem_of_singleton in Hp as ->. simpl. by left.
Qed.

Lemma wf_graph_chain : wf_graph chain.
Proof.
  split; [apply (bool_decide_unpack _); by vm_compute|]. split.
  - intros nd. unfold chain. simpl.
    rewrite <-elem_of_dom, !dom_insert_L, dom_empty_L.
    rewrite !elem_of_cons, elem_of_nil. set_solver.
  - intros nd ps p Hps Hp. unfold chain in Hps. simpl in Hps.
    apply lookup_insert_Some in Hps as [[_ <-]|[_ Hps]];
      [by apply elem_of_nil in Hp|].
    apply lookup_insert_Some in Hps as [[_ <-]|[_ Hps]].
    { apply list_elem_of_singleton in Hp as ->. simpl. by left. }
    apply lookup_insert_Some in Hps as [[_ <-]|[_ Hps]]; [|done].
    apply list_elem_of_singleton in Hp as ->. simpl. right. by left.
Qed.

(** ** What a decision changes *)

(** X2: however [add_sampling] ends, it leaves the graph, the default
    output, the index and the statistics as they were. *)
Theorem add_sampling_keeps_statistics nd x t :
  same_static t (add_sampling nd x t).2
  ∧ same_stats t (add_sampling nd x t).2.
Proof.
  destruct (add_sampling nd x t) as [r t'] eqn:H. simpl.
  apply add_sampling_frame in H as (? & ? & _). by split.
Qed.

(** X3: once the tensors are sized, [add_sampling] for a node of index [i]
    changes nothing but row [i] of the active and of the sampling tensor,
    whether it returns or raises; for a node without index it changes
    nothing at all. *)
Theorem add_sampling_touches_one_row nd x t r t' a :
  add_sampling nd x t = (r, t') → active t = Some a → numel3 a ≠ 0 →
  (node_index t !! nd = None → t' = t)
  ∧ (∀ i, node_index t !! nd = Some i → only_row i t t').
Proof.
  intros H Ha Hnum. unfold add_sampling in H. minv H.
  all: simplify_eq.
  all: try (split; [done|intros; reflexivity]).
  all: match goal with
       | Hact : active ?t = Some _, Hal : allocate _ ?t = _ |- _ =>
           rewrite (allocate_noop _ _ _ Hact Hnum) in Hal; simplify_eq
       end.
  apply record_row_only_row in H as [->|(i & Hi & Hrow)].
  - split; [done|intros; reflexivity].
  - split; [congruence|]. intros j Hj. by simplify_eq.
Qed.

Lemma add_sampling_touches_one_row_witness :
  only_row 1
    (run [call_new_iteration; call_add_sampling "A" (vector [1%Qc])]
       (init edge None))
    (run [call_new_iteration; call_add_sampling "A" (vector [1%Qc]);
          call_add_sampling "B" (vector [1%Qc])] (init edge None)).
Proof.
  refine (proj2 (add_sampling_touches_one_row "B" (vector [1%Qc])
                   (run [call_new_iteration;
                         call_add_sampling "A" (vector [1%Qc])]
                      (init edge None))
                   (Ok tt) _ [[[1%Qc]; [0%Qc]]; [[0%Qc]; [0%Qc]]] _ _ _) 1 _).
  - vm_compute. reflexivity.
  - vm_compute. reflexivity.
  - vm_compute. lia.
  - vm_compute. reflexivity.
Defined.

(** X4: on sized tensors of batch width [b] in a recorder with a
    consistent index, [add_sampling] returns normally only for a decision
    of exactly [b] entries: for a decision of another width the call never
    returns normally. *)
Theorem add_sampling_width nd x t y t' a s b :
  add_sampling nd x t = (Ok y, t') →
  tensor_wf x → static_ok t →
  active t = Some a → sampling t = Some s →
  shaped3 (n_nodes t) b a → shaped2 (n_nodes t) b s →
  0 < n_nodes t → 0 < b →
  length (data x) = b.
Proof.
  intros H Hwf Hst Ha Hs Hsa Hss Hn Hb.
  unfold add_sampling in H. minv H.
  assert (Hflat : promote (squeeze x) = vector (data x)).
  { apply flat_decision; [done|]. apply dim_promote_1.
    destruct (decide (dim (promote (squeeze x)) = 1)); done. }
  rewrite Hflat in *. simplify_eq.
  match goal with
  | Hact : active ?t = Some _, Hal : allocate _ ?t = _ |- _ =>
      rewrite (allocate_noop _ _ _ Hact (numel3_shaped _ _ _ Hsa Hn Hb)) in Hal;
      simplify_eq
  end.
  match goal with
  | Hact : active ?t = Some ?a, Hrec : record_row _ _ _ ?t = _ |- _ =>
      by destruct (record_row_shape (n_nodes t) b _ _ _ _ _ _ a s Hrec)
        as (_ & _ & -> & _)
  end.
Qed.

Lemma add_sampling_width_witness :
  length (data (vector [1%Qc])) = 1.
Proof.
  refine (add_sampling_width "B" (vector [1%Qc])
            (run [call_new_iteration; call_add_sampling "A" (vector [1%Qc])]
               (init edge None))
            tt _ [[[1%Qc]; [0%Qc]]; [[0%Qc]; [0%Qc]]] [[1%Qc]; [0%Qc]] 1
            _ _ _ _ _ _ _ _ _).
  - vm_compute. reflexivity.
  - reflexivity.
  - apply (init_static_ok edge None), wf_graph_edge.
  - vm_compute. reflexivity.
  - vm_compute. reflexivity.
  - repeat split; repeat constructor.
  - repeat split; repeat constructor.
  - vm_compute. lia.
  - lia.
Defined.

(** X5: on sized tensors of batch width [b], a flat decision whose
    width is neither [b] nor one is refused by the assignment of line 72,
    before anything was changed. *)
Theorem add_sampling_width_refused nd d t a s b i :
  active t = Some a → sampling t = Some s →
  shaped3 (n_nodes t) b a → shaped2 (n_nodes t) b s → 0 < b →
  node_index t !! nd = Some i → i < n_nodes t →
  length d ≠ b → length d ≠ 1 →
  add_sampling nd (vector d) t = (Raise BroadcastError, t).
Proof.
  intros Ha Hs Hsa Hss Hb Hi Hlt Hne Hne1.
  unfold add_sampling. unfold bind at 1, gets. rewrite Ha.
  rewrite promote_squeeze_vector. simpl.
  rewrite (bind_ok _ _ _ _ _ (allocate_noop _ _ _ Ha
             (numel3_shaped _ _ _ Hsa ltac:(lia) Hb))).
  unfold record_row. unfold bind at 1. unfold bind at 1. simpl.
  rewrite Hi. simpl.
  destruct (shaped3_row _ _ _ _ Hsa Hlt) as (inc & Hinc & _).
  rewrite (bind_ok _ _ _ _ _ (read_row_ok _ _ _ _ Ha Hinc)).
  destruct (shaped2_row _ _ _ _ Hss Hlt) as (r & Hr & Hlr).
  unfold bind at 1. unfold set_sampling_row, bind at 1, gets. rewrite Hs.
  unfold bind at 1. rewrite Hr. simpl. unfold bind at 1, expand_as.
  rewrite Hlr. by rewrite !decide_False.
Qed.

Lemma add_sampling_width_refused_witness :
  add_sampling "B" (vector [1%Qc; 1%Qc; 1%Qc])
    (run [call_new_iteration; call_add_sampling "A" (vector [1%Qc; 0%Qc])]
       (init edge None))
  = (Raise BroadcastError,
     run [call_new_iteration; call_add_sampling "A" (vector [1%Qc; 0%Qc])]
       (init edge None)).
Proof.
  apply (add_sampling_width_refused "B" [1%Qc; 1%Qc; 1%Qc] _
           [[[1%Qc; 0%Qc]; [0%Qc; 0%Qc]]; [[0%Qc; 0%Qc]; [0%Qc; 0%Qc]]]
           [[1%Qc; 0%Qc]; [0%Qc; 0%Qc]] 2 1).
  - vm_compute. reflexivity.
  - vm_compute. reflexivity.
  - repeat split; repeat constructor.
  - repeat split; repeat constructor.
  - lia.
  - vm_compute. reflexivity.
  - vm_compute. lia.
  - simpl. lia.
  - simpl. lia.
Defined.

(** X6: [add_sampling] returns normally only after [new_iteration], for a
    decision with at most one dimension of size other than one and a
    first dimension that is not empty, and for a node that has an index
    and is a node of the graph. *)
Theorem add_sampling_returns_only_if nd x t y t' :
  add_sampling nd x t = (Ok y, t') →
  is_Some (active t)
  ∧ length (filter (λ n, n ≠ 1) (shape x)) ≤ 1
  ∧ size0 (promote (squeeze x)) ≠ 0
  ∧ is_Some (node_index t !! nd)
  ∧ is_Some (pred (graph t) !! nd).
Proof.
  intros H. unfold add_sampling in H. minv H.
  match goal with
  | Hal : allocate _ _ = _ |- _ =>
      apply allocate_frame in Hal as ((Hg & _ & _ & Hidx & _) & _)
  end.
  split; [by eexists|]. split.
  { change (length _) with (dim (squeeze x)). apply dim_promote_1.
    destruct (decide (dim (promote (squeeze x)) = 1)); done. }
  unfold record_row, read_row, write_row in H. minv H.
  all: match goal with
       | Hset : set_sampling_row _ _ _ = _ |- _ =>
           apply set_sampling_row_only_row in Hset
             as ((Hg' & _ & _ & _ & _) & _)
       end.
  all: split; [done|]; split; [rewrite <-Hidx; by eexists|].
  all: rewrite <-Hg, <-Hg'; by eexists.
Qed.

Lemma add_sampling_returns_only_if_witness :
  is_Some (active (run [call_new_iteration] (init edge None)))
  ∧ length (filter (λ n, n ≠ 1) (shape (vector [1%Qc]))) ≤ 1
  ∧ size0 (promote (squeeze (vector [1%Qc]))) ≠ 0
  ∧ is_Some (node_index (run [call_new_iteration] (init edge None)) !! "A")
  ∧ is_Some (pred (graph (run [call_new_iteration] (init edge None))) !! "A").
Proof.
  eapply (add_sampling_returns_only_if "A" (vector [1%Qc])
            (run [call_new_iteration] (init edge None)) tt).
  vm_compute. reflexivity.
Defined.

(** X7: on ready tensors, after [add_sampling] returned, row [i] of the
    sampled architectures is the decision and the other rows are as
    before. *)
Theorem add_sampling_stores_decision t b a s nd i ps pis d :
  ready t b a s → b ≠ 0 → length d = b →
  node_index t !! nd = Some i → i < n_nodes t →
  pred (graph t) !! nd = Some ps →
  Forall2 (λ p ip, node_index t !! p = Some ip ∧ ip < n_nodes t) ps pis →
  ∃ t' s',
    add_sampling nd (vector d) t = (Ok tt, t')
    ∧ get_sampled_architectures t' = (Ok (Some s'), t')
    ∧ s' !! i = Some d
    ∧ ∀ j, j ≠ i → s' !! j = s !! j.
Proof.
  intros Hr Hb Hd Hi Hlt Hp Hps.
  destruct (ready_shaped _ _ _ _ Hr) as [_ [Hls _]].
  eexists _, (<[i := d]> s). split.
  { apply (add_sampling_ready t b a s nd i ps pis (vector d) d);
      [apply promote_squeeze_vector|done..]. }
  split; [done|]. split.
  - apply list_lookup_insert_eq. lia.
  - intros j Hj. by apply list_lookup_insert_ne.
Qed.

Lemma add_sampling_stores_decision_witness :
  ∃ t' s',
    add_sampling "A" (vector [(1 / 2)%Qc])
      (run [call_new_iteration] (init edge None)) = (Ok tt, t')
    ∧ get_sampled_architectures t' = (Ok (Some s'), t')
    ∧ s' !! 0 = Some [(1 / 2)%Qc]
    ∧ ∀ j, j ≠ 0 → s' !! j = zeros2 2 1 !! j.
Proof.
  apply (add_sampling_stores_decision
           (run [call_new_iteration] (init edge None)) 1
           (zeros3 2 2 1) (zeros2 2 1) "A" 0 [] [] [(1 / 2)%Qc]).
  - exists [], []. repeat split. left. repeat split.
  - lia.
  - reflexivity.
  - vm_compute. reflexivity.
  - vm_compute. lia.
  - vm_compute. reflexivity.
  - constructor.
Defined.

(** X8: for a node without index, [add_sampling] with a flat decision
    raises [KeyError] at line 69, after lines 65-67: sized tensors are left
    as they were, unsized ones are left allocated and zero-filled. *)
Theorem add_sampling_unknown_node nd d t a s :
  active t = Some a → sampling t = Some s →
  node_index t !! nd = None →
  add_sampling nd (vector d) t
  = (Raise KeyError,
     if decide (numel3 a = 0 ∧ numel2 s = 0)
     then set_sampling (Some (zeros2 (n_nodes t) (length d)))
            (set_active (Some (zeros3 (n_nodes t) (n_nodes t) (length d))) t)
     else t).
Proof.
  intros Ha Hs Hi.
  unfold add_sampling. unfold bind at 1, gets. rewrite Ha.
  rewrite promote_squeeze_vector. simpl.
  change (size0 (vector d)) with (length d).
  destruct (decide (numel3 a = 0 ∧ numel2 s = 0)) as [[Hna Hns]|Hnot].
  - rewrite (bind_ok _ _ _ _ _ (allocate_fresh _ _ _ _ Ha Hs Hna Hns)).
    unfold record_row. unfold bind at 1. unfold bind at 1. simpl.
    by rewrite Hi.
  - assert (Hal : allocate (length d) t = (Ok tt, t)).
    { unfold allocate, bind, gets. rewrite Ha.
      destruct (decide (numel3 a = 0)); [|done]. rewrite Hs.
      destruct (decide (numel2 s = 0)); [|done]. by destruct Hnot. }
    rewrite (bind_ok _ _ _ _ _ Hal).
    unfold record_row. unfold bind at 1. unfold bind at 1. simpl.
    by rewrite Hi.
Qed.

Lemma add_sampling_unknown_node_witness :
  add_sampling "Z" (vector [1%Qc]) (run [call_new_iteration] (init edge None))
  = (Raise KeyError,
     set_sampling (Some (zeros2 2 1))
       (set_active (Some (zeros3 2 2 1))
          (run [call_new_iteration] (init edge None)))).
Proof.
  apply (add_sampling_unknown_node "Z" [1%Qc]
           (run [call_new_iteration] (init edge None)) [] []).
  - reflexivity.
  - reflexivity.
  - vm_compute. reflexivity.
Defined.

(** ** Live support is inherited *)

Lemma entry_shaped n b a i j k :
  shaped3 n b a → i < n → j < n → k < b → is_Some (entry a i j k).
Proof.
  intros Ha Hi Hj Hk. unfold entry.
  destruct (shaped3_row _ _ _ _ Ha Hi) as (m & -> & Hm).
  destruct (shaped2_row _ _ _ _ Hm Hj) as (r & -> & Hr).
  apply lookup_lt_is_Some_2. lia.
Qed.

Lemma entry_bounds n b a i j k x :
  shaped3 n b a → entry a i j k = Some x → i < n ∧ j < n ∧ k < b.
Proof.
  intros Ha. unfold entry.
  destruct (a !! i) as [m|] eqn:Hm; [|done].
  destruct (m !! j) as [r|] eqn:Hr; [|done]. intros Hx.
  pose proof (shaped3_lookup _ _ _ _ _ Ha Hm) as Hsm.
  pose proof (shaped2_lookup _ _ _ _ _ Hsm Hr) as Hlr.
  apply lookup_lt_Some in Hm, Hr, Hx.
  destruct Ha as [Hla _], Hsm as [Hlm _]. lia.
Qed.

Lemma entry_add_row_ne i q p (a : list (list (list Qc))) j k :
  q ≠ i → entry (add_row i a p) q j k = entry a q j k.
Proof.
  intros Hq. unfold entry, add_row. by rewrite list_lookup_insert_ne.
Qed.

Lemma entry_add_row_eq i p (a : list (list (list Qc))) j k x y :
  entry a i j k = Some x → entry a p j k = Some y →
  entry (add_row i a p) i j k = Some (x + y)%Qc.
Proof.
  unfold entry, add_row. intros Hx Hy.
  destruct (a !! i) as [mi|] eqn:Hmi; [|done].
  destruct (a !! p) as [mp|] eqn:Hmp; [|done].
  destruct (mi !! j) as [ri|] eqn:Hri; [|done].
  destruct (mp !! j) as [rp|] eqn:Hrp; [|done].
  rewrite list_lookup_insert_eq by by eapply lookup_lt_Some.
  rewrite (list_lookup_total_correct _ _ _ Hmi).
  rewrite (list_lookup_total_correct _ _ _ Hmp).
  unfold madd. rewrite lookup_zip_with, Hri. simpl. rewrite Hrp. simpl.
  unfold vadd. rewrite lookup_zip_with, Hx. simpl. by rewrite Hy.
Qed.

Lemma Qcle_plus_l x y : (0 ≤ y)%Qc → (x ≤ x + y)%Qc.
Proof.
  intros Hy. rewrite <-(Qcplus_0_r x) at 1. by apply Qcplus_le_mono_l.
Qed.

Lemma Qcle_plus_r x y : (0 ≤ x)%Qc → (y ≤ x + y)%Qc.
Proof. intros Hx. rewrite Qcplus_comm. by apply Qcle_plus_l. Qed.

Lemma nonneg3_add_row n b i p a :
  shaped3 n b a → i < n → p < n → nonneg3 a → nonneg3 (add_row i a p).
Proof.
  intros Ha Hi Hp Hnn q j k x Hx.
  destruct (decide (q = i)) as [->|Hq].
  - destruct (entry_bounds _ _ _ _ _ _ _
                (shaped3_add_row _ _ _ _ _ Ha Hi Hp) Hx) as (_ & Hj & Hk).
    destruct (entry_shaped _ _ _ i j k Ha Hi Hj Hk) as [xi Hxi].
    destruct (entry_shaped _ _ _ p j k Ha Hp Hj Hk) as [xp Hxp].
    rewrite (entry_add_row_eq _ _ _ _ _ _ _ Hxi Hxp) in Hx.
    injection Hx as <-. apply Qcplus_nonneg_nonneg; by eapply Hnn.
  - rewrite entry_add_row_ne in Hx by done. by eapply Hnn.
Qed.

(** After the loop of lines 77-78 over a tensor without negative entries,
    the row of the node is, entry by entry, at least what it was and at
    least the row of every predecessor. *)
Lemma foldl_add_row_ge n b i ps : ∀ a,
  shaped3 n b a → i < n → Forall (λ p, p < n) ps → nonneg3 a →
  nonneg3 (foldl (add_row i) a ps)
  ∧ (∀ j k x, entry a i j k = Some x →
       ∃ x', entry (foldl (add_row i) a ps) i j k = Some x' ∧ (x ≤ x')%Qc)
  ∧ (∀ p, p ∈ ps → ∀ j k x, entry a p j k = Some x →
       ∃ x', entry (foldl (add_row i) a ps) i j k = Some x' ∧ (x ≤ x')%Qc).
Proof.
  induction ps as [|p0 ps IH]; intros a Ha Hi Hps Hnn; simpl.
  - split; [done|]. split.
    + intros j k x Hx. exists x. split; [done|apply Qcle_refl].
    + intros p Hp. by apply elem_of_nil in Hp.
  - apply Forall_cons in Hps as [Hp0 Hps].
    pose proof (shaped3_add_row _ _ _ _ _ Ha Hi Hp0) as Ha1.
    pose proof (nonneg3_add_row _ _ _ _ _ Ha Hi Hp0 Hnn) as Hnn1.
    destruct (IH _ Ha1 Hi Hps Hnn1) as (Hnn' & Hown & Hpred).
    assert (Hstep : ∀ j k xi xp,
      entry a i j k = Some xi → entry a p0 j k = Some xp →
      ∃ x', entry (foldl (add_row i) (add_row i a p0) ps) i j k = Some x'
            ∧ (xi ≤ x')%Qc ∧ (xp ≤ x')%Qc).
    { intros j k xi xp Hxi Hxp.
      destruct (Hown j k _ (entry_add_row_eq _ _ _ _ _ _ _ Hxi Hxp))
        as (x' & Hx' & Hle).
      exists x'. split; [done|]. split.
      - eapply Qcle_trans; [|exact Hle]. apply Qcle_plus_l. by eapply Hnn.
      - eapply Qcle_trans; [|exact Hle]. apply Qcle_plus_r. by eapply Hnn. }
    assert (Hboth : ∀ q j k x, q < n → entry a q j k = Some x →
      ∃ xi xp, entry a i j k = Some xi ∧ entry a p0 j k = Some xp).
    { intros q j k x Hq Hx.
      destruct (entry_bounds _ _ _ _ _ _ _ Ha Hx) as (_ & Hj & Hk).
      destruct (entry_shaped _ _ _ i j k Ha Hi Hj Hk) as [xi Hxi].
      destruct (entry_shaped _ _ _ p0 j k Ha Hp0 Hj Hk) as [xp Hxp].
      by exists xi, xp. }
    split; [done|]. split.
    + intros j k x Hx.
      destruct (Hboth i j k x Hi Hx) as (xi & xp & Hxi & Hxp).
      destruct (Hstep j k xi xp Hxi Hxp) as (x' & Hx' & Hle & _).
      exists x'. split; [done|]. congruence.
    + intros p Hp j k x Hx. apply elem_of_cons in Hp as [->|Hp].
      * destruct (Hboth p0 j k x Hp0 Hx) as (xi & xp & Hxi & Hxp).
        destruct (Hstep j k xi xp Hxi Hxp) as (x' & Hx' & _ & Hle).
        exists x'. split; [done|]. congruence.
      * destruct (decide (p = i)) as [->|Hne].
        -- destruct (Hboth i j k x Hi Hx) as (xi & xp & Hxi & Hxp).
           destruct (Hstep j k xi xp Hxi Hxp) as (x' & Hx' & Hle & _).
           exists x'. split; [done|]. congruence.
        -- apply (Hpred p Hp). by rewrite entry_add_row_ne.
Qed.

Lemma mask3_nonneg3 a : mask3 a → nonneg3 a.
Proof.
  intros Ha i j k x. unfold entry.
  destruct (a !! i) as [m|] eqn:Hm; [|done].
  destruct (m !! j) as [r|] eqn:Hr; [|done]. intros Hx.
  apply is01_nonneg.
  pose proof (proj1 (Forall_lookup _ _) Ha _ _ Hm) as H2.
  pose proof (proj1 (Forall_lookup _ _) H2 _ _ Hr) as H1.
  exact (proj1 (Forall_lookup _ _) H1 _ _ Hx).
Qed.

(** Lines 82-90 where the decision is positive and the gathered row has a
    positive entry in the column: every positive entry of the column
    becomes one, and so does the diagonal. *)
Lemma prune_live n b i d inc j0 r0 x0 k y :
  shaped2 n b inc → i < n → length d = b →
  (∀ j r v, inc !! j = Some r → r !! k = Some v → (0 ≤ v)%Qc) →
  inc !! j0 = Some r0 → r0 !! k = Some x0 → (0 < x0)%Qc →
  d !! k = Some y → (0 < y)%Qc →
  ∀ j r v, inc !! j = Some r → r !! k = Some v → (0 < v)%Qc ∨ j = i →
    ∃ r', prune i d inc !! j = Some r' ∧ r' !! k = Some 1%Qc.
Proof.
  intros Hs Hi Hd Hnn Hr0 Hx0 Hpos Hy Hypos j r v Hr Hv Hlive.
  assert (Hk : k < b) by (rewrite <-Hd; by eapply lookup_lt_Some).
  destruct (max0_lookup n b inc k Hs ltac:(lia) Hk) as (h & Hh & Hub & _).
  assert (Hhpos : (0 < h)%Qc).
  { eapply Qclt_le_trans; [exact Hpos|]. exact (Hub _ _ _ Hr0 Hx0). }
  assert (Hgate : ne0 (h * y) = 1%Qc).
  { apply ne0_pos. by apply Qcmult_pos_pos. }
  assert (Hj : j < length inc) by by eapply lookup_lt_Some.
  destruct (decide (j = i)) as [->|Hne].
  - destruct (prune_entry i d inc i k (vadd r d) (v + y)%Qc h y)
      as (r' & Hr' & Hv'); [| |done|done|].
    { rewrite (list_lookup_total_correct _ _ _ Hr).
      by apply list_lookup_insert_eq. }
    { unfold vadd. rewrite lookup_zip_with, Hv. simpl. by rewrite Hy. }
    exists r'. split; [done|]. rewrite Hv', Hgate, Qcmult_1_r.
    f_equal. apply ne0_pos. apply Qcplus_nonneg_pos; [exact (Hnn _ _ _ Hr Hv)|done].
  - destruct Hlive as [Hvpos|?]; [|done].
    destruct (prune_entry i d inc j k r v h y)
      as (r' & Hr' & Hv'); [|done..|].
    { by rewrite list_lookup_insert_ne. }
    exists r'. split; [done|]. rewrite Hv', Hgate, Qcmult_1_r.
    f_equal. by apply ne0_pos.
Qed.

Lemma entry_Some (a : cube) i j k x :
  entry a i j k = Some x ↔
  ∃ m r, a !! i = Some m ∧ m !! j = Some r ∧ r !! k = Some x.
Proof.
  unfold entry. split.
  - destruct (a !! i) as [m|] eqn:Hm; [|done].
    destruct (m !! j) as [r|] eqn:Hr; [|done]. intros H. by exists m, r.
  - intros (m & r & -> & -> & ->). done.
Qed.

(** Lines 74-90 for a node with a live predecessor and a positive
    decision. *)
Lemma propagate_live n b a i pis d p j k x y :
  shaped3 n b a → nonneg3 a → i < n → length d = b →
  Forall (λ q, q < n) pis → p ∈ pis →
  entry a p j k = Some x → (0 < x)%Qc →
  d !! k = Some y → (0 < y)%Qc →
  entry (propagate i pis d a) i j k = Some 1%Qc
  ∧ entry (propagate i pis d a) i i k = Some 1%Qc.
Proof.
  intros Ha Hnn Hi Hd Hpis Hp Hx Hxpos Hy Hypos.
  assert (Hne : length pis ≠ 0).
  { destruct pis; [by apply elem_of_nil in Hp|done]. }
  assert (Hia : i < length a) by (destruct Ha as [Hl _]; lia).
  unfold entry at 1 2. rewrite propagate_lookup_eq by done.
  unfold gather. rewrite decide_False by done.
  destruct (foldl_add_row_ge n b i pis a Ha Hi Hpis Hnn)
    as (Hnn' & _ & Hpred).
  destruct (Hpred p Hp j k x Hx) as (x' & Hx' & Hle).
  pose proof (shaped3_foldl_add_row n b i pis a Ha Hi Hpis) as Hsg.
  set (g := foldl (add_row i) a pis) in *.
  apply entry_Some in Hx' as (inc & rj & Hinc & Hrj & Hxj).
  rewrite (list_lookup_total_correct _ _ _ Hinc).
  pose proof (shaped3_lookup _ _ _ _ _ Hsg Hinc) as Hsinc.
  destruct (shaped2_row _ _ _ _ Hsinc Hi) as (ri & Hri & Hlri).
  assert (Hk : k < b) by (rewrite <-Hd; by eapply lookup_lt_Some).
  destruct (lookup_lt_is_Some_2 ri k) as [xi Hxi]; [lia|].
  assert (Hx'pos : (0 < x')%Qc) by exact (Qclt_le_trans _ _ _ Hxpos Hle).
  assert (Hrow : ∀ j r v, inc !! j = Some r → r !! k = Some v → (0 ≤ v)%Qc).
  { intros j' r v Hr Hv. apply (Hnn' i j' k). apply entry_Some. eauto. }
  split.
  - destruct (prune_live n b i d inc j rj x' k y Hsinc Hi Hd Hrow Hrj Hxj
                Hx'pos Hy Hypos j rj x' Hrj Hxj) as (r' & -> & ->); auto.
  - destruct (prune_live n b i d inc j rj x' k y Hsinc Hi Hd Hrow Hrj Hxj
                Hx'pos Hy Hypos i ri xi Hri Hxi) as (r' & -> & ->); auto.
Qed.

(** X9: a node keeps what reaches it. When a predecessor of the node has a
    one at entry (j, k) of its row and the decision of the node is positive
    at batch element k, the recorded row of the node has a one at (j, k)
    and a one on its own diagonal at k. *)
Theorem add_sampling_inherits_support t b a s nd i ps pis d p j k y :
  ready t b a s → mask3 a → length d = b →
  node_index t !! nd = Some i → i < n_nodes t →
  pred (graph t) !! nd = Some ps →
  Forall2 (λ q iq, node_index t !! q = Some iq ∧ iq < n_nodes t) ps pis →
  p ∈ pis → entry a p j k = Some 1%Qc →
  d !! k = Some y → (0 < y)%Qc →
  ∃ t' a',
    add_sampling nd (vector d) t = (Ok tt, t')
    ∧ active t' = Some a'
    ∧ entry a' i j k = Some 1%Qc
    ∧ entry a' i i k = Some 1%Qc.
Proof.
  intros Hr Hm Hd Hi Hlt Hp Hps Hin He Hy Hypos.
  destruct (ready_shaped _ _ _ _ Hr) as [Hsa Hss].
  assert (Hpis : Forall (λ q, q < n_nodes t) pis).
  { clear -Hps. induction Hps as [|???? [_ ?]]; by constructor. }
  assert (Hb : b ≠ 0).
  { apply lookup_lt_Some in Hy. lia. }
  eexists _, _. split.
  { by apply (add_sampling_ready t b a s nd i ps pis (vector d) d);
      [apply promote_squeeze_vector|..]. }
  split; [reflexivity|].
  by apply (propagate_live (n_nodes t) b a i pis d p j k 1%Qc y);
    [|apply mask3_nonneg3|..].
Qed.

Lemma add_sampling_inherits_support_witness :
  ∃ t' a',
    add_sampling "B" (vector [1%Qc])
      (run [call_new_iteration; call_add_sampling "A" (vector [1%Qc])]
         (init edge None))
    = (Ok tt, t')
    ∧ active t' = Some a'
    ∧ entry a' 1 0 0 = Some 1%Qc
    ∧ entry a' 1 1 0 = Some 1%Qc.
Proof.
  apply (add_sampling_inherits_support
           (run [call_new_iteration; call_add_sampling "A" (vector [1%Qc])]
              (init edge None))
           1 [[[1%Qc]; [0%Qc]]; [[0%Qc]; [0%Qc]]] [[1%Qc]; [0%Qc]]
           "B" 1 ["A"] [0] [1%Qc] 0 0 0 1%Qc).
  - eexists _, _. split; [vm_compute; reflexivity|].
    split; [vm_compute; reflexivity|]. right.
    split; [reflexivity|]. split; [reflexivity|].
    split; repeat constructor.
  - repeat first [apply Forall_nil_2 | apply Forall_cons_2
                 | by left | by right].
  - reflexivity.
  - vm_compute. reflexivity.
  - vm_compute. lia.
  - vm_compute. reflexivity.
  - repeat constructor.
  - apply list_elem_of_here.
  - reflexivity.
  - reflexivity.
  - reflexivity.
Defined.

(** ** The estimate stays between zero and one *)

Lemma unit01_0 : unit01 0%Qc.
Proof. by split. Qed.

Lemma unit01_1 : unit01 1%Qc.
Proof. by split. Qed.

Lemma is01_unit x : is01 x → unit01 x.
Proof. intros [->| ->]; by split. Qed.

Lemma Qcle_0_minus x y : (x ≤ y)%Qc → (0 ≤ y - x)%Qc.
Proof.
  intros H. apply (proj1 (Qcplus_le_mono_r x y (- x))) in H.
  by rewrite Qcplus_opp_r in H.
Qed.

(** A convex combination of two numbers of the unit interval lies in it. *)
Lemma unit01_mix c x y :
  unit01 c → unit01 x → unit01 y → unit01 (x + c * (y - x))%Qc.
Proof.
  intros [Hc0 Hc1] [Hx0 Hx1] [Hy0 Hy1].
  pose proof (Qcle_0_minus _ _ Hc1) as Hc'.
  replace (x + c * (y - x))%Qc with ((1 - c) * x + c * y)%Qc by ring.
  split.
  - apply Qcplus_nonneg_nonneg; by apply Qcmult_nonneg_nonneg.
  - assert (H : ((1 - c) * x + c * y ≤ (1 - c) * 1 + c * 1)%Qc)
      by (apply Qcplus_le_compat; by apply Qcmult_le_mono_nonneg_l).
    by replace ((1 - c) * 1 + c * 1)%Qc with 1%Qc in H by ring.
Qed.

Lemma Qc_of_nat_pos k : k ≠ 0 → (0 < Qc_of_nat k)%Qc.
Proof.
  intros Hk. unfold Qc_of_nat. rewrite <-Z2Qc_inj_0.
  apply (proj1 (Z2Qc_inj_lt 0 (Z.of_nat k))). lia.
Qed.

Lemma Qc_of_nat_nonneg k : (0 ≤ Qc_of_nat k)%Qc.
Proof.
  unfold Qc_of_nat. rewrite <-Z2Qc_inj_0.
  apply (proj1 (Z2Qc_inj_le 0 (Z.of_nat k))). lia.
Qed.

(** A quotient [x / k] with [0 ≤ x ≤ k] lies in the unit interval. *)
Lemma unit01_quotient x k :
  k ≠ 0 → (0 ≤ x)%Qc → (x ≤ Qc_of_nat k)%Qc → unit01 (x / Qc_of_nat k)%Qc.
Proof.
  intros Hk Hx0 Hxk. pose proof (Qc_of_nat_pos k Hk) as Hpos.
  pose proof (Qcinv_pos _ Hpos) as Hinv. unfold Qcdiv. split.
  - apply Qcmult_nonneg_nonneg; [done|]. by apply Qclt_le_weak.
  - apply (Qcmult_le_mono_pos_r _ _ (Qc_of_nat k) Hpos).
    rewrite <-Qcmult_assoc, (Qcmult_comm (/ _)), Qcmult_inv_r, Qcmult_1_r,
      Qcmult_1_l; [done|]. by apply Qc_of_nat_nonzero.
Qed.

Lemma unit01_inv_nat k : k ≠ 0 → unit01 (1 / Qc_of_nat k)%Qc.
Proof.
  intros Hk. apply unit01_quotient; [done..|].
  unfold Qc_of_nat. rewrite <-Z2Qc_inj_1.
  apply (proj1 (Z2Qc_inj_le 1 (Z.of_nat k))). lia.
Qed.

Lemma Qcsum_mask (r : list Qc) :
  Forall is01 r → (0 ≤ Qcsum r)%Qc ∧ (Qcsum r ≤ Qc_of_nat (length r))%Qc.
Proof.
  induction 1 as [|x r Hx Hr [IH0 IH1]]; simpl.
  - split; [done|]. apply Qc_of_nat_nonneg.
  - destruct (is01_unit _ Hx) as [Hx0 Hx1]. split.
    + by apply Qcplus_nonneg_nonneg.
    + rewrite Qc_of_nat_S, (Qcplus_comm x). by apply Qcplus_le_compat.
Qed.

(** The mean of a row of zeros and ones over a batch that is not empty. *)
Lemma mean_unit (r : list Qc) : r ≠ [] → Forall is01 r → unit01 (mean r).
Proof.
  intros Hne Hr. destruct (Qcsum_mask r Hr) as [H0 H1].
  apply unit01_quotient; [by destruct r|done..].
Qed.

Lemma fold_mean_unit (g : list Qc) k (m : list Qc) :
  k ≠ 0 → Forall unit01 g → Forall unit01 m → Forall unit01 (fold_mean g k m).
Proof.
  intros Hk Hg. revert m. unfold fold_mean, vadd.
  induction Hg as [|x g Hx Hg IH]; intros m Hm; [constructor|].
  destruct Hm as [|y m Hy Hm]; simpl; [constructor|].
  constructor; [|by apply IH].
  apply unit01_mix; [by apply unit01_inv_nat|done..].
Qed.

(** Line 38 on a matrix of zeros and ones whose rows are not empty. *)
Lemma mean1_unit (u : list (list Qc)) :
  mask2 u → Forall (λ r, r ≠ []) u → Forall unit01 (mean1 u).
Proof.
  intros Hu Hne. unfold mean1. apply Forall_fmap.
  apply Forall_forall. intros r Hr. simpl.
  apply mean_unit.
  - by apply (proj1 (Forall_forall _ _) Hne).
  - by apply (proj1 (Forall_forall _ _) Hu).
Qed.

Lemma update_global_sampling_unit u t x t' :
  update_global_sampling u t = (Ok x, t') →
  mask2 u → Forall (λ r : list Qc, r ≠ []) u →
  length u = n_nodes t → stats_ok t → stats_unit t → stats_unit t'.
Proof.
  intros H Hu Hne Hlen Hok Hunit. destruct x.
  destruct (global_sampling t) as [g|] eqn:Hg.
  - rewrite (update_global_sampling_next t g u Hg) in H
      by (rewrite (Hok g Hg); done).
    injection H as <-. intros g' Hg'. simpl in Hg'. injection Hg' as <-.
    apply fold_mean_unit; [done|by apply Hunit|by apply mean1_unit].
  - rewrite (update_global_sampling_first t u Hg) in H.
    injection H as <-. intros g' Hg'. simpl in Hg'. injection Hg' as <-.
    by apply mean1_unit.
Qed.

(** A row of a sized active tensor, as the estimate update needs it. *)
Lemma inv_row t a i m :
  inv t → active t = Some a → a !! i = Some m →
  mask2 m ∧ Forall (λ r : list Qc, r ≠ []) m ∧ length m = n_nodes t.
Proof.
  intros (_ & Hten & _ & Hmask) Ha Hm.
  split; [|split].
  - exact (proj1 (Forall_lookup _ _) (Hmask a Ha) _ _ Hm).
  - unfold tensors_ok in Hten. rewrite Ha in Hten.
    destruct (sampling t); [|done].
    destruct Hten as [[-> _]|(b & Hb & _ & Hsa & _)]; [done|].
    destruct (shaped3_lookup _ _ _ _ _ Hsa Hm) as [_ Hrows].
    eapply Forall_impl; [exact Hrows|]. simpl. intros r Hr ->.
    simpl in Hr. lia.
  - by eapply tensors_ok_row.
Qed.

Lemma new_iteration_unit t y t' :
  new_iteration t = (Ok y, t') → inv t → stats_unit t → stats_unit t'.
Proof.
  intros H Hinv Hunit. unfold new_iteration in H. minv H.
  2-3: done.
  match goal with
  | Hp : get_pruned_architecture _ _ = (Ok ?m, ?t1),
    Hu : update_global_sampling ?m ?t1 = (Ok ?z, ?t2) |- _ =>
      pose proof (get_pruned_architecture_pure _ _ _ _ Hp) as ->;
      destruct (get_pruned_architecture_row _ _ _ _ Hp)
        as (a & i & Hact & _ & Hrow);
      destruct (inv_row _ _ _ _ Hinv Hact Hrow) as (Hmask & Hne & Hlen);
      destruct Hinv as (_ & _ & Hok & _);
      pose proof (update_global_sampling_unit _ _ _ _ Hu Hmask Hne Hlen Hok
                    Hunit) as Hunit'
  end.
  intros g Hg. simpl in Hg. by apply Hunit'.
Qed.

Lemma get_graph_paths_unit nd t y t' :
  get_graph_paths nd t = (Ok y, t') → inv t → stats_unit t → stats_unit t'.
Proof.
  intros H Hinv Hunit.
  unfold get_graph_paths, get_architectures, get_sampled_architectures,
    get_used_nodes in H. minv H.
  match goal with
  | Hp : get_pruned_architecture _ _ = (Ok ?m, ?t1),
    Hu : update_global_sampling ?m ?t1 = (Ok ?z, ?t2) |- _ =>
      pose proof (get_pruned_architecture_pure _ _ _ _ Hp) as ->;
      destruct (get_pruned_architecture_row _ _ _ _ Hp)
        as (a & i & Hact & _ & Hrow);
      destruct (inv_row _ _ _ _ Hinv Hact Hrow) as (Hmask & Hne & Hlen);
      destruct Hinv as (_ & _ & Hok & _);
      exact (update_global_sampling_unit _ _ _ _ Hu Hmask Hne Hlen Hok Hunit)
  end.
Qed.

Lemma run_call_unit c t y t' :
  run_call c t = (Ok y, t') → inv t → stats_unit t → stats_unit t'.
Proof.
  destruct c as [|nd x|nd]; simpl; intros H Hinv Hunit.
  - by eapply new_iteration_unit.
  - apply add_sampling_frame in H as (_ & [Hg _] & _).
    intros g Hg'. apply Hunit. congruence.
  - minv H. by eapply get_graph_paths_unit.
Qed.

Lemma run_ok_unit cs : ∀ t t',
  run_ok cs t = Some t' → Forall wf_call cs → inv t → stats_unit t →
  stats_unit t'.
Proof.
  induction cs as [|c cs IH]; intros t t' H Hwf Hinv Hunit; simpl in H.
  - by simplify_eq.
  - apply Forall_cons in Hwf as [Hc Hcs].
    destruct (run_call c t) as [[y|e] t1] eqn:Hrun; [|done].
    eapply IH; [done..| |].
    + by eapply run_call_inv.
    + by eapply run_call_unit.
Qed.

(** X10: every estimate a recorder ever holds is a vector of frequencies.
    After any history of calls that returned normally, on a recorder built
    over a well-formed graph, the estimate has one entry per node and every
    entry lies between zero and one. *)
Theorem estimate_is_frequency g dout cs t gs :
  wf_graph g → Forall wf_call cs →
  run_ok cs (init g dout) = Some t →
  global_sampling t = Some gs →
  length gs = number_of_nodes g
  ∧ Forall (λ x, (0 ≤ x)%Qc ∧ (x ≤ 1)%Qc) gs.
Proof.
  intros Hg Hwf Hrun Hgs.
  pose proof (init_inv g dout Hg) as Hinv0.
  pose proof (run_ok_inv _ _ _ Hrun Hwf Hinv0) as (_ & _ & Hok & _).
  assert (Hunit0 : stats_unit (init g dout)) by (intros ? ?; done).
  pose proof (run_ok_unit _ _ _ Hrun Hwf Hinv0 Hunit0) as Hunit.
  split; [|by apply Hunit].
  rewrite (Hok gs Hgs).
  pose proof (run_static cs (init g dout)) as (_ & _ & Hn & _).
  rewrite <-(run_ok_run _ _ _ Hrun). by rewrite Hn.
Qed.

Lemma estimate_is_frequency_witness :
  length (mean1 [[1%Qc; 0%Qc]; [1%Qc; 0%Qc]]) = number_of_nodes edge
  ∧ Forall (λ x, (0 ≤ x)%Qc ∧ (x ≤ 1)%Qc)
      (mean1 [[1%Qc; 0%Qc]; [1%Qc; 0%Qc]]).
Proof.
  apply (estimate_is_frequency edge (Some "B")
           [call_new_iteration;
            call_add_sampling "A" (vector [1%Qc; 1%Qc]);
            call_add_sampling "B" (vector [1%Qc; 0%Qc]);
            call_new_iteration]
           (run [call_new_iteration;
                 call_add_sampling "A" (vector [1%Qc; 1%Qc]);
                 call_add_sampling "B" (vector [1%Qc; 0%Qc]);
                 call_new_iteration] (init edge (Some "B")))).
  - exact wf_graph_edge.
  - repeat constructor.
  - vm_compute. reflexivity.
  - vm_compute. reflexivity.
Defined.

(** ** What a failing call leaves behind *)

(** On a consistent recorder the update of the estimate goes through for
    any matrix with one row per node. *)
Lemma update_global_sampling_ok t u :
  stats_ok t → length u = n_nodes t →
  ∃ t', update_global_sampling u t = (Ok tt, t')
        ∧ n_samplings t' = S (n_samplings t).
Proof.
  intros Hok Hlen. destruct (global_sampling t) as [g|] eqn:Hg.
  - eexists. split.
    + apply update_global_sampling_next; [done|]. by rewrite (Hok g Hg).
    + reflexivity.
  - eexists. split.
    + by apply update_global_sampling_first.
    + reflexivity.
Qed.

Lemma get_pruned_architecture_KeyError t nd :
  node_index t !! nd = None →
  get_pruned_architecture nd t = (Raise KeyError, t).
Proof.
  intros Hi. unfold get_pruned_architecture, bind, gets. by rewrite Hi.
Qed.

Lemma get_pruned_architecture_TypeError t nd i :
  node_index t !! nd = Some i → active t = None →
  get_pruned_architecture nd t = (Raise TypeError, t).
Proof.
  intros Hi Ha. unfold get_pruned_architecture, read_row, bind, gets.
  rewrite Hi. simpl. by rewrite Ha.
Qed.

Lemma get_pruned_architecture_IndexError t nd i a :
  node_index t !! nd = Some i → active t = Some a → a !! i = None →
  get_pruned_architecture nd t = (Raise IndexError, t).
Proof.
  intros Hi Ha Hrow. unfold get_pruned_architecture, read_row, bind, gets.
  rewrite Hi. simpl. rewrite Ha. simpl. by rewrite Hrow.
Qed.

Lemma new_iteration_raises t out a e :
  default_out t = Some out → active t = Some a →
  get_pruned_architecture out t = (Raise e, t) →
  new_iteration t = (Raise e, t).
Proof.
  intros Hd Ha Hget. unfold new_iteration.
  unfold bind at 1. unfold bind at 1, gets. rewrite Hd.
  unfold bind at 1. rewrite Ha.
  unfold bind at 1. by rewrite Hget.
Qed.

(** On a consistent recorder, a row of the active tensor is there for
    every indexed node unless the tensors are unsized. *)
Lemma inv_active_row t a nd i :
  inv t → active t = Some a → node_index t !! nd = Some i →
  a = [] ∨ ∃ m, a !! i = Some m.
Proof.
  intros (Hst & Hten & _ & _) Ha Hi.
  pose proof (static_ok_index _ _ _ Hst Hi) as Hlt.
  unfold tensors_ok in Hten. rewrite Ha in Hten.
  destruct (sampling t); [|done].
  destruct Hten as [[-> _]|(b & _ & _ & Hsa & _)]; [by left|right].
  destruct (shaped3_row _ _ _ _ Hsa Hlt) as (m & Hm & _). by exists m.
Qed.

(** X11: [new_iteration] on a consistent recorder either returns, with
    both tensors reset to the empty tensor, the index untouched and the
    counter incremented exactly when a default output is configured and an
    iteration was open; or it raises [KeyError] (the default output has no
    index) or [IndexError] (nothing was recorded since the last reset) and
    then leaves the recorder exactly as it was. *)
Theorem new_iteration_outcome t r t' :
  inv t → new_iteration t = (r, t') →
  match r with
  | Ok _ =>
      active t' = Some [] ∧ sampling t' = Some [] ∧ same_static t t'
      ∧ n_samplings t'
        = n_samplings t
          + (if decide (is_Some (default_out t) ∧ is_Some (active t))
             then 1 else 0)
  | Raise e =>
      t' = t
      ∧ ∃ out a, default_out t = Some out ∧ active t = Some a
          ∧ ((e = KeyError ∧ node_index t !! out = None)
             ∨ (e = IndexError ∧ is_Some (node_index t !! out) ∧ a = []))
  end.
Proof.
  intros Hinv H.
  destruct (default_out t) as [out|] eqn:Hd; [destruct (active t) as [a|] eqn:Ha|].
  - destruct (node_index t !! out) as [i|] eqn:Hi.
    + destruct (inv_active_row _ _ _ _ Hinv Ha Hi) as [->|[m Hm]].
      * rewrite (new_iteration_empty _ _ _ Hd Ha Hi) in H.
        injection H as <- <-. split; [done|]. exists out, [].
        repeat split; try done. right. by repeat split.
      * destruct (inv_row _ _ _ _ Hinv Ha Hm) as (_ & _ & Hlen).
        destruct Hinv as (_ & _ & Hok & _).
        destruct (update_global_sampling_ok t m Hok Hlen) as (t1 & Hupd & Hn).
        rewrite (new_iteration_flush _ _ _ _ _ _ Hd Ha Hi Hm Hupd) in H.
        injection H as <- <-. simpl.
        apply update_global_sampling_frame in Hupd as (Hsame & _).
        try rewrite decide_True by (split; by eexists).
        repeat split; try done; try apply Hsame; try lia.
    + rewrite (new_iteration_raises _ _ _ _ Hd Ha
                 (get_pruned_architecture_KeyError _ _ Hi)) in H.
      injection H as <- <-. split; [done|]. exists out, a.
      repeat split; try done. by left.
  - rewrite new_iteration_skip in H by by right.
    injection H as <- <-. simpl.
    try rewrite decide_False by (intros [_ [? ?]]; done).
    repeat split; try done; try lia.
  - rewrite new_iteration_skip in H by by left.
    injection H as <- <-. simpl.
    try rewrite decide_False by (intros [[? ?] _]; done).
    repeat split; try done; try lia.
Qed.

Lemma new_iteration_outcome_witness :
  run [call_new_iteration] (init chain (Some "C"))
  = run [call_new_iteration] (init chain (Some "C"))
  ∧ ∃ out a,
      default_out (run [call_new_iteration] (init chain (Some "C"))) = Some out
      ∧ active (run [call_new_iteration] (init chain (Some "C"))) = Some a
      ∧ ((IndexError = KeyError
          ∧ node_index (run [call_new_iteration] (init chain (Some "C")))
              !! out = None)
         ∨ (IndexError = IndexError
            ∧ is_Some (node_index
                         (run [call_new_iteration] (init chain (Some "C")))
                         !! out)
            ∧ a = [])).
Proof.
  apply (new_iteration_outcome
           (run [call_new_iteration] (init chain (Some "C")))
           (Raise IndexError)
           (run [call_new_iteration] (init chain (Some "C")))).
  - apply (run_ok_inv [call_new_iteration] (init chain (Some "C"))).
    + vm_compute. reflexivity.
    + repeat constructor.
    + apply init_inv. exact wf_graph_chain.
  - vm_compute. reflexivity.
Defined.

(** X12: when [get_graph_paths] fails on a consistent recorder, it has
    changed nothing, and the exception tells why: [KeyError] for a node
    without index, [TypeError] before the first [new_iteration],
    [IndexError] when nothing was recorded since the last reset. *)
Theorem get_graph_paths_failure nd t e t' :
  inv t → get_graph_paths nd t = (Raise e, t') →
  t' = t
  ∧ ((e = KeyError ∧ node_index t !! nd = None)
     ∨ (e = TypeError ∧ is_Some (node_index t !! nd) ∧ active t = None)
     ∨ (e = IndexError ∧ is_Some (node_index t !! nd) ∧ active t = Some [])).
Proof.
  intros Hinv H.
  assert (Hfail : ∀ e0, get_pruned_architecture nd t = (Raise e0, t) →
                        get_graph_paths nd t = (Raise e0, t)).
  { intros e0 Hget. unfold get_graph_paths, get_architectures,
      get_sampled_architectures.
    unfold bind at 1. unfold bind at 1. unfold bind at 1. unfold gets at 1.
    unfold bind at 1. by rewrite Hget. }
  destruct (node_index t !! nd) as [i|] eqn:Hi.
  - destruct (active t) as [a|] eqn:Ha.
    + destruct (inv_active_row _ _ _ _ Hinv Ha Hi) as [->|[m Hm]].
      * rewrite (Hfail _ (get_pruned_architecture_IndexError _ _ _ _ Hi Ha
                            eq_refl)) in H.
        injection H as <- <-. split; [done|]. right. right. by repeat split.
      * exfalso. destruct Hinv as (Hst & Hten & Hok & _).
        pose proof (static_ok_index _ _ _ Hst Hi) as Hlt.
        unfold tensors_ok in Hten. rewrite Ha in Hten.
        destruct (sampling t) as [s|] eqn:Hs; [|done].
        destruct Hten as [[-> _]|(b & _ & _ & Hsa & Hss)]; [done|].
        destruct (get_graph_paths_returns t a s b nd i Ha Hs Hsa Hss
                    (proj1 Hst) Hi Hlt Hok)
          as (? & ? & ? & ? & _ & Hret & _).
        congruence.
    + rewrite (Hfail _ (get_pruned_architecture_TypeError _ _ _ Hi Ha)) in H.
      injection H as <- <-. split; [done|]. right. left. by repeat split.
  - rewrite (Hfail _ (get_pruned_architecture_KeyError _ _ Hi)) in H.
    injection H as <- <-. split; [done|]. by left.
Qed.

Lemma get_graph_paths_failure_witness :
  init chain None = init chain None
  ∧ ((TypeError = KeyError ∧ node_index (init chain None) !! "C" = None)
     ∨ (TypeError = TypeError
        ∧ is_Some (node_index (init chain None) !! "C")
        ∧ active (init chain None) = None)
     ∨ (TypeError = IndexError
        ∧ is_Some (node_index (init chain None) !! "C")
        ∧ active (init chain None) = Some [])).
Proof.
  apply (get_graph_paths_failure "C" (init chain None) TypeError
           (init chain None)).
  - apply init_inv. exact wf_graph_chain.
  - vm_compute. reflexivity.
Defined.

(** ** Paths: from a 0/1 vector to the nodes it marks *)

Lemma imap_shift {A} (o : nat) (l : list A) :
  imap ((λ i x, (o + i, x)) ∘ S) l = imap (λ i x, (S o + i, x)) l.
Proof. apply imap_ext. intros i x _. simpl. f_equal. lia. Qed.

(** The comprehension of lines 100 and 109 over the entries from position
    [o] on: it yields the marked nodes in the order of the index, and
    fails exactly when a marked position has no node. *)
Lemma path_from_spec (rev : list node) (arch : list Qc) : ∀ o,
  match mapM (λ q : nat * Qc, rev !! q.1)
          (filter (λ q : nat * Qc, q.2 = 1%Qc) (imap (λ i x, (o + i, x)) arch))
  with
  | Some p =>
      sublist p (drop o rev)
      ∧ ∀ nd, nd ∈ p ↔ ∃ j, arch !! j = Some 1%Qc ∧ rev !! (o + j) = Some nd
  | None => ∃ j, arch !! j = Some 1%Qc ∧ length rev ≤ o + j
  end.
Proof.
  induction arch as [|x arch IH]; intros o.
  - simpl. split; [apply sublist_nil_l|].
    intros nd. split; [by intros ?%elem_of_nil|by intros (j & ? & _)].
  - rewrite imap_cons, imap_shift, filter_cons. simpl.
    rewrite Nat.add_0_r. specialize (IH (S o)).
    destruct (decide (x = 1%Qc)) as [->|Hx].
    + csimpl. destruct (rev !! o) as [nd0|] eqn:Hrev; csimpl.
      * destruct (mapM _ _) as [p|]; csimpl.
        -- destruct IH as [Hsub Hin]. split.
           { rewrite (drop_S _ _ _ Hrev). by apply sublist_skip. }
           intros nd. rewrite elem_of_cons, Hin. split.
           ++ intros [->|(j & Hj & Hnd)].
              ** exists 0. by rewrite Nat.add_0_r.
              ** exists (S j). by rewrite Nat.add_succ_r.
           ++ intros ([|j] & Hj & Hnd).
              ** left. rewrite Nat.add_0_r in Hnd. congruence.
              ** right. exists j. by rewrite Nat.add_succ_r in Hnd.
        -- destruct IH as (j & Hj & Hle). exists (S j).
           split; [done|]. lia.
      * exists 0. split; [done|]. apply lookup_ge_None in Hrev. lia.
    + destruct (mapM _ _) as [p|].
      * destruct IH as [Hsub Hin]. split.
        { destruct (rev !! o) as [nd0|] eqn:Hrev.
          - rewrite (drop_S _ _ _ Hrev). by apply sublist_cons.
          - apply lookup_ge_None in Hrev.
            rewrite drop_ge in Hsub by lia. by rewrite drop_ge by lia. }
        intros nd. rewrite Hin. split.
        -- intros (j & Hj & Hnd). exists (S j). by rewrite Nat.add_succ_r.
        -- intros ([|j] & Hj & Hnd); simpl in Hj; [congruence|].
           exists j. by rewrite Nat.add_succ_r in Hnd.
      * destruct IH as (j & Hj & Hle). exists (S j). split; [done|]. lia.
Qed.

Lemma path_of_spec (rev : list node) (arch : list Qc) :
  match path_of rev arch with
  | Some p =>
      sublist p rev
      ∧ ∀ nd, nd ∈ p ↔ ∃ j, arch !! j = Some 1%Qc ∧ rev !! j = Some nd
  | None => ∃ j, arch !! j = Some 1%Qc ∧ length rev ≤ j
  end.
Proof.
  pose proof (path_from_spec rev arch 0) as H. unfold path_of.
  replace (imap pair arch) with (imap (λ i x, (0 + i, x)) arch)
    by by apply imap_ext.
  by rewrite drop_0 in H.
Qed.

(** Where the comprehension goes through, every marked position has a
    node. *)
Lemma path_from_bound (rev : list node) (arch : list Qc) : ∀ o p,
  mapM (λ q : nat * Qc, rev !! q.1)
    (filter (λ q : nat * Qc, q.2 = 1%Qc) (imap (λ i x, (o + i, x)) arch))
  = Some p →
  ∀ j, arch !! j = Some 1%Qc → o + j < length rev.
Proof.
  induction arch as [|x arch IH]; intros o p Hp j Hj; [done|].
  rewrite imap_cons, imap_shift, filter_cons in Hp. simpl in Hp.
  rewrite Nat.add_0_r in Hp.
  destruct (decide (x = 1%Qc)) as [->|Hx].
  - csimpl in Hp. destruct (rev !! o) as [nd0|] eqn:Hrev; [|done].
    csimpl in Hp. destruct (mapM _ _) as [p'|] eqn:Hp'; [|done].
    destruct j as [|j].
    + apply lookup_lt_Some in Hrev. lia.
    + simpl in Hj. pose proof (IH (S o) p' Hp' j Hj). lia.
  - destruct j as [|j]; simpl in Hj; [congruence|].
    pose proof (IH (S o) p Hp j Hj). lia.
Qed.

Lemma path_of_bound (rev : list node) (arch : list Qc) p :
  path_of rev arch = Some p →
  ∀ j, arch !! j = Some 1%Qc → j < length rev.
Proof.
  unfold path_of. intros Hp j Hj.
  replace (imap pair arch) with (imap (λ i x, (0 + i, x)) arch) in Hp
    by by apply imap_ext.
  exact (path_from_bound rev arch 0 p Hp j Hj).
Qed.

(** X13: [get_used_nodes] reads and never writes. It returns exactly when
    every one of every architecture sits at a position of the index, and
    the k-th list then holds exactly the nodes whose position carries a
    one in the k-th architecture, in the order of the index; it raises
    [IndexError] exactly when some architecture carries a one at a
    position beyond the index. *)
Theorem get_used_nodes_spec archs t r t' :
  get_used_nodes archs t = (r, t') →
  t' = t
  ∧ match r with
    | Ok res =>
        (∀ arch j, arch ∈ archs → arch !! j = Some 1%Qc →
                   j < length (rev_node_index t))
        ∧ Forall2 (λ (arch : list Qc) p,
                     sublist p (rev_node_index t)
                     ∧ ∀ nd, nd ∈ p ↔
                         ∃ j, arch !! j = Some 1%Qc
                              ∧ rev_node_index t !! j = Some nd)
                  archs res
    | Raise e =>
        e = IndexError
        ∧ ∃ arch j, arch ∈ archs ∧ arch !! j = Some 1%Qc
                    ∧ length (rev_node_index t) ≤ j
    end
  ∧ ((∃ e, r = Raise e) ↔
     ∃ arch j, arch ∈ archs ∧ arch !! j = Some 1%Qc
               ∧ length (rev_node_index t) ≤ j).
Proof.
  intros H. unfold get_used_nodes, bind, gets in H.
  destruct (mapM (path_of (rev_node_index t)) archs) as [res|] eqn:Hres;
    simpl in H; injection H as <- <-; (split; [done|]).
  - apply mapM_Some in Hres.
    assert (Hbound : ∀ arch j, arch ∈ archs → arch !! j = Some 1%Qc →
                               j < length (rev_node_index t)).
    { intros arch j Hin Hj.
      apply list_elem_of_lookup in Hin as [k Hk].
      destruct (Forall2_lookup_l _ _ _ _ _ Hres Hk) as (p & _ & Hp).
      by eapply path_of_bound. }
    split; [split; [done|]|].
    + eapply Forall2_impl; [exact Hres|]. simpl. intros arch p Hp.
      pose proof (path_of_spec (rev_node_index t) arch) as Hspec.
      by rewrite Hp in Hspec.
    + split; [by intros [e ?]|].
      intros (arch & j & Hin & Hj & Hle).
      pose proof (Hbound arch j Hin Hj). lia.
  - assert (Hbeyond : ∃ arch j, arch ∈ archs ∧ arch !! j = Some 1%Qc
                                ∧ length (rev_node_index t) ≤ j);
      [|split; [by split|split; [done|by eexists]]].
    assert (Hex : Exists (not ∘ (λ arch, is_Some (path_of (rev_node_index t) arch)))
                    archs).
    { apply not_Forall_Exists; [intros ?; apply _|].
      intros Hall. apply eq_None_not_Some in Hres. apply Hres.
      by apply mapM_is_Some. }
    apply Exists_exists in Hex as (arch & Hin & Hnone). simpl in Hnone.
    apply eq_None_not_Some in Hnone.
    pose proof (path_of_spec (rev_node_index t) arch) as Hspec.
    rewrite Hnone in Hspec. destruct Hspec as (j & Hj & Hle).
    by exists arch, j.
Qed.

Lemma get_used_nodes_spec_witness :
  init chain None = init chain None
  ∧ ((∀ arch j, arch ∈ [[1%Qc; 0%Qc; 1%Qc]; [0%Qc; 0%Qc; 0%Qc]] →
                arch !! j = Some 1%Qc →
                j < length (rev_node_index (init chain None)))
     ∧ Forall2 (λ (arch : list Qc) p,
                  sublist p (rev_node_index (init chain None))
                  ∧ ∀ nd, nd ∈ p ↔
                      ∃ j, arch !! j = Some 1%Qc
                           ∧ rev_node_index (init chain None) !! j = Some nd)
         [[1%Qc; 0%Qc; 1%Qc]; [0%Qc; 0%Qc; 0%Qc]] [["A"; "C"]; []])
  ∧ ((∃ e, Ok [["A"; "C"]; []] = Raise e) ↔
     ∃ arch j, arch ∈ [[1%Qc; 0%Qc; 1%Qc]; [0%Qc; 0%Qc; 0%Qc]]
               ∧ arch !! j = Some 1%Qc
               ∧ length (rev_node_index (init chain None)) ≤ j).
Proof.
  apply (get_used_nodes_spec
           [[1%Qc; 0%Qc; 1%Qc]; [0%Qc; 0%Qc; 0%Qc]] (init chain None)
           (Ok [["A"; "C"]; []]) (init chain None)).
  vm_compute. reflexivity.
Defined.

(** ** What [get_graph_paths] returns *)

Lemma column_lookup b (m : list (list Qc)) k : ∀ j,
  Forall (λ r : list Qc, length r = b) m → k < b →
  column k m !! j = m !! j ≫= (λ r : list Qc, r !! k).
Proof.
  unfold column. induction m as [|r m IH]; intros j Hm Hk; [done|].
  apply Forall_cons in Hm as [Hr Hm]. csimpl.
  destruct (lookup_lt_is_Some_2 r k) as [x Hx]; [lia|].
  rewrite Hx. csimpl. destruct j as [|j]; simpl; [done|]. by apply IH.
Qed.

Lemma columns_lookup n b (m : list (list Qc)) k :
  shaped2 n b m → 0 < n → k < b → columns m !! k = Some (column k m).
Proof.
  intros [Hl Hf] Hn Hk. unfold columns.
  rewrite list_lookup_fmap.
  assert (Hsz : size1 m = b).
  { destruct m as [|r m]; simpl in *; [lia|]. by apply Forall_cons in Hf as [? _]. }
  rewrite Hsz, lookup_seq_lt by done. done.
Qed.

Lemma length_columns n b (m : list (list Qc)) :
  shaped2 n b m → 0 < n → length (columns m) = b.
Proof.
  intros [Hl Hf] Hn. unfold columns. rewrite length_fmap, length_seq.
  destruct m as [|r m]; simpl in *; [lia|]. by apply Forall_cons in Hf as [? _].
Qed.

(** Assigning the pairs of a list to a dictionary in order: a key held
    once gets its value. *)
Lemma foldl_insert_lookup (kvs : list (node * Qc)) : ∀ (m0 : gmap node Qc),
  NoDup kvs.*1 →
  (∀ nd x, (nd, x) ∈ kvs →
     foldl (λ (m : gmap node Qc) kv, <[kv.1 := kv.2]> m) m0 kvs !! nd = Some x)
  ∧ (∀ nd, nd ∉ kvs.*1 →
     foldl (λ (m : gmap node Qc) kv, <[kv.1 := kv.2]> m) m0 kvs !! nd = m0 !! nd).
Proof.
  induction kvs as [|[k v] kvs IH]; intros m0 Hnd; simpl.
  - split; [by intros ?? ?%elem_of_nil|done].
  - apply NoDup_cons in Hnd as [Hk Hnd].
    destruct (IH (<[k := v]> m0) Hnd) as [IHin IHout]. split.
    + intros nd x [Heq|Hin]%elem_of_cons.
      * injection Heq as -> ->. rewrite IHout by done.
        by rewrite lookup_insert_eq.
      * by apply IHin.
    + intros nd [Hne Hnin]%not_elem_of_cons.
      rewrite IHout by done. by rewrite lookup_insert_ne.
Qed.

(** The dictionary of lines 118 and 126 over an index without repetition:
    the node at position [j] is mapped to entry [j] of the vector. *)
Lemma dict_of_lookup (rev : list node) (col : list Qc) d :
  dict_of rev col = Some d → NoDup rev →
  ∀ j nd, rev !! j = Some nd → d !! nd = col !! j.
Proof.
  unfold dict_of. intros Hd Hnd j nd Hj.
  destruct (mapM _ _) as [kvs|] eqn:Hkvs; [|done].
  simpl in Hd. injection Hd as <-. apply mapM_Some in Hkvs.
  assert (Hlk : ∀ j', kvs !! j'
                      = col !! j' ≫= λ x, (λ nd', (nd', x)) <$> rev !! j').
  { intros j'. destruct (col !! j') as [x|] eqn:Hx; simpl.
    - assert (Hp : imap pair col !! j' = Some (j', x))
        by by rewrite list_lookup_imap, Hx.
      destruct (Forall2_lookup_l _ _ _ _ _ Hkvs Hp) as (kv & -> & Hkv).
      simpl in Hkv. by rewrite Hkv.
    - apply lookup_ge_None in Hx. apply lookup_ge_None.
      apply Forall2_length in Hkvs. rewrite length_imap in Hkvs. lia. }
  assert (Hkeys : kvs.*1 = take (length col) rev).
  { apply list_eq. intros j'. rewrite list_lookup_fmap, Hlk.
    destruct (col !! j') as [x|] eqn:Hx; simpl.
    - rewrite lookup_take_lt by by eapply lookup_lt_Some.
      by destruct (rev !! j').
    - apply lookup_ge_None in Hx. by rewrite lookup_take_ge by lia. }
  assert (Hnd' : NoDup kvs.*1).
  { rewrite Hkeys. rewrite <-(take_drop (length col) rev) in Hnd.
    by apply NoDup_app in Hnd as [? _]. }
  destruct (foldl_insert_lookup kvs ∅ Hnd') as [Hin Hout].
  destruct (col !! j) as [x|] eqn:Hx.
  - apply Hin. apply list_elem_of_lookup. exists j.
    by rewrite Hlk, Hx; simpl; rewrite Hj.
  - rewrite Hout; [done|]. rewrite Hkeys. intros Hel.
    apply list_elem_of_lookup in Hel as [j' Hj'].
    apply lookup_ge_None in Hx.
    assert (j' < length col).
    { apply lookup_lt_Some in Hj'. rewrite length_take in Hj'. lia. }
    rewrite lookup_take_lt in Hj' by done.
    pose proof (NoDup_lookup _ _ _ _ Hnd Hj Hj'). lia.
Qed.

(** X14: what [get_graph_paths] hands back for sized tensors of batch
    width [b] and an index without repetition: one path and one dictionary
    per batch element; the path of element [k] holds a node exactly when
    the pruned row of the output node has a one for it at [k], and the
    dictionary of element [k] maps every node to the decision recorded for
    it at [k]. *)
Theorem get_graph_paths_result out t paths dicts t' a s b i :
  get_graph_paths out t = (Ok (paths, dicts), t') →
  active t = Some a → sampling t = Some s →
  shaped3 (n_nodes t) b a → shaped2 (n_nodes t) b s →
  NoDup (rev_node_index t) →
  node_index t !! out = Some i →
  length paths = b ∧ length dicts = b
  ∧ ∀ k j nd, k < b → rev_node_index t !! j = Some nd →
      ∃ p d, paths !! k = Some p ∧ dicts !! k = Some d
        ∧ (nd ∈ p ↔ entry a i j k = Some 1%Qc)
        ∧ d !! nd = s !! j ≫= (λ r : list Qc, r !! k).
Proof.
  intros H Ha Hs Hsa Hss Hnd Hi.
  unfold get_graph_paths, get_architectures, get_sampled_architectures,
    get_used_nodes in H. minv H. simplify_eq.
  match goal with
  | Hp : get_pruned_architecture _ _ = (Ok ?m, _) |- _ =>
      pose proof (get_pruned_architecture_pure _ _ _ _ Hp) as ->;
      destruct (get_pruned_architecture_row _ _ _ _ Hp)
        as (a' & i' & Ha' & Hi' & Hrow)
  end.
  simplify_eq.
  match goal with
  | Hp : mapM (path_of _) (columns ?m) = Some paths,
    Hd : mapM (dict_of _) (columns ?s) = Some dicts,
    Hr : a !! i = Some ?m |- _ =>
      rename Hp into Hpaths; rename Hd into Hdicts; rename Hr into Hpruned;
      set (pruned := m) in *; set (smp := s) in *
  end.
  pose proof (shaped3_lookup _ _ _ _ _ Hsa Hpruned) as Hspr.
  match goal with
  | Hact : active ?t0 = Some a |- _ => assert (Hn : 0 < n_nodes t0)
  end.
  { apply lookup_lt_Some in Hpruned. destruct Hsa as [Hl _]. lia. }
  apply mapM_Some in Hpaths, Hdicts.
  pose proof (Forall2_length _ _ _ Hpaths) as Hlp.
  pose proof (Forall2_length _ _ _ Hdicts) as Hld.
  rewrite (length_columns _ _ _ Hspr Hn) in Hlp.
  rewrite (length_columns _ _ _ Hss Hn) in Hld.
  split; [done|]. split; [done|].
  intros k j nd Hk Hj.
  destruct (Forall2_lookup_l _ _ _ _ _ Hpaths
              (columns_lookup _ _ _ _ Hspr Hn Hk)) as (p & Hp & Hpath).
  destruct (Forall2_lookup_l _ _ _ _ _ Hdicts
              (columns_lookup _ _ _ _ Hss Hn Hk)) as (d & Hd & Hdict).
  exists p, d. split; [done|]. split; [done|]. split.
  - match type of Hpath with
    | path_of ?rv _ = _ =>
        pose proof (path_of_spec rv (column k pruned)) as Hspec
    end.
    rewrite Hpath in Hspec. destruct Hspec as [_ Hin]. rewrite Hin.
    assert (Hent : entry a i j k = column k pruned !! j).
    { unfold entry. rewrite Hpruned.
      rewrite (column_lookup b) by (done || apply Hspr).
      by destruct (pruned !! j). }
    rewrite Hent. split.
    + intros (j' & Hone & Hj').
      by rewrite (NoDup_lookup _ _ _ _ Hnd Hj Hj').
    + intros Hone. by exists j.
  - rewrite (dict_of_lookup _ _ _ Hdict Hnd j nd Hj).
    apply (column_lookup b); [apply Hss|done].
Qed.

Lemma get_graph_paths_result_witness :
  ∃ t paths dicts t',
    get_graph_paths "B" t = (Ok (paths, dicts), t')
    ∧ length paths = 2 ∧ length dicts = 2
    ∧ ∀ k j nd, k < 2 → rev_node_index t !! j = Some nd →
        ∃ p d, paths !! k = Some p ∧ dicts !! k = Some d
          ∧ (nd ∈ p ↔ entry [[[1%Qc; 1%Qc]; [0%Qc; 0%Qc]];
                               [[1%Qc; 0%Qc]; [1%Qc; 0%Qc]]] 1 j k
                       = Some 1%Qc)
          ∧ d !! nd = [[1%Qc; 1%Qc]; [1%Qc; 0%Qc]] !! j
                      ≫= (λ r : list Qc, r !! k).
Proof.
  eexists (run [call_new_iteration;
                call_add_sampling "A" (vector [1%Qc; 1%Qc]);
                call_add_sampling "B" (vector [1%Qc; 0%Qc])]
             (init edge None)), _, _, _.
  split; [vm_compute; reflexivity|].
  eapply (get_graph_paths_result "B" _ _ _ _ _ _ 2 1).
  - vm_compute. reflexivity.
  - vm_compute. reflexivity.
  - vm_compute. reflexivity.
  - split; repeat constructor.
  - split; repeat constructor.
  - apply (bool_decide_unpack _). vm_compute. exact I.
  - vm_compute. reflexivity.
Defined.

(** ** Posterior weights *)

Lemma dict_of_Some_length (rev : list node) (col : list Qc) d :
  dict_of rev col = Some d → length col ≤ length rev.
Proof.
  unfold dict_of. intros Hd.
  destruct (mapM _ _) as [kvs|] eqn:Hkvs; [|done].
  apply mapM_Some in Hkvs.
  destruct (decide (length col ≤ length rev)) as [|Hgt]; [done|exfalso].
  destruct (lookup_lt_is_Some_2 col (length rev)) as [x Hx]; [lia|].
  assert (Hp : imap pair col !! length rev = Some (length rev, x))
    by by rewrite list_lookup_imap, Hx.
  destruct (Forall2_lookup_l _ _ _ _ _ Hkvs Hp) as (kv & _ & Hkv).
  simpl in Hkv. by rewrite (lookup_ge_None_2 rev (length rev)) in Hkv.
Qed.

Lemma reachable_rev_node_index g dout cs t :
  run_ok cs (init g dout) = Some t →
  rev_node_index t = nodes g ∧ n_nodes t = number_of_nodes g.
Proof.
  intros Hrun. rewrite <-(run_ok_run _ _ _ Hrun).
  by destruct (run_static cs (init g dout)) as (_ & _ & -> & _ & ->).
Qed.

(** X15: on a graph with more than one node, once the estimate is set,
    [get_posterior_weights] returns a dictionary that maps the node at
    position [j] of the topological order to entry [j] of the estimate,
    and leaves the recorder as it is. *)
Theorem posterior_weights_by_node g dout cs t gs :
  wf_graph g → Forall wf_call cs →
  run_ok cs (init g dout) = Some t →
  global_sampling t = Some gs → number_of_nodes g ≠ 1 →
  ∃ d, get_posterior_weights t = (Ok d, t)
       ∧ ∀ j nd, nodes g !! j = Some nd → d !! nd = gs !! j.
Proof.
  intros Hg Hwf Hrun Hgs Hn1.
  destruct (reachable_inv g dout cs t Hg Hwf Hrun) as ((_ & _ & Hok & _) & _).
  destruct (reachable_rev_node_index _ _ _ _ Hrun) as [Hrev Hn].
  pose proof (Hok gs Hgs) as Hlen.
  destruct (dict_of_is_Some (rev_node_index t) gs) as [d Hd].
  { rewrite Hrev. unfold number_of_nodes in Hn. lia. }
  exists d. split.
  - unfold get_posterior_weights, bind, gets. rewrite Hgs.
    rewrite decide_False by lia. by rewrite Hd.
  - intros j nd Hj. apply (dict_of_lookup _ _ _ Hd); [|by rewrite Hrev].
    rewrite Hrev. by destruct Hg.
Qed.

Lemma posterior_weights_by_node_witness :
  ∃ d, get_posterior_weights
         (run [call_new_iteration;
               call_add_sampling "A" (vector [1%Qc; 1%Qc]);
               call_add_sampling "B" (vector [1%Qc; 0%Qc]);
               call_new_iteration] (init edge (Some "B")))
       = (Ok d,
          run [call_new_iteration;
               call_add_sampling "A" (vector [1%Qc; 1%Qc]);
               call_add_sampling "B" (vector [1%Qc; 0%Qc]);
               call_new_iteration] (init edge (Some "B")))
       ∧ ∀ j nd, nodes edge !! j = Some nd →
           d !! nd = mean1 [[1%Qc; 0%Qc]; [1%Qc; 0%Qc]] !! j.
Proof.
  apply (posterior_weights_by_node edge (Some "B")
           [call_new_iteration;
            call_add_sampling "A" (vector [1%Qc; 1%Qc]);
            call_add_sampling "B" (vector [1%Qc; 0%Qc]);
            call_new_iteration]).
  - exact wf_graph_edge.
  - repeat constructor.
  - vm_compute. reflexivity.
  - vm_compute. reflexivity.
  - vm_compute. lia.
Defined.

(** X16: [get_posterior_weights] has nothing to enumerate before the first
    update of the estimate, and never on a graph with a single node, whose
    estimate is a zero-dimensional tensor: it raises [TypeError] and leaves
    the recorder as it is. *)
Theorem posterior_weights_unavailable g dout cs t :
  wf_graph g → Forall wf_call cs →
  run_ok cs (init g dout) = Some t →
  global_sampling t = None ∨ number_of_nodes g = 1 →
  get_posterior_weights t = (Raise TypeError, t).
Proof.
  intros Hg Hwf Hrun Hcase.
  destruct (reachable_inv g dout cs t Hg Hwf Hrun) as ((_ & _ & Hok & _) & _).
  destruct (reachable_rev_node_index _ _ _ _ Hrun) as [_ Hn].
  unfold get_posterior_weights, bind, gets.
  destruct (global_sampling t) as [gs|] eqn:Hgs; [|done].
  destruct Hcase as [?|H1]; [done|].
  rewrite decide_True; [done|]. rewrite (Hok gs Hgs). congruence.
Qed.

Lemma posterior_weights_unavailable_witness :
  get_posterior_weights (run [call_new_iteration] (init chain None))
  = (Raise TypeError, run [call_new_iteration] (init chain None)).
Proof.
  apply (posterior_weights_unavailable chain None [call_new_iteration]).
  - exact wf_graph_chain.
  - repeat constructor.
  - vm_compute. reflexivity.
  - left. vm_compute. reflexivity.
Defined.

(** ** Consistence *)

Lemma Qcsum_mask_nonzero (r : list Qc) :
  Forall is01 r → Qcsum r ≠ 0%Qc ↔ 1%Qc ∈ r.
Proof.
  induction 1 as [|x r Hx Hr IH]; simpl.
  - split; [done|by intros ?%elem_of_nil].
  - destruct (Qcsum_mask r Hr) as [H0 _]. destruct Hx as [->| ->].
    + rewrite Qcplus_0_l, IH, elem_of_cons. split; [by right|].
      by intros [?|?].
    + split; [intros _; apply list_elem_of_here|]. intros _ Heq.
      assert (Hpos : (0 < 1 + Qcsum r)%Qc) by by apply Qcplus_pos_nonneg.
      rewrite Heq in Hpos. by apply Qclt_not_eq in Hpos.
Qed.

Lemma column_mask b (m : list (list Qc)) k :
  Forall (λ r : list Qc, length r = b) m → k < b → mask2 m →
  Forall is01 (column k m).
Proof.
  intros Hm Hk Hmask. apply Forall_lookup. intros j x Hx.
  rewrite (column_lookup b) in Hx by done.
  destruct (m !! j) as [r|] eqn:Hr; [|done]. simpl in Hx.
  pose proof (proj1 (Forall_lookup _ _) Hmask _ _ Hr) as Hr01.
  exact (proj1 (Forall_lookup _ _) Hr01 _ _ Hx).
Qed.

(** X17: on a sized 0/1 active tensor of batch width [b],
    [get_consistence] returns one flag per batch element and changes
    nothing; the flag of element [k] is set exactly when the row of the
    node has a one somewhere at [k]. *)
Theorem get_consistence_spec t a b nd i :
  active t = Some a → shaped3 (n_nodes t) b a → mask3 a →
  node_index t !! nd = Some i → i < n_nodes t →
  ∃ flags,
    get_consistence nd t = (Ok flags, t)
    ∧ length flags = b
    ∧ ∀ k, k < b →
        (flags !! k = Some true ↔ ∃ j, entry a i j k = Some 1%Qc)
        ∧ (flags !! k = Some false ↔ ∀ j, entry a i j k ≠ Some 1%Qc).
Proof.
  intros Ha Hsa Hmask Hi Hlt.
  destruct (shaped3_row _ _ _ _ Hsa Hlt) as (row & Hrow & Hsrow).
  pose proof (proj1 (Forall_lookup _ _) Hmask _ _ Hrow) as Hmrow.
  assert (Hsz : size1 row = b).
  { destruct Hsrow as [Hl Hf]. destruct row as [|r row]; simpl in *; [lia|].
    by apply Forall_cons in Hf as [? _]. }
  eexists. split; [|split].
  - unfold get_consistence.
    by rewrite (bind_ok _ _ _ _ _
                  (get_pruned_architecture_ok _ _ _ _ _ Ha Hi Hrow)).
  - by rewrite length_fmap, length_seq.
  - intros k Hk. rewrite list_lookup_fmap, Hsz, lookup_seq_lt by done. simpl.
    assert (Hone : Qcsum (column k row) ≠ 0%Qc
                   ↔ ∃ j, entry a i j k = Some 1%Qc).
    { rewrite Qcsum_mask_nonzero
        by (apply (column_mask b); [apply Hsrow|done..]).
      rewrite list_elem_of_lookup.
      assert (Hent : ∀ j, entry a i j k = column k row !! j).
      { intros j. unfold entry. rewrite Hrow.
        rewrite (column_lookup b) by (done || apply Hsrow).
        by destruct (row !! j). }
      split; intros [j Hj]; exists j; by rewrite ?Hent in *. }
    split; split.
    + intros [= Hb]. apply Hone. by apply bool_decide_eq_true in Hb.
    + intros Hex. f_equal. apply bool_decide_eq_true. by apply Hone.
    + intros [= Hb] j Hj. apply bool_decide_eq_false in Hb.
      apply Hb, Hone. by exists j.
    + intros Hall. f_equal. apply bool_decide_eq_false.
      intros Hne. apply Hone in Hne as [j Hj]. by apply (Hall j).
Qed.

Lemma get_consistence_spec_witness :
  ∃ flags,
    get_consistence "B"
      (run [call_new_iteration;
            call_add_sampling "A" (vector [1%Qc; 1%Qc]);
            call_add_sampling "B" (vector [1%Qc; 0%Qc])] (init edge None))
    = (Ok flags,
       run [call_new_iteration;
            call_add_sampling "A" (vector [1%Qc; 1%Qc]);
            call_add_sampling "B" (vector [1%Qc; 0%Qc])] (init edge None))
    ∧ length flags = 2
    ∧ ∀ k, k < 2 →
        (flags !! k = Some true
         ↔ ∃ j, entry [[[1%Qc; 1%Qc]; [0%Qc; 0%Qc]];
                       [[1%Qc; 0%Qc]; [1%Qc; 0%Qc]]] 1 j k = Some 1%Qc)
        ∧ (flags !! k = Some false
           ↔ ∀ j, entry [[[1%Qc; 1%Qc]; [0%Qc; 0%Qc]];
                         [[1%Qc; 0%Qc]; [1%Qc; 0%Qc]]] 1 j k ≠ Some 1%Qc).
Proof.
  apply (get_consistence_spec
           (run [call_new_iteration;
                 call_add_sampling "A" (vector [1%Qc; 1%Qc]);
                 call_add_sampling "B" (vector [1%Qc; 0%Qc])] (init edge None))
           [[[1%Qc; 1%Qc]; [0%Qc; 0%Qc]]; [[1%Qc; 0%Qc]; [1%Qc; 0%Qc]]]
           2 "B" 1).
  - vm_compute. reflexivity.
  - split; repeat constructor.
  - repeat first [apply Forall_nil_2 | apply Forall_cons_2
                 | by left | by right].
  - vm_compute. reflexivity.
  - vm_compute. lia.
Defined.

(** ** How many batches the estimate has seen *)

Lemma new_iteration_counter t y t' :
  new_iteration t = (Ok y, t') →
  n_samplings t'
  = n_samplings t
    + (match default_out t, active t with Some _, Some _ => 1 | _, _ => 0 end).
Proof.
  intros H. unfold new_iteration in H. minv H; simpl; [|lia..].
  match goal with
  | Hp : get_pruned_architecture _ _ = _,
    Hu : update_global_sampling _ _ = _ |- _ =>
      apply get_pruned_architecture_pure in Hp as ->;
      apply update_global_sampling_counter in Hu; lia
  end.
Qed.

Lemma get_graph_paths_counter nd t y t' :
  get_graph_paths nd t = (Ok y, t') → n_samplings t' = S (n_samplings t).
Proof.
  intros H.
  unfold get_graph_paths, get_architectures, get_sampled_architectures,
    get_used_nodes in H. minv H.
  match goal with
  | Hp : get_pruned_architecture _ _ = _,
    Hu : update_global_sampling _ _ = _ |- _ =>
      apply get_pruned_architecture_pure in Hp as ->;
      by apply update_global_sampling_counter in Hu
  end.
Qed.

Lemma count_cons p c cs :
  count p (c :: cs) = (if p c then 1 else 0) + count p cs.
Proof. reflexivity. Qed.

Lemma run_ok_counter cs : ∀ t t',
  run_ok cs t = Some t' →
  n_samplings t'
  = n_samplings t + count is_get_graph_paths cs
    + (match default_out t with
       | Some _ =>
           count is_new_iteration cs
           - (match active t with Some _ => 0 | None => 1 end)
       | None => 0
       end).
Proof.
  induction cs as [|c cs IH]; intros t t' H; simpl in H.
  - simplify_eq. unfold count. simpl. destruct (default_out t'); lia.
  - destruct (run_call c t) as [[y|e] t1] eqn:Hrun; [|done].
    rewrite (IH _ _ H). clear IH H.
    pose proof (run_call_static c t) as (_ & Hd & _).
    rewrite Hrun in Hd. simpl in Hd. rewrite Hd, !count_cons.
    generalize (count is_get_graph_paths cs) (count is_new_iteration cs).
    intros ng nn.
    destruct c as [|nd x|nd]; simpl in Hrun |- *.
    + rewrite (new_iteration_counter _ _ _ Hrun).
      pose proof (new_iteration_active _ _ _ Hrun) as Ha1.
      destruct (active t1); [|done].
      destruct (default_out t), (active t); lia.
    + apply add_sampling_frame in Hrun as (_ & (_ & ->) & Hnone).
      destruct (active t), (active t1), (default_out t); try lia.
      all: first [discriminate (proj1 Hnone eq_refl)
                 | discriminate (proj2 Hnone eq_refl)].
    + minv Hrun.
      match goal with
      | Hg : get_graph_paths _ _ = _ |- _ =>
          rewrite (get_graph_paths_counter _ _ _ _ Hg);
          apply get_graph_paths_frame in Hg as (_ & -> & _)
      end.
      destruct (default_out t); lia.
Qed.

(** X18: the counter tells how many batches went into the estimate. After
    a history of calls that all returned normally on a new recorder,
    [n_samplings] is the number of [get_graph_paths] calls, plus, when a
    default output is configured, the number of [new_iteration] calls but
    the first. *)
Theorem n_samplings_counts g dout cs t :
  run_ok cs (init g dout) = Some t →
  n_samplings t
  = count is_get_graph_paths cs
    + match dout with
      | Some _ => Nat.pred (count is_new_iteration cs)
      | None => 0
      end.
Proof.
  intros H. rewrite (run_ok_counter _ _ _ H). simpl.
  destruct dout; lia.
Qed.

Lemma n_samplings_counts_witness :
  n_samplings
    (run [call_new_iteration;
          call_add_sampling "A" (vector [1%Qc]);
          call_add_sampling "B" (vector [1%Qc]);
          call_get_graph_paths "B";
          call_new_iteration] (init edge (Some "B")))
  = count is_get_graph_paths
      [call_new_iteration;
       call_add_sampling "A" (vector [1%Qc]);
       call_add_sampling "B" (vector [1%Qc]);
       call_get_graph_paths "B";
       call_new_iteration]
    + Nat.pred (count is_new_iteration
                  [call_new_iteration;
                   call_add_sampling "A" (vector [1%Qc]);
                   call_add_sampling "B" (vector [1%Qc]);
                   call_get_graph_paths "B";
                   call_new_iteration]).
Proof.
  apply (n_samplings_counts edge (Some "B")
           [call_new_iteration;
            call_add_sampling "A" (vector [1%Qc]);
            call_add_sampling "B" (vector [1%Qc]);
            call_get_graph_paths "B";
            call_new_iteration]).
  vm_compute. reflexivity.
Defined.

(** ** Snapshots *)

(** X19: a snapshot carries the index and the statistics, and nothing
    else. Restoring the snapshot of one consistent recorder into another
    one over the same graph returns normally and gives a consistent
    recorder that has the index, the estimate and the counter of the
    first, and the graph, the default output and the iteration in progress
    of the second; its own snapshot is the one restored. *)
Theorem snapshot_round_trip t1 t2 :
  inv t1 → inv t2 → graph t1 = graph t2 → n_nodes t1 = n_nodes t2 →
  ∃ st t',
    get_state t1 = (Ok st, t1)
    ∧ load_state st t2 = (Ok tt, t')
    ∧ inv t'
    ∧ node_index t' = node_index t1
    ∧ rev_node_index t' = rev_node_index t1
    ∧ same_stats t1 t'
    ∧ same_tensors t2 t'
    ∧ graph t' = graph t2 ∧ default_out t' = default_out t2
    ∧ n_nodes t' = n_nodes t2
    ∧ get_state t' = (Ok st, t').
Proof.
  intros (Hst1 & _ & Hok1 & _) (_ & Hten2 & _ & Hmask2) Hg Hn.
  eexists _, _. split; [reflexivity|]. split; [reflexivity|].
  split; [|by repeat split].
  split; [|split; [|split]].
  - destruct Hst1 as (Hlen & Hidx & Hpred). split; [|split]; simpl.
    + congruence.
    + done.
    + rewrite <-Hg. done.
  - done.
  - intros g Hgs. simpl in *. rewrite <-Hn. by apply Hok1.
  - done.
Qed.

Lemma snapshot_round_trip_witness :
  ∃ st t',
    get_state (run [call_new_iteration;
                    call_add_sampling "A" (vector [1%Qc]);
                    call_add_sampling "B" (vector [1%Qc]);
                    call_new_iteration] (init edge (Some "B")))
    = (Ok st, run [call_new_iteration;
                   call_add_sampling "A" (vector [1%Qc]);
                   call_add_sampling "B" (vector [1%Qc]);
                   call_new_iteration] (init edge (Some "B")))
    ∧ load_state st (init edge None) = (Ok tt, t')
    ∧ inv t'
    ∧ node_index t'
      = node_index (run [call_new_iteration;
                         call_add_sampling "A" (vector [1%Qc]);
                         call_add_sampling "B" (vector [1%Qc]);
                         call_new_iteration] (init edge (Some "B")))
    ∧ rev_node_index t'
      = rev_node_index (run [call_new_iteration;
                             call_add_sampling "A" (vector [1%Qc]);
                             call_add_sampling "B" (vector [1%Qc]);
                             call_new_iteration] (init edge (Some "B")))
    ∧ same_stats (run [call_new_iteration;
                       call_add_sampling "A" (vector [1%Qc]);
                       call_add_sampling "B" (vector [1%Qc]);
                       call_new_iteration] (init edge (Some "B"))) t'
    ∧ same_tensors (init edge None) t'
    ∧ graph t' = graph (init edge None)
    ∧ default_out t' = default_out (init edge None)
    ∧ n_nodes t' = n_nodes (init edge None)
    ∧ get_state t' = (Ok st, t').
Proof.
  apply (snapshot_round_trip
           (run [call_new_iteration;
                 call_add_sampling "A" (vector [1%Qc]);
                 call_add_sampling "B" (vector [1%Qc]);
                 call_new_iteration] (init edge (Some "B")))
           (init edge None)).
  - apply (run_ok_inv [call_new_iteration;
                       call_add_sampling "A" (vector [1%Qc]);
                       call_add_sampling "B" (vector [1%Qc]);
                       call_new_iteration] (init edge (Some "B"))).
    + vm_compute. reflexivity.
    + repeat constructor.
    + apply init_inv. exact wf_graph_edge.
  - apply init_inv. exact wf_graph_edge.
  - vm_compute. reflexivity.
  - vm_compute. reflexivity.
Defined.

(** X20: [load_state] is not all-or-nothing. On a dictionary with a key
    that names no attribute it raises [AssertionError] when it comes to
    that key: the entries before it have been assigned by then, the
    entries after it are never looked at. *)
Theorem load_state_unknown_key pre key post t :
  Forall known_item pre →
  ∃ t1, load_state pre t = (Ok tt, t1)
        ∧ load_state (pre ++ item_unknown key :: post) t
          = (Raise AssertionError, t1).
Proof.
  unfold load_state. revert t.
  induction pre as [|it pre IH]; intros t Hpre.
  - exists t. by split.
  - apply Forall_cons in Hpre as [Hit Hpre].
    assert (Hstep : ∃ t0, load_item it t = (Ok tt, t0))
      by (destruct it; try done; by eexists).
    destruct Hstep as [t0 Hstep].
    destruct (IH t0 Hpre) as (t1 & Hok & Hfail). exists t1.
    split.
    + by rewrite for_each_cons, (bind_ok _ _ _ _ _ Hstep).
    + by rewrite <-app_comm_cons, for_each_cons, (bind_ok _ _ _ _ _ Hstep).
Qed.

Lemma load_state_unknown_key_witness :
  ∃ t1, load_state [item_n_samplings 7] (init edge None) = (Ok tt, t1)
        ∧ load_state ([item_n_samplings 7]
                      ++ item_unknown "n_sampling" :: [item_global_sampling None])
            (init edge None)
          = (Raise AssertionError, t1).
Proof.
  apply (load_state_unknown_key [item_n_samplings 7] "n_sampling"
           [item_global_sampling None] (init edge None)).
  repeat constructor.
Defined.

(** ** A failing update of the estimate *)

(** X21: [update_global_sampling] counts before it computes. With an
    estimate in place, a matrix that has neither one row nor as many rows
    as the estimate has entries makes line 43 fail with the size error of
    torch; the counter has been incremented by then and the estimate is
    as it was. This is the only way the method fails. *)
Theorem update_global_sampling_failure u t :
  (∀ g, global_sampling t = Some g →
        length u ≠ length g → length u ≠ 1 →
        update_global_sampling u t
        = (Raise BroadcastError, set_n_samplings (S (n_samplings t)) t))
  ∧ (∀ e t', update_global_sampling u t = (Raise e, t') →
             e = BroadcastError
             ∧ t' = set_n_samplings (S (n_samplings t)) t
             ∧ ∃ g, global_sampling t = Some g
                    ∧ length u ≠ length g ∧ length u ≠ 1).
Proof.
  assert (Hlen : length (mean1 u) = length u)
    by (unfold mean1; by rewrite length_fmap).
  split.
  - intros g Hg Hne Hne1.
    unfold update_global_sampling, bind, modify, gets. simpl. rewrite Hg.
    unfold broadcast2. rewrite Hlen.
    rewrite decide_False by done. rewrite decide_False by done.
    destruct (decide (length g = 1)) as [Hg1|Hg1]; simpl; [|done].
    rewrite decide_False; [done|].
    rewrite length_fmap, length_fmap, Hlen. done.
  - intros e t' H.
    destruct (global_sampling t) as [g|] eqn:Hg.
    + destruct (decide (length u = length g)) as [Heq|Hne].
      { by rewrite (update_global_sampling_next _ _ _ Hg Heq) in H. }
      destruct (decide (length u = 1)) as [H1|Hne1].
      * exfalso. revert H.
        unfold update_global_sampling, bind, modify, gets. simpl. rewrite Hg.
        unfold broadcast2. rewrite Hlen.
        rewrite decide_False by done. rewrite decide_True by done. simpl.
        rewrite decide_True; [done|]. by rewrite !length_fmap.
      * revert H.
        unfold update_global_sampling, bind, modify, gets. simpl. rewrite Hg.
        unfold broadcast2. rewrite Hlen.
        rewrite decide_False by done. rewrite decide_False by done.
        destruct (decide (length g = 1)) as [Hg1|Hg1]; simpl.
        -- rewrite decide_False
             by (rewrite length_fmap, length_fmap, Hlen; done).
           intros [= <- <-]. split; [done|]. split; [done|]. by exists g.
        -- intros [= <- <-]. split; [done|]. split; [done|]. by exists g.
    + by rewrite (update_global_sampling_first _ _ Hg) in H.
Qed.

Lemma update_global_sampling_failure_witness :
  update_global_sampling [[1%Qc]; [1%Qc]; [1%Qc]]
    (set_global_sampling (Some [1%Qc; 1%Qc]) (init edge None))
  = (Raise BroadcastError,
     set_n_samplings 1
       (set_global_sampling (Some [1%Qc; 1%Qc]) (init edge None))).
Proof.
  apply (proj1 (update_global_sampling_failure [[1%Qc]; [1%Qc]; [1%Qc]]
                  (set_global_sampling (Some [1%Qc; 1%Qc]) (init edge None)))
           [1%Qc; 1%Qc]).
  - reflexivity.
  - vm_compute. lia.
  - vm_compute. lia.
Defined.

(** ** A node that decides zero *)

(** Lines 82-90 where the decision is zero: the whole column is cleared,
    whatever the gathered row holds. *)
Lemma prune_zero_decision n b i d (inc : list (list Qc)) k :
  shaped2 n b inc → i < n → length d = b → d !! k = Some 0%Qc →
  zero_at k (prune i d inc).
Proof.
  intros Hinc Hi Hd Hy j r' Hr'.
  assert (Hk : k < b) by (rewrite <-Hd; by eapply lookup_lt_Some).
  destruct (max0_lookup n b inc k Hinc ltac:(lia) Hk) as (h & Hh & _).
  assert (Hj : j < n).
  { apply lookup_lt_Some in Hr'.
    destruct (shaped2_prune n b i d inc Hinc Hi Hd) as [Hl _]. lia. }
  destruct (shaped2_row _ _ _ _ Hinc Hi) as (ri & Hri & Hlri).
  assert (Hs1 : shaped2 n b (<[i := vadd (inc !!! i) d]> inc)).
  { apply shaped2_insert; [done|].
    rewrite (list_lookup_total_correct _ _ _ Hri).
    rewrite length_vadd; congruence. }
  destruct (shaped2_row _ _ _ _ Hs1 Hj) as (r & Hr & Hlr).
  destruct (lookup_lt_is_Some_2 r k) as [v Hv]; [lia|].
  destruct (prune_entry i d inc j k r v h 0%Qc Hr Hv Hh Hy)
    as (r'' & Hr'' & Hv'').
  rewrite Hr' in Hr''. injection Hr'' as <-.
  by rewrite Hv'', Qcmult_0_r, ne0_0, Qcmult_0_r, ne0_0.
Qed.

(** X22: a node that decides zero for a batch element keeps nothing for
    it. When the decision of the node is zero at batch element k, its
    whole recorded row is zero at k after [add_sampling], whatever its
    predecessors hold and whatever the row held before. *)
Theorem add_sampling_zero_decision t b a s nd i ps pis d k :
  ready t b a s → length d = b →
  node_index t !! nd = Some i → i < n_nodes t →
  pred (graph t) !! nd = Some ps →
  Forall2 (λ q iq, node_index t !! q = Some iq ∧ iq < n_nodes t) ps pis →
  d !! k = Some 0%Qc →
  ∃ t' row,
    add_sampling nd (vector d) t = (Ok tt, t')
    ∧ get_pruned_architecture nd t' = (Ok row, t')
    ∧ shaped2 (n_nodes t) b row
    ∧ zero_at k row.
Proof.
  intros Hr Hd Hi Hlt Hp Hps Hy.
  destruct (ready_shaped _ _ _ _ Hr) as [Hsa Hss].
  assert (Hpis : Forall (λ q, q < n_nodes t) pis).
  { clear -Hps. induction Hps as [|???? [_ ?]]; by constructor. }
  assert (Hb : b ≠ 0).
  { apply lookup_lt_Some in Hy. lia. }
  pose proof (shaped3_gather _ _ i pis d a Hsa Hd Hlt Hpis) as Hsg.
  destruct (shaped3_row _ _ _ _ Hsg Hlt) as (inc & Hinc & Hsinc).
  assert (Hia : i < length a) by (destruct Hsa as [Hl _]; lia).
  pose proof (propagate_lookup_eq i pis d a Hia) as Hrow.
  rewrite (list_lookup_total_correct _ _ _ Hinc) in Hrow.
  eexists _, (prune i d inc). split; [|split; [|split]].
  - by apply (add_sampling_ready t b a s nd i ps pis (vector d) d);
      [apply promote_squeeze_vector|..].
  - by eapply get_pruned_architecture_ok.
  - by apply shaped2_prune.
  - by eapply prune_zero_decision.
Qed.

Lemma add_sampling_zero_decision_witness :
  ∃ t' row,
    add_sampling "B" (vector [0%Qc])
      (run [call_new_iteration; call_add_sampling "A" (vector [1%Qc])]
         (init edge None))
    = (Ok tt, t')
    ∧ get_pruned_architecture "B" t' = (Ok row, t')
    ∧ shaped2 2 1 row
    ∧ zero_at 0 row.
Proof.
  apply (add_sampling_zero_decision
           (run [call_new_iteration; call_add_sampling "A" (vector [1%Qc])]
              (init edge None))
           1 [[[1%Qc]; [0%Qc]]; [[0%Qc]; [0%Qc]]] [[1%Qc]; [0%Qc]]
           "B" 1 ["A"] [0] [0%Qc] 0).
  - eexists _, _. split; [vm_compute; reflexivity|].
    split; [vm_compute; reflexivity|]. right.
    split; [reflexivity|]. split; [reflexivity|].
    split; repeat constructor.
  - reflexivity.
  - vm_compute. reflexivity.
  - vm_compute. lia.
  - vm_compute. reflexivity.
  - repeat constructor.
  - reflexivity.
Defined.

(** ** The two tensors go together *)

(** X23: the two tensors always fit each other. After any history of
    calls that returned normally on a new recorder over a well-formed
    graph, [active] and [sampling] are both unset (before the first
    [new_iteration]), both empty (no decision recorded since the last
    reset), or sized n x n x b and n x b for one batch width b > 0. *)
Theorem tensors_fit g dout cs t :
  wf_graph g → Forall wf_call cs →
  run_ok cs (init g dout) = Some t →
  match active t, sampling t with
  | None, None => call_new_iteration ∉ cs
  | Some a, Some s =>
      call_new_iteration ∈ cs
      ∧ ((a = [] ∧ s = [])
         ∨ ∃ b, 0 < b ∧ shaped3 (number_of_nodes g) b a
                ∧ shaped2 (number_of_nodes g) b s)
  | _, _ => False
  end.
Proof.
  intros Hg Hwf Hrun.
  destruct (reachable_inv g dout cs t Hg Hwf Hrun) as ((_ & Hten & _) & _).
  destruct (reachable_rev_node_index _ _ _ _ Hrun) as [_ Hn].
  pose proof (run_active cs (init g dout)) as Hact.
  rewrite (run_ok_run _ _ _ Hrun) in Hact. simpl in Hact.
  unfold tensors_ok in Hten. rewrite Hn in Hten.
  destruct (active t) as [a|], (sampling t) as [s|]; try done.
  - split.
    + destruct (decide (call_new_iteration ∈ cs)) as [|Hnin]; [done|].
      discriminate (proj2 Hact (conj eq_refl Hnin)).
    + destruct Hten as [?|(b & ? & ? & ? & ?)]; [by left|right].
      by exists b.
  - exact (proj2 (proj1 Hact eq_refl)).
Qed.

Lemma tensors_fit_witness :
  match active (run [call_new_iteration;
                     call_add_sampling "A" (vector [1%Qc; 0%Qc])]
                  (init edge None)),
        sampling (run [call_new_iteration;
                       call_add_sampling "A" (vector [1%Qc; 0%Qc])]
                    (init edge None)) with
  | None, None =>
      call_new_iteration
      ∉ [call_new_iteration; call_add_sampling "A" (vector [1%Qc; 0%Qc])]
  | Some a, Some s =>
      call_new_iteration
      ∈ [call_new_iteration; call_add_sampling "A" (vector [1%Qc; 0%Qc])]
      ∧ ((a = [] ∧ s = [])
         ∨ ∃ b, 0 < b ∧ shaped3 (number_of_nodes edge) b a
                ∧ shaped2 (number_of_nodes edge) b s)
  | _, _ => False
  end.
Proof.
  apply (tensors_fit edge None
           [call_new_iteration; call_add_sampling "A" (vector [1%Qc; 0%Qc])]).
  - exact wf_graph_edge.
  - repeat constructor.
  - vm_compute. reflexivity.
Defined.
